(** * API keys of the proxy: key store and request gatekeeper

    A shallow embedding of [src/auth/api-key-manager.js] and
    [src/auth/api-key-middleware.js].

    The JavaScript modules read and write one JSON document, draw random
    bytes, read the clock and print to the console.  All of this is threaded
    through an explicit [world]; an operation is a function from the world to
    either a value or a thrown error, each with the world it leaves behind. *)

From Stdlib Require Import Ascii DecimalString.
From stdpp Require Import base option list strings gmap.

Local Open Scope string_scope.
Local Open Scope list_scope.

(** ** JavaScript values *)

Module Js.

(** The values that reach the functions below: a request header is a string
    or [undefined], and a caller may hand anything to [validateKey]. *)
Inductive value :=
| VUndefined
| VNull
| VBool (b : bool)
| VNum (n : Z)
| VStr (s : string)
| VOther.                       (* an object, array or function *)

(** Object literals, as maps from property name to value. *)
Abbreviation object := (gmap string value).

(** ToBoolean, used by [!x] and [if (x)]. *)
Definition truthy (v : value) : bool :=
  match v with
  | VUndefined | VNull => false
  | VBool b => b
  | VNum n => negb (n =? 0)%Z
  | VStr s => negb (String.eqb s "")
  | VOther => true
  end.

Definition typeof (v : value) : string :=
  match v with
  | VUndefined => "undefined"
  | VNull | VOther => "object"
  | VBool _ => "boolean"
  | VNum _ => "number"
  | VStr _ => "string"
  end.

(** Property read [o.p]: a missing property reads as [undefined]. *)
Definition get (o : object) (p : string) : value :=
  default VUndefined (o !! p).

(** [s.startsWith(p)] *)
Definition startsWith (s p : string) : bool := String.prefix p s.

(** [s.substring(0, n)] *)
Definition substring0 (s : string) (n : nat) : string := String.substring 0 n s.

(** Two lower-case hexadecimal digits per byte, as [toString('hex')]. *)
Definition hex_digit (n : N) : ascii :=
  default "0"%char (String.get (N.to_nat n) "0123456789abcdef").

Definition hex_of_byte (b : Byte.byte) : string :=
  let n := Byte.to_N b in
  String (hex_digit (n / 16)) (String (hex_digit (n mod 16)) "").

Definition hex (bs : list Byte.byte) : string :=
  String.concat "" (map hex_of_byte bs).

(** A number inside a template literal. *)
Definition show_nat (n : nat) : string :=
  NilZero.string_of_uint (Nat.to_uint n).

End Js.

Import Js.

(** ** Data model *)

(** A stored key record, one element of the [keys] array of the document. *)
Module KeyInfo.
Record t := make {
  id : string;
  name : string;
  keyHash : string;
  keyPrefix : string;
  createdAt : string;
  enabled : bool
}.

(** The assignment [key.enabled = b]. *)
Definition set_enabled (b : bool) (k : t) : t :=
  make (id k) (name k) (keyHash k) (keyPrefix k) (createdAt k) b.

(** The object literal that [addKey] builds for a record: its six properties. *)
Definition to_object (k : t) : object :=
  {[ "id" := VStr (id k);
     "name" := VStr (name k);
     "keyHash" := VStr (keyHash k);
     "keyPrefix" := VStr (keyPrefix k);
     "createdAt" := VStr (createdAt k);
     "enabled" := VBool (enabled k) ]}.
End KeyInfo.

(** The parsed document, [{ keys: [...] }]. *)
Record Data := mkData { keys : list KeyInfo.t }.

(** The states of the store: what is at [API_KEYS_PATH], seen through
    [readFileSync] and [JSON.parse], is no file, content on which reading or
    parsing throws (with the message of the error), or a document
    [{ keys: [...] }] of key records.  Content that parses to another shape
    is no state of the store; the module [Raw] below follows the code on the
    parsed value itself and covers it. *)
Inductive document :=
| Absent
| Garbled (message : string)
| Stored (data : Data).

Inductive exn :=
| IOError (message : string).

(** What a [writeFileSync] that throws leaves at [API_KEYS_PATH].  The call
    opens the file, which empties it, writes the text and closes the file.
    When the file cannot be opened it stays as it was.  When the failure
    comes while the text is written, the file holds a beginning of the text:
    the object that the text spells is not closed, so parsing the file throws
    (with [message]).  When the failure comes on closing, the whole text is
    there. *)
Inductive damage :=
| Intact
| Torn (message : string)
| Complete.

(** The error a failing disk raises, and what it does to the file. *)
Record fault := mkFault {
  fault_message : string;
  fault_damage : damage
}.

Record world := mkWorld {
  file : document;                 (* content of API_KEYS_PATH *)
  config_dir : bool;               (* CONFIG_DIR exists *)
  disk_fault : option fault;       (* the failure of mkdirSync/writeFileSync, if any *)
  writes : nat;                    (* completed writeFileSync calls *)
  stderr : list string;            (* lines printed by console.error *)
  entropy : nat -> Byte.byte;      (* the bytes the random source will deliver *)
  cursor : nat;                    (* how many of them were consumed *)
  clock : string;                  (* new Date().toISOString() *)
  env : gmap string string         (* process.env *)
}.

(** ** Operations on the world *)

Inductive result (A : Type) :=
| Ok (a : A) (w : world)
| Throw (e : exn) (w : world).
Arguments Ok {A} a w.
Arguments Throw {A} e w.

Definition M (A : Type) : Type := world -> result A.

Definition ret {A} (a : A) : M A := fun w => Ok a w.

Definition bind {A B} (m : M A) (k : A -> M B) : M B :=
  fun w => match m w with
           | Ok a w' => k a w'
           | Throw e w' => Throw e w'
           end.

Definition throw {A} (e : exn) : M A := fun w => Throw e w.

(** [try { m } catch (error) { h error }] *)
Definition try_catch {A} (m : M A) (h : exn -> M A) : M A :=
  fun w => match m w with
           | Ok a w' => Ok a w'
           | Throw e w' => h e w'
           end.

Declare Scope m_scope.
Delimit Scope m_scope with M.
Notation "x <- m ;; k" := (bind m (fun x => k))
  (at level 100, m at next level, right associativity) : m_scope.
Notation "m ;;; k" := (bind m (fun _ => k))
  (at level 100, right associativity) : m_scope.
Local Open Scope m_scope.

Definition world_of {A} (r : result A) : world :=
  match r with Ok _ w | Throw _ w => w end.

Definition value_of {A} (r : result A) : option A :=
  match r with Ok a _ => Some a | Throw _ _ => None end.

Definition error_message (e : exn) : string :=
  match e with IOError m => m end.

Definition set_file (d : document) (w : world) : world :=
  mkWorld d (config_dir w) (disk_fault w) (S (writes w)) (stderr w)
          (entropy w) (cursor w) (clock w) (env w).

(** The file after a write that did not complete. *)
Definition leave (d : document) (w : world) : world :=
  mkWorld d (config_dir w) (disk_fault w) (writes w) (stderr w)
          (entropy w) (cursor w) (clock w) (env w).

Definition set_config_dir (w : world) : world :=
  mkWorld (file w) true (disk_fault w) (writes w) (stderr w)
          (entropy w) (cursor w) (clock w) (env w).

Definition add_stderr (line : string) (w : world) : world :=
  mkWorld (file w) (config_dir w) (disk_fault w) (writes w) (stderr w ++ [line])
          (entropy w) (cursor w) (clock w) (env w).

Definition advance (n : nat) (w : world) : world :=
  mkWorld (file w) (config_dir w) (disk_fault w) (writes w) (stderr w)
          (entropy w) (cursor w + n) (clock w) (env w).

(** [console.error(label, message)] prints both, separated by a space. *)
Definition console_error (label message : string) : M unit :=
  fun w => Ok tt (add_stderr (label +:+ " " +:+ message) w).

(** [randomBytes(n)]: the next [n] bytes of the source. *)
Definition randomBytes (n : nat) : M (list Byte.byte) :=
  fun w => Ok (map (entropy w) (seq (cursor w) n)) (advance n w).

(** [new Date().toISOString()] *)
Definition now_iso : M string := fun w => Ok (clock w) w.

Definition existsSync_keys : M bool :=
  fun w => Ok (match file w with Absent => false | _ => true end) w.

Definition existsSync_dir : M bool := fun w => Ok (config_dir w) w.

(** [process.env.X] *)
Definition getenv (x : string) : M (option string) := fun w => Ok (env w !! x) w.

(** [JSON.parse(readFileSync(API_KEYS_PATH, 'utf-8'))] *)
Definition read_and_parse : M Data :=
  fun w => match file w with
           | Absent => Throw (IOError "ENOENT: no such file or directory") w
           | Garbled msg => Throw (IOError msg) w
           | Stored data => Ok data w
           end.

Definition mkdirSync : M unit :=
  fun w => match disk_fault w with
           | Some f => Throw (IOError (fault_message f)) w
           | None => Ok tt (set_config_dir w)
           end.

(** The world after a [writeFileSync] of [data] that threw. *)
Definition after_fault (f : fault) (data : Data) (w : world) : world :=
  match fault_damage f with
  | Intact => w
  | Torn msg => leave (Garbled msg) w
  | Complete => leave (Stored data) w
  end.

(** [writeFileSync(API_KEYS_PATH, JSON.stringify(data, null, 2))]: a later
    read parses the text back to the records that were written.  The write is
    not atomic: when it throws, the file is what the failure left. *)
Definition writeFileSync (data : Data) : M unit :=
  fun w => match disk_fault w with
           | Some f => Throw (IOError (fault_message f)) (after_fault f data w)
           | None => Ok tt (set_file (Stored data) w)
           end.

(** ** The key manager, [api-key-manager.js] *)

Definition KEY_PREFIX : string := "sk-ant-".
Definition KEY_RANDOM_LENGTH : nat := 48.

(** The alphabet of [generateApiKey]. *)
Definition chars : string :=
  "abcdefghijklmnopqrstuvwxyzABCDEFGHIJKLMNOPQRSTUVWXYZ0123456789".

(** [chars[bytes[i] % chars.length]].  Reading past the end of [bytes] or of
    [chars] gives [undefined], which [+=] appends as the word. *)
Definition pick (bytes : list Byte.byte) (i : nat) : string :=
  match bytes !! i with
  | Some b =>
      match String.get (N.to_nat (Byte.to_N b) mod String.length chars) chars with
      | Some c => String c ""
      | None => "undefined"
      end
  | None => "undefined"
  end.

(** The loop [for (i = 0; i < KEY_RANDOM_LENGTH; i++) randomPart += ...]. *)
Definition randomPart (bytes : list Byte.byte) : string :=
  fold_left (fun acc i => acc +:+ pick bytes i) (seq 0 KEY_RANDOM_LENGTH) "".

Definition generateApiKey : M string :=
  bytes <- randomBytes KEY_RANDOM_LENGTH ;;
  ret (KEY_PREFIX +:+ randomPart bytes).

Definition generateKeyId : M string :=
  bytes <- randomBytes 8 ;;
  ret ("key_" +:+ hex bytes).

Definition loadKeys : M Data :=
  present <- existsSync_keys ;;
  if negb present then ret (mkData [])
  else
    try_catch read_and_parse
      (fun error =>
         console_error "Error loading API keys:" (error_message error) ;;;
         ret (mkData [])).

Definition saveKeys (data : Data) : M unit :=
  try_catch
    (dir <- existsSync_dir ;;
     (if negb dir then mkdirSync else ret tt) ;;;
     writeFileSync data)
    (fun error =>
       console_error "Error saving API keys:" (error_message error) ;;;
       throw error).

Definition removeKey (id : string) : M bool :=
  data <- loadKeys ;;
  let initialLength := length (keys data) in
  let data := mkData (List.filter (fun k => negb (String.eqb (KeyInfo.id k) id)) (keys data)) in
  if (length (keys data) <? initialLength)%nat then
    saveKeys data ;;; ret true
  else ret false.

(** [key.enabled = b] on the record that [find] returned: the record is an
    element of [data.keys], so the array that is saved afterwards holds the
    changed record at the position where it was found. *)
Definition assign_enabled (data : Data) (i : nat) (key : KeyInfo.t) (b : bool) : Data :=
  mkData (<[i := KeyInfo.set_enabled b key]> (keys data)).

Definition disableKey (id : string) : M bool :=
  data <- loadKeys ;;
  match list_find (fun k => KeyInfo.id k = id) (keys data) with
  | Some (i, key) =>
      let data := assign_enabled data i key false in
      saveKeys data ;;; ret true
  | None => ret false
  end.

Definition enableKey (id : string) : M bool :=
  data <- loadKeys ;;
  match list_find (fun k => KeyInfo.id k = id) (keys data) with
  | Some (i, key) =>
      let data := assign_enabled data i key true in
      saveKeys data ;;; ret true
  | None => ret false
  end.

(** The object literal of [listKeys]. *)
Definition listed (k : KeyInfo.t) : object :=
  {[ "id" := VStr (KeyInfo.id k);
     "name" := VStr (KeyInfo.name k);
     "keyPrefix" := VStr (KeyInfo.keyPrefix k);
     "enabled" := VBool (KeyInfo.enabled k);
     "createdAt" := VStr (KeyInfo.createdAt k) ]}.

Definition listKeys : M (list object) :=
  data <- loadKeys ;;
  ret (map (fun k => listed k) (keys data)).

Definition getEnabledKeyCount : M nat :=
  data <- loadKeys ;;
  ret (length (List.filter (fun k => KeyInfo.enabled k) (keys data))).

Definition hasKeys : M bool :=
  data <- loadKeys ;;
  ret (0 <? length (keys data))%nat.

(** The object literal that [validateKey] returns for the record found. *)
Definition validated (key : KeyInfo.t) : object :=
  {[ "id" := VStr (KeyInfo.id key);
     "name" := VStr (KeyInfo.name key);
     "enabled" := VBool (KeyInfo.enabled key);
     "createdAt" := VStr (KeyInfo.createdAt key) ]}.

(** The object that [getAuthStatus] returns. *)
Module AuthStatus.
Record t := make {
  enabled : bool;
  keyCount : nat;
  isDisabled : bool;
  message : string
}.
End AuthStatus.

Section WithDigest.

(** [createHash('sha256').update(key).digest('hex')], the digest of Node's
    crypto module. *)
Variable sha256_hex : string -> string.

Definition hashKey (key : string) : string := "sha256:" +:+ sha256_hex key.

Definition addKey (name : string) : M object :=
  apiKey <- generateApiKey ;;
  let keyHash := hashKey apiKey in
  let keyPrefix := substring0 apiKey 12 +:+ "..." in
  id <- generateKeyId ;;
  data <- loadKeys ;;
  createdAt <- now_iso ;;
  let keyInfo := KeyInfo.make id name keyHash keyPrefix createdAt true in
  let data := mkData (keys data ++ [keyInfo]) in
  saveKeys data ;;;
  ret (<["apiKey" := VStr apiKey]> (KeyInfo.to_object keyInfo)).

Definition validateKey (apiKey : value) : M (option object) :=
  if negb (truthy apiKey) || negb (String.eqb (typeof apiKey) "string") then ret None
  else
    match apiKey with
    | VStr apiKey =>
        if negb (startsWith apiKey KEY_PREFIX) then ret None
        else
          let keyHash := hashKey apiKey in
          data <- loadKeys ;;
          match list_find (fun k => KeyInfo.keyHash k = keyHash) (keys data) with
          | None => ret None
          | Some (_, key) => ret (Some (validated key))
          end
    | _ => ret None
    end.

(** ** The gatekeeper, [api-key-middleware.js] *)

Definition PUBLIC_ENDPOINTS : list string := ["/health"].

Definition isPublicEndpoint (path : string) : bool :=
  existsb (fun ep => String.eqb path ep || startsWith path (ep +:+ "/"))
          PUBLIC_ENDPOINTS.

Record request := mkRequest {
  path : string;
  headers : gmap string string
}.

(** What the middleware does with a request: it calls [next()], with
    [req.apiKeyInfo] as it stands then, or it answers
    [res.status(status).json({ error: { type, message } })]. *)
Inductive reply :=
| Next (apiKeyInfo : option object)
| Json (status : nat) (type message : string).

Definition header (req : request) (h : string) : value :=
  match headers req !! h with
  | Some v => VStr v
  | None => VUndefined
  end.

Definition apiKeyMiddleware (req : request) : M reply :=
  if isPublicEndpoint (path req) then ret (Next None)
  else
    skip <- getenv "SKIP_API_KEY_AUTH" ;;
    if bool_decide (skip = Some "true") then ret (Next None)
    else
      any <- hasKeys ;;
      if negb any then
        ret (Json 503 "configuration_error"
                  "No API keys configured. Please run: npm run api-keys:add")
      else
        let apiKey := header req "x-api-key" in
        if negb (truthy apiKey) then
          ret (Json 401 "authentication_error"
                    "Missing API key. Please provide x-api-key header.")
        else
          keyInfo <- validateKey apiKey ;;
          match keyInfo with
          | None => ret (Json 401 "authentication_error" "Invalid API key.")
          | Some keyInfo =>
              if negb (truthy (get keyInfo "enabled")) then
                ret (Json 401 "authentication_error" "API key is disabled.")
              else ret (Next (Some keyInfo))
          end.

Definition getAuthStatus : M AuthStatus.t :=
  keyCount <- getEnabledKeyCount ;;
  hasAnyKeys <- hasKeys ;;
  skip <- getenv "SKIP_API_KEY_AUTH" ;;
  let isDisabled := bool_decide (skip = Some "true") in
  ret (AuthStatus.make
         (negb isDisabled && hasAnyKeys)
         keyCount
         isDisabled
         (if isDisabled then "API Key Auth: DISABLED (SKIP_API_KEY_AUTH=true)"
          else if hasAnyKeys then
            "API Key Auth: Enabled (" +:+ show_nat keyCount +:+ " active key"
              +:+ (if negb (keyCount =? 1)%nat then "s" else "") +:+ ")"
          else "API Key Auth: No keys configured!")).

End WithDigest.

(** ** Reading the store *)

(** The data [loadKeys] hands out for a document, and the world it leaves:
    only a garbled document leaves a trace, one line on the console. *)
Definition current (d : document) : Data :=
  match d with
  | Stored data => data
  | Absent | Garbled _ => mkData []
  end.

Definition after_load (w : world) : world :=
  match file w with
  | Garbled msg => add_stderr ("Error loading API keys: " +:+ msg) w
  | Absent | Stored _ => w
  end.

(** The world after a successful [saveKeys data]. *)
Definition saved (data : Data) (w : world) : world :=
  set_file (Stored data) (if config_dir w then w else set_config_dir w).

(** The world after a [saveKeys data] that threw on the failure [f]: the
    directory is made first, so without one the call stops before the file
    is opened; the error goes to the console on its way out. *)
Definition failed_save (f : fault) (data : Data) (w : world) : world :=
  add_stderr ("Error saving API keys: " +:+ fault_message f)
             (if config_dir w then after_fault f data w else w).

(** Two worlds with the same document, the same number of writes and the
    same disk. *)
Definition untouched (w w' : world) : Prop :=
  file w' = file w /\ writes w' = writes w /\ disk_fault w' = disk_fault w.

(** The records of the store in world [w]. *)
Definition records (w : world) : list KeyInfo.t := keys (current (file w)).

(** ** What the gatekeeper looks at *)

(** The override: [process.env.SKIP_API_KEY_AUTH === 'true']. *)
Definition override (w : world) : bool :=
  bool_decide (env w !! "SKIP_API_KEY_AUTH" = Some "true").

(** The number of records with [enabled] true, and whether there is any
    record at all. *)
Definition enabled_count (w : world) : nat :=
  length (List.filter (fun k => KeyInfo.enabled k) (records w)).

Definition has_records (w : world) : bool := (0 <? length (records w))%nat.

(** ** What [addKey] draws *)

(** The secret and the id that [addKey] draws in world [w], the record it
    appends and the world it leaves when the document can be written. *)
Definition drawn_key (w : world) : string :=
  KEY_PREFIX +:+ randomPart (map (entropy w) (seq (cursor w) KEY_RANDOM_LENGTH)).

Definition drawn_id (w : world) : string :=
  "key_" +:+ hex (map (entropy w) (seq (cursor w + KEY_RANDOM_LENGTH) 8)).

Definition new_record (sha : string -> string) (name : string) (w : world) : KeyInfo.t :=
  KeyInfo.make (drawn_id w) name (hashKey sha (drawn_key w))
               (substring0 (drawn_key w) 12 +:+ "...") (clock w) true.

Definition after_addKey (sha : string -> string) (name : string) (w : world) : world :=
  saved (mkData (records w ++ [new_record sha name w]))
        (after_load (advance 8 (advance KEY_RANDOM_LENGTH w))).

(** ** The format of a generated key *)

Definition alphanumeric (c : ascii) : bool :=
  let n := nat_of_ascii c in
  ((48 <=? n) && (n <=? 57) || (65 <=? n) && (n <=? 90) || (97 <=? n) && (n <=? 122))%nat.

Definition in_alphabet (c : ascii) : bool :=
  existsb (Ascii.eqb c) (String.list_ascii_of_string chars).

(** [sk-ant-] followed by exactly [KEY_RANDOM_LENGTH] characters of [chars]:
    the format the comment above [KEY_PREFIX] describes. *)
Definition generated_format (s : string) : bool :=
  startsWith s KEY_PREFIX
  && (String.length s =? String.length KEY_PREFIX + KEY_RANDOM_LENGTH)%nat
  && forallb in_alphabet
       (String.list_ascii_of_string
          (String.substring (String.length KEY_PREFIX) KEY_RANDOM_LENGTH s)).

(** ** Sample worlds *)

(** A stand-in for the digest where a closed example needs one; the theorems
    hold for every digest function. *)
Definition sample_digest (s : string) : string := s.

Definition sample_entropy (n : nat) : Byte.byte :=
  default Byte.x00 (Byte.of_nat ((7 * n + 3) mod 256)).

(** A first run: no document, no configuration directory, a healthy disk. *)
Definition fresh_install : world :=
  mkWorld Absent false None 0 [] sample_entropy 0 "2026-01-01T00:00:00.000Z" ∅.

(** The document was overwritten with text that is not JSON. *)
Definition garbled_install : world :=
  mkWorld (Garbled "Unexpected token o in JSON at position 1") true None 0 []
          sample_entropy 0 "2026-01-01T00:00:00.000Z" ∅.

(** After [addKey "production"] on the first run. *)
Definition one_key_install : world :=
  world_of (addKey sample_digest "production" fresh_install).

(** The same installation with its only key disabled. *)
Definition one_disabled_install : world :=
  world_of (disableKey (drawn_id fresh_install) one_key_install).

(** A request to a protected path whose [x-api-key] header is present and
    empty, and one that presents the generated secret. *)
Definition empty_header_request : request :=
  mkRequest "/v1/messages" {[ "x-api-key" := "" ]}.

Definition keyed_request : request :=
  mkRequest "/v1/messages" {[ "x-api-key" := drawn_key fresh_install ]}.

(** A document edited by hand: its one record carries the hash of a string
    that has the prefix but is shorter than a generated secret. *)
Definition hand_written_key : string := "sk-ant-short".

Definition hand_edited_install (sha : string -> string) : world :=
  mkWorld (Stored (mkData [KeyInfo.make "key_manual" "manual" (hashKey sha hand_written_key)
                                        "sk-ant-short..." "2026-01-01T00:00:00.000Z" true]))
          true None 0 [] sample_entropy 0 "2026-01-01T00:00:00.000Z" ∅.

(** The first run again, on a disk that refuses every write. *)
Definition read_only_install : world :=
  mkWorld Absent false (Some (mkFault "EACCES: permission denied" Intact)) 0 []
          sample_entropy 0 "2026-01-01T00:00:00.000Z" ∅.


(** ** The gatekeeper's reply as a function of the store *)

(** The first record that carries the hash of [apiKey], the one [find]
    returns in [validateKey]. *)
Definition lookup_hash (sha : string -> string) (apiKey : string) (w : world)
    : option KeyInfo.t :=
  snd <$> list_find (fun k => KeyInfo.keyHash k = hashKey sha apiKey) (records w).

Definition missing_key : reply :=
  Json 401 "authentication_error" "Missing API key. Please provide x-api-key header.".

Definition invalid_key : reply := Json 401 "authentication_error" "Invalid API key.".

Definition disabled_key : reply := Json 401 "authentication_error" "API key is disabled.".

Definition no_keys : reply :=
  Json 503 "configuration_error" "No API keys configured. Please run: npm run api-keys:add".

(** What [apiKeyMiddleware] answers, read off the request, the override and
    the records. *)
Definition verdict (sha : string -> string) (req : request) (w : world) : reply :=
  if isPublicEndpoint (path req) then Next None
  else if override w then Next None
  else if negb (has_records w) then no_keys
  else
    match headers req !! "x-api-key" with
    | None => missing_key
    | Some apiKey =>
        if String.eqb apiKey "" then missing_key
        else if negb (startsWith apiKey KEY_PREFIX) then invalid_key
        else
          match lookup_hash sha apiKey w with
          | None => invalid_key
          | Some key =>
              if KeyInfo.enabled key then Next (Some (validated key)) else disabled_key
          end
    end.

(** ** Ids and key characters *)

Definition is_hex (c : ascii) : bool :=
  existsb (Ascii.eqb c) (String.list_ascii_of_string "0123456789abcdef").

(** The value of a hexadecimal digit, and the bytes that a string of such
    digits spells, two digits to a byte. *)
Definition hex_value (c : ascii) : N :=
  match String.index 0 (String c "") "0123456789abcdef" with
  | Some n => N.of_nat n
  | None => 0
  end.

Fixpoint unhex (s : string) : list Byte.byte :=
  match s with
  | String hi (String lo rest) =>
      default Byte.x00 (Byte.of_N (hex_value hi * 16 + hex_value lo)) :: unhex rest
  | _ => []
  end.

(** Every byte, in order. *)
Definition all_bytes : list Byte.byte :=
  map (fun n => default Byte.x00 (Byte.of_nat n)) (seq 0 256).

(** ** Sequences of operations *)

Inductive command :=
| Add (name : string)
| Remove (id : string)
| Enable (id : string)
| Disable (id : string).

(** The world after a command, whether the call returned or threw. *)
Definition run_command (sha : string -> string) (c : command) (w : world) : world :=
  match c with
  | Add name => world_of (addKey sha name w)
  | Remove id => world_of (removeKey id w)
  | Enable id => world_of (enableKey id w)
  | Disable id => world_of (disableKey id w)
  end.

Definition run_commands (sha : string -> string) (cs : list command) (w : world) : world :=
  fold_left (fun w c => run_command sha c w) cs w.

(** A record as [addKey] makes them: the hash and the visible prefix of one
    key of the generated format, and an id of sixteen hexadecimal digits. *)
Definition issued (sha : string -> string) (k : KeyInfo.t) : Prop :=
  exists apiKey h,
    generated_format apiKey = true /\
    KeyInfo.keyHash k = hashKey sha apiKey /\
    KeyInfo.keyPrefix k = substring0 apiKey 12 +:+ "..." /\
    KeyInfo.id k = "key_" +:+ h /\
    String.length h = 16 /\
    forallb is_hex (String.list_ascii_of_string h) = true.

(** ** The terminal *)

(** What a program writes to its terminal: lines, by [console.log], and the
    prompts of [rl.question], which end without a line break. *)
Inductive output :=
| Line (text : string)
| Prompt (text : string).

Record terminal := mkTerminal {
  sys : world;
  stdout : list output
}.

(** What can be thrown in the programs below: an error of the key manager,
    or a TypeError of the language. *)
Inductive failure :=
| Thrown (e : exn)
| TypeError (message : string).

(** A run ends with a value, with something thrown, or with the process
    gone by [process.exit(code)]. *)
Inductive outcome (A : Type) :=
| Done (a : A) (t : terminal)
| Raised (f : failure) (t : terminal)
| Exited (code : nat) (t : terminal).
Arguments Done {A} a t.
Arguments Raised {A} f t.
Arguments Exited {A} code t.

Definition T (A : Type) : Type := terminal -> outcome A.

Definition tret {A} (a : A) : T A := fun t => Done a t.

Definition tbind {A B} (m : T A) (k : A -> T B) : T B :=
  fun t => match m t with
           | Done a t' => k a t'
           | Raised f t' => Raised f t'
           | Exited c t' => Exited c t'
           end.

Declare Scope t_scope.
Delimit Scope t_scope with T.
Notation "x <- m ;; k" := (tbind m (fun x => k))
  (at level 100, m at next level, right associativity) : t_scope.
Notation "m ;;; k" := (tbind m (fun _ => k))
  (at level 100, right associativity) : t_scope.

(** A call into the key manager, which sees the world and not the terminal. *)
Definition lift {A} (m : M A) : T A :=
  fun t => match m (sys t) with
           | Ok a w => Done a (mkTerminal w (stdout t))
           | Throw e w => Raised (Thrown e) (mkTerminal w (stdout t))
           end.

Definition raise {A} (f : failure) : T A := fun t => Raised f t.

Definition console_log (text : string) : T unit :=
  fun t => Done tt (mkTerminal (sys t) (stdout t ++ [Line text])).

(** [await rl.question(prompt)], answered with the line [answer]. *)
Definition question (prompt answer : string) : T string :=
  fun t => Done answer (mkTerminal (sys t) (stdout t ++ [Prompt prompt])).

Definition process_exit {A} (code : nat) : T A := fun t => Exited code t.

(** [try { body } finally { final }]: [final] runs after [body] returned or
    threw, and what [final] throws or exits with takes over. *)
Definition try_finally {A B} (body : T A) (final : T B) : T A :=
  fun t => match body t with
           | Done a t' =>
               match final t' with
               | Done _ t'' => Done a t''
               | Raised f t'' => Raised f t''
               | Exited c t'' => Exited c t''
               end
           | Raised f t' =>
               match final t' with
               | Done _ t'' => Raised f t''
               | Raised f' t'' => Raised f' t''
               | Exited c t'' => Exited c t''
               end
           | Exited c t' => Exited c t'
           end.

(** [promise.catch(handler)] *)
Definition catch {A} (m : T A) (handler : failure -> T A) : T A :=
  fun t => match m t with
           | Raised f t' => handler f t'
           | other => other
           end.

(** [for (const x of xs) body(x)] *)
Fixpoint for_each {A} (xs : list A) (body : A -> T unit) : T unit :=
  match xs with
  | [] => tret tt
  | x :: xs => tbind (body x) (fun _ => for_each xs body)
  end.

(** The status a process ends with: the code given to [process.exit], 0
    after a normal end, 1 after an error nobody caught. *)
Definition exit_status {A} (o : outcome A) : nat :=
  match o with
  | Done _ _ => 0
  | Raised _ _ => 1
  | Exited c _ => c
  end.

Definition terminal_of {A} (o : outcome A) : terminal :=
  match o with Done _ t | Raised _ t | Exited _ t => t end.

Definition failure_message (f : failure) : string :=
  match f with
  | Thrown e => error_message e
  | TypeError m => m
  end.

(** A line break and a double quote, for the texts that hold them. *)
Definition nl : string := String (ascii_of_nat 10) EmptyString.
Definition dq : string := String (ascii_of_nat 34) EmptyString.

(** A value inside a template literal. *)
Definition show_value (v : value) : string :=
  match v with
  | VUndefined => "undefined"
  | VNull => "null"
  | VBool true => "true"
  | VBool false => "false"
  | VNum n => if (n <? 0)%Z then "-" +:+ show_nat (Z.to_nat (- n)) else show_nat (Z.to_nat n)
  | VStr s => s
  | VOther => "[object Object]"
  end.

(** The receiver of a string method such as [name.padEnd]: a string, or a
    TypeError. *)
Definition string_receiver (v : value) (method : string) : T string :=
  match v with
  | VStr s => tret s
  | VUndefined =>
      raise (TypeError ("Cannot read properties of undefined (reading '" +:+ method +:+ "')"))
  | VNull =>
      raise (TypeError ("Cannot read properties of null (reading '" +:+ method +:+ "')"))
  | _ => raise (TypeError (method +:+ " is not a function"))
  end.

(** ** The startup notice, [printAuthStatus] *)


(** ** The command line, [cli/api-keys.js] *)

Module Cli.
Section WithLibrary.

(** The digest, and the methods of the language that the program calls on
    strings and dates: [s.trim()], [s.toLowerCase()],
    [s.padEnd(20).substring(0, 20)] and [new Date(v).toLocaleDateString()]. *)
Variable sha256_hex : string -> string.
Variable trim : string -> string.
Variable toLowerCase : string -> string.
Variable fit20 : string -> string.
Variable toLocaleDateString : value -> string.

Definition displayKeys (keys : Datatypes.list object) : T unit :=
  (if (length keys =? 0)%nat then
     console_log (nl +:+ "No API keys configured.") ;;;
     console_log ("Run: npm run api-keys:add" +:+ nl)
   else
     console_log (nl +:+ show_nat (length keys) +:+ " API key(s) configured:" +:+ nl) ;;;
     console_log "  ID              Name                 Status    Created" ;;;
     console_log "  ─────────────────────────────────────────────────────────────" ;;;
     for_each keys (fun key =>
       let status := if truthy (get key "enabled") then "✅ Active" else "⛔ Disabled" in
       let date := toLocaleDateString (get key "createdAt") in
       name <- string_receiver (get key "name") "padEnd" ;;
       let name := fit20 name in
       console_log ("  " +:+ show_value (get key "id") +:+ "  " +:+ name +:+ " " +:+ status +:+ "  " +:+ date)) ;;;
     console_log EmptyString)%T.

Definition add (answer : string) : T unit :=
  (console_log (nl +:+ "=== Add New API Key ===" +:+ nl) ;;;
   name <- question ("Enter a name for this key (e.g., " +:+ dq +:+ "production" +:+ dq +:+ "): ") answer ;;
   if negb (truthy (VStr name)) || (String.length (trim name) =? 0)%nat then
     console_log (nl +:+ "✗ Name cannot be empty." +:+ nl)
   else
     result <- lift (addKey sha256_hex (trim name)) ;;
     console_log (nl +:+ "✓ API Key created successfully!" +:+ nl) ;;;
     console_log ("  Name: " +:+ show_value (get result "name")) ;;;
     console_log ("  ID:   " +:+ show_value (get result "id")) ;;;
     console_log EmptyString ;;;
     console_log "  ╔══════════════════════════════════════════════════════════════════╗" ;;;
     console_log ("  ║  🔑 " +:+ show_value (get result "apiKey") +:+ "  ║") ;;;
     console_log "  ╚══════════════════════════════════════════════════════════════════╝" ;;;
     console_log EmptyString ;;;
     console_log "  ⚠️  IMPORTANT: Save this key now! It will not be shown again." ;;;
     console_log EmptyString ;;;
     console_log "  Usage:" ;;;
     console_log ("    curl -H " +:+ dq +:+ "x-api-key: " +:+ show_value (get result "apiKey") +:+ dq +:+ " http://localhost:8080/v1/models") ;;;
     console_log EmptyString)%T.

Definition remove (answer : string) : T unit :=
  (keys <- lift listKeys ;;
   if (length keys =? 0)%nat then
     console_log (nl +:+ "No API keys to remove." +:+ nl)
   else
     displayKeys keys ;;;
     id <- question ("Enter the ID of the key to remove (or " +:+ dq +:+ "cancel" +:+ dq +:+ "): ") answer ;;
     if String.eqb (toLowerCase id) "cancel" then
       console_log (nl +:+ "Cancelled." +:+ nl)
     else
       success <- lift (removeKey id) ;;
       if success : bool then
         console_log (nl +:+ "✓ API Key removed successfully." +:+ nl)
       else
         console_log (nl +:+ "✗ Key not found." +:+ nl))%T.

Definition disable (answer : string) : T unit :=
  (all <- lift listKeys ;;
   let keys := List.filter (fun k : object => truthy (get k "enabled")) all in
   if (length keys =? 0)%nat then
     console_log (nl +:+ "No active API keys to disable." +:+ nl)
   else
     console_log (nl +:+ "Active API keys:" +:+ nl) ;;;
     for_each keys (fun key =>
       console_log ("  " +:+ show_value (get key "id") +:+ "  " +:+ show_value (get key "name"))) ;;;
     console_log EmptyString ;;;
     id <- question ("Enter the ID of the key to disable (or " +:+ dq +:+ "cancel" +:+ dq +:+ "): ") answer ;;
     if String.eqb (toLowerCase id) "cancel" then
       console_log (nl +:+ "Cancelled." +:+ nl)
     else
       success <- lift (disableKey id) ;;
       if success : bool then
         console_log (nl +:+ "✓ API Key disabled." +:+ nl)
       else
         console_log (nl +:+ "✗ Key not found." +:+ nl))%T.

Definition enable (answer : string) : T unit :=
  (all <- lift listKeys ;;
   let keys := List.filter (fun k : object => negb (truthy (get k "enabled"))) all in
   if (length keys =? 0)%nat then
     console_log (nl +:+ "No disabled API keys to enable." +:+ nl)
   else
     console_log (nl +:+ "Disabled API keys:" +:+ nl) ;;;
     for_each keys (fun key =>
       console_log ("  " +:+ show_value (get key "id") +:+ "  " +:+ show_value (get key "name"))) ;;;
     console_log EmptyString ;;;
     id <- question ("Enter the ID of the key to enable (or " +:+ dq +:+ "cancel" +:+ dq +:+ "): ") answer ;;
     if String.eqb (toLowerCase id) "cancel" then
       console_log (nl +:+ "Cancelled." +:+ nl)
     else
       success <- lift (enableKey id) ;;
       if success : bool then
         console_log (nl +:+ "✓ API Key enabled." +:+ nl)
       else
         console_log (nl +:+ "✗ Key not found." +:+ nl))%T.

Definition showHelp : T unit :=
  (console_log (nl +:+ "Usage:") ;;;
   console_log "  npm run api-keys:list     List all API keys" ;;;
   console_log "  npm run api-keys:add      Add a new API key" ;;;
   console_log "  npm run api-keys:remove   Remove an API key" ;;;
   console_log "  npm run api-keys:disable  Disable an API key" ;;;
   console_log "  npm run api-keys:enable   Enable a disabled API key" ;;;
   console_log EmptyString)%T.

Definition list : T unit :=
  (keys <- lift listKeys ;;
   displayKeys keys)%T.

(** [args[0] || 'list'], with [args = process.argv.slice(2)]. *)
Definition command_of (argv : Datatypes.list string) : string :=
  match drop 2 argv with
  | arg :: _ => if truthy (VStr arg) then arg else "list"
  | [] => "list"
  end.

(** The [switch] of [main]; [answer] is the line typed at the question, if
    one is asked. *)
Definition dispatch (command answer : string) : T unit :=
  if String.eqb command "list" then list
  else if String.eqb command "add" then add answer
  else if String.eqb command "remove" then remove answer
  else if String.eqb command "disable" then disable answer
  else if String.eqb command "enable" then enable answer
  else if String.eqb command "help" then showHelp
  else
    (console_log (nl +:+ "Unknown command: " +:+ command) ;;;
     showHelp)%T.

Definition main (argv : Datatypes.list string) (answer : string) : T unit :=
  (let command := command_of argv in
   console_log "╔════════════════════════════════════════╗" ;;;
   console_log "║     Antigravity API Key Manager        ║" ;;;
   console_log "╚════════════════════════════════════════╝" ;;;
   try_finally (dispatch command answer) (process_exit 0 : T unit))%T.

(** The last statement of the file: [main().catch(err => ...)]. *)
Definition program (argv : Datatypes.list string) (answer : string) : T unit :=
  catch (main argv answer)
        (fun err =>
           (lift (console_error "Error:" (failure_message err)) ;;;
            process_exit 1)%T).

End WithLibrary.
End Cli.

(** ** Programs that only print *)

(** [m] returns, leaves the world alone and adds [out] to the terminal. *)
Definition prints {A} (m : T A) (t : terminal) (a : A) (out : list output) : Prop :=
  m t = Done a (mkTerminal (sys t) (stdout t ++ out)).

(** [m] never ends the process. *)
Definition never_exits {A} (m : T A) : Prop :=
  forall t c t', m t <> Exited c t'.

(** ** Writes that fail *)

(** How an operation that started in [w] and threw on the failure [f] of its
    write leaves the world: nothing counts as written and the error is the
    last line on the console.  When the directory could not be made or the
    file could not be opened the document is the one from before; when the
    write stopped part-way the document does not parse any more, and the
    store reads as empty. *)
Definition write_lost (f : fault) (w w' : world) : Prop :=
  writes w' = writes w /\
  last (stderr w') = Some ("Error saving API keys: " +:+ fault_message f) /\
  (config_dir w = false \/ fault_damage f = Intact -> file w' = file w) /\
  (forall msg, config_dir w = true -> fault_damage f = Torn msg ->
               file w' = Garbled msg /\ records w' = []).

(** ** More sample worlds *)

(** The installation with one key on a disk that is full: the file is
    opened, and so emptied, before the write fails. *)
Definition full_disk_one_key : world :=
  mkWorld (file one_key_install) true
          (Some (mkFault "ENOSPC: no space left on device, write"
                         (Torn "Unexpected end of JSON input")))
          (writes one_key_install) [] sample_entropy (cursor one_key_install)
          "2026-01-02T00:00:00.000Z" ∅.

(** Stand-ins for the methods of the language where a closed example needs
    them: on the strings of the examples, trimming, lower-casing and padding
    are taken to change nothing, and a date is shown as it is stored. *)
Definition unchanged (s : string) : string := s.

Definition stored_date (v : value) : string := show_value v.

(** A terminal with nothing on it, in front of the installation with one key. *)
Definition one_key_terminal : terminal := mkTerminal one_key_install [].


(** ** The document as the code reads it *)

(** [loadKeys] hands out whatever [JSON.parse] returns: nothing in the
    module checks that the value is an object with an array under [keys].
    The definitions of this module follow [loadKeys], [saveKeys], [listKeys]
    and [addKey] on the parsed value itself, so that a file holding [{}],
    [null] or any other JSON text is a state like the others. *)
Module Raw.

#[local] Set Warnings "-register-all".

(** A value as [JSON.parse] returns it.  An object lists its properties in
    the order of the text, each name once.  Numbers are integers here; the
    code does not compute with them. *)
Inductive json :=
| JNull
| JBool (b : bool)
| JNum (n : Z)
| JStr (s : string)
| JArr (items : list json)
| JObj (fields : list (string * json)).

(** What is at [API_KEYS_PATH]: no file, a file on which [readFileSync] or
    [JSON.parse] throws (with the message of the error), or a file holding a
    JSON text. *)
Inductive content :=
| Missing
| Unparseable (message : string)
| Parsed (j : json).

(** The file, and the world around it: console, random source, clock,
    directory and disk.  The operations of this module read and write
    [at_path]; the [file] of [around] plays no part in them. *)
Record state := mkState {
  at_path : content;
  around : world
}.

(** A run ends with a value or with something thrown. *)
Inductive ending (A : Type) :=
| Returned (a : A) (s : state)
| Threw (f : failure) (s : state).
Arguments Returned {A} a s.
Arguments Threw {A} f s.

Definition R (A : Type) : Type := state -> ending A.

Definition rret {A} (a : A) : R A := fun s => Returned a s.

Definition rbind {A B} (m : R A) (k : A -> R B) : R B :=
  fun s => match m s with
           | Returned a s' => k a s'
           | Threw f s' => Threw f s'
           end.

Definition rthrow {A} (f : failure) : R A := fun s => Threw f s.

(** [try { m } catch (error) { h error }] *)
Definition rtry_catch {A} (m : R A) (h : failure -> R A) : R A :=
  fun s => match m s with
           | Returned a s' => Returned a s'
           | Threw f s' => h f s'
           end.

Declare Scope raw_scope.
Delimit Scope raw_scope with raw.
Notation "x <- m ;; k" := (rbind m (fun x => k))
  (at level 100, m at next level, right associativity) : raw_scope.
Notation "m ;;; k" := (rbind m (fun _ => k))
  (at level 100, right associativity) : raw_scope.

(** An operation of the world that does not look at the file. *)
Definition lift {A} (m : M A) : R A :=
  fun s => match m (around s) with
           | Ok a w => Returned a (mkState (at_path s) w)
           | Throw e w => Threw (Thrown e) (mkState (at_path s) w)
           end.

(** *** The file *)

Definition existsSync_keys : R bool :=
  fun s => Returned (match at_path s with Missing => false | _ => true end) s.

(** [JSON.parse(readFileSync(API_KEYS_PATH, 'utf-8'))] *)
Definition read_and_parse : R json :=
  fun s => match at_path s with
           | Missing => Threw (Thrown (IOError "ENOENT: no such file or directory")) s
           | Unparseable msg => Threw (Thrown (IOError msg)) s
           | Parsed j => Returned j s
           end.

(** What a [writeFileSync] of the text of [j] that threw leaves at the path. *)
Definition left_behind (f : fault) (j : json) (c : content) : content :=
  match fault_damage f with
  | Intact => c
  | Torn msg => Unparseable msg
  | Complete => Parsed j
  end.

(** [writeFileSync(API_KEYS_PATH, JSON.stringify(data, null, 2))]: a later
    read parses the text back to [data]. *)
Definition writeFileSync (data : json) : R unit :=
  fun s => match disk_fault (around s) with
           | Some f =>
               Threw (Thrown (IOError (fault_message f)))
                     (mkState (left_behind f data (at_path s)) (around s))
           | None =>
               Returned tt (mkState (Parsed data) (set_file (file (around s)) (around s)))
           end.

(** *** Property reads *)

(** What a property read gives: [undefined], a method of a prototype, or a
    value of the document. *)
Inductive looked_up :=
| Undefined
| Method
| Value (j : json).

(** The own property [p] of an object. *)
Fixpoint own (p : string) (fields : list (string * json)) : option json :=
  match fields with
  | [] => None
  | (q, j) :: rest => if String.eqb q p then Some j else own p rest
  end.

(** The assignment of an own property that is there. *)
Fixpoint set_own (p : string) (j : json) (fields : list (string * json))
  : list (string * json) :=
  match fields with
  | [] => []
  | (q, old) :: rest =>
      if String.eqb q p then (q, j) :: rest else (q, old) :: set_own p j rest
  end.

(** [k.p] for the names the code reads off a record, [id], [name],
    [keyPrefix], [enabled] and [createdAt], and for [keys] off anything but
    an array: no prototype has a property of these names, so the read gives
    the own property of an object, and [undefined] off a value that has none.
    Reading off [null] throws ([None]). *)
Definition member (k : json) (p : string) : option looked_up :=
  match k with
  | JNull => None
  | JObj fields =>
      Some (match own p fields with Some j => Value j | None => Undefined end)
  | JBool _ | JNum _ | JStr _ | JArr _ => Some Undefined
  end.

(** [data.keys]: off an array the read gives [Array.prototype.keys]. *)
Definition keys_of (data : json) : option looked_up :=
  match data with
  | JArr _ => Some Method
  | _ => member data "keys"
  end.

(** The array on which [data.keys.method(...)] runs, for [method] one of
    [map] and [push], which only arrays have.  Everything else ends in a
    TypeError, with the text V8 gives it. *)
Definition keys_array (data : json) (method : string) : R (list json) :=
  match keys_of data with
  | None => rthrow (TypeError "Cannot read properties of null (reading 'keys')")
  | Some Undefined =>
      rthrow (TypeError ("Cannot read properties of undefined (reading '"
                           +:+ method +:+ "')"))
  | Some (Value JNull) =>
      rthrow (TypeError ("Cannot read properties of null (reading '" +:+ method +:+ "')"))
  | Some (Value (JArr items)) => rret items
  | Some Method | Some (Value _) =>
      rthrow (TypeError ("data.keys." +:+ method +:+ " is not a function"))
  end.

(** A value of the document as a value of the language. *)
Definition to_value (v : looked_up) : value :=
  match v with
  | Undefined => VUndefined
  | Method => VOther
  | Value JNull => VNull
  | Value (JBool b) => VBool b
  | Value (JNum n) => VNum n
  | Value (JStr s) => VStr s
  | Value (JArr _) | Value (JObj _) => VOther
  end.

(** [k.p] inside the callback of [listKeys]. *)
Definition read (k : json) (p : string) : R value :=
  match member k p with
  | Some v => rret (to_value v)
  | None =>
      rthrow (TypeError ("Cannot read properties of null (reading '" +:+ p +:+ "')"))
  end.

(** [items.map(f)], where [f] may throw. *)
Fixpoint map_each {A B} (f : A -> R B) (items : list A) : R (list B) :=
  match items with
  | [] => rret []
  | x :: rest =>
      rbind (f x) (fun y => rbind (map_each f rest) (fun ys => rret (y :: ys)))
  end.

(** The record [addKey] builds, as the value that [JSON.stringify] spells
    and [JSON.parse] gives back. *)
Definition encode (k : KeyInfo.t) : json :=
  JObj [("id", JStr (KeyInfo.id k));
        ("name", JStr (KeyInfo.name k));
        ("keyHash", JStr (KeyInfo.keyHash k));
        ("keyPrefix", JStr (KeyInfo.keyPrefix k));
        ("createdAt", JStr (KeyInfo.createdAt k));
        ("enabled", JBool (KeyInfo.enabled k))].

(** The literal [{ keys: [] }]. *)
Definition empty_store : json := JObj [("keys", JArr [])].

(** *** The key manager on the parsed value *)

Local Open Scope raw_scope.

Definition loadKeys : R json :=
  present <- existsSync_keys ;;
  if negb present then rret empty_store
  else
    rtry_catch read_and_parse
      (fun error =>
         lift (console_error "Error loading API keys:" (failure_message error)) ;;;
         rret empty_store).

Definition saveKeys (data : json) : R unit :=
  rtry_catch
    (dir <- lift existsSync_dir ;;
     (if negb dir then lift mkdirSync else rret tt) ;;;
     writeFileSync data)
    (fun error =>
       lift (console_error "Error saving API keys:" (failure_message error)) ;;;
       rthrow error).

(** [data.keys.push(keyInfo)]: the array under [keys] grows in place, so
    [data] is the same object with the longer array. *)
Definition push (data : json) (keyInfo : json) : R json :=
  items <- keys_array data "push" ;;
  match data with
  | JObj fields => rret (JObj (set_own "keys" (JArr (items ++ [keyInfo])) fields))
  | _ => rret data
  end.

Definition listKeys : R (list object) :=
  data <- loadKeys ;;
  items <- keys_array data "map" ;;
  map_each
    (fun k =>
       id <- read k "id" ;;
       name <- read k "name" ;;
       keyPrefix <- read k "keyPrefix" ;;
       enabled <- read k "enabled" ;;
       createdAt <- read k "createdAt" ;;
       rret ({[ "id" := id;
                "name" := name;
                "keyPrefix" := keyPrefix;
                "enabled" := enabled;
                "createdAt" := createdAt ]} : object))
    items.

Section WithDigest.

Variable sha256_hex : string -> string.

Definition addKey (name : string) : R object :=
  apiKey <- lift generateApiKey ;;
  let keyHash := hashKey sha256_hex apiKey in
  let keyPrefix := substring0 apiKey 12 +:+ "..." in
  id <- lift generateKeyId ;;
  data <- loadKeys ;;
  createdAt <- lift now_iso ;;
  let keyInfo := KeyInfo.make id name keyHash keyPrefix createdAt true in
  data <- push data (encode keyInfo) ;;
  saveKeys data ;;;
  rret (<["apiKey" := VStr apiKey]> (KeyInfo.to_object keyInfo)).

End WithDigest.

(** *** The store inside *)

(** The file that holds a state of the store. *)
Definition written (d : document) : content :=
  match d with
  | Absent => Missing
  | Garbled msg => Unparseable msg
  | Stored data => Parsed (JObj [("keys", JArr (map encode (keys data)))])
  end.

(** A state whose file holds the store of the world [w]. *)
Definition holds (s : state) (w : world) : Prop :=
  at_path s = written (file w) /\ leave (file w) (around s) = w.

(** The two runs end the same way: with the same value or the same error,
    in states of which one holds the other. *)
Definition agree {A} (r : ending A) (m : result A) : Prop :=
  match r, m with
  | Returned a s, Ok b w => a = b /\ holds s w
  | Threw (Thrown e) s, Throw e' w => e = e' /\ holds s w
  | _, _ => False
  end.

(** *** Sample states *)

(** The document was overwritten with text that is not JSON. *)
Definition unparseable_install : state :=
  mkState (Unparseable "Unexpected token o in JSON at position 1") garbled_install.

(** The document was overwritten with the text [{}]. *)
Definition emptied_install : state :=
  mkState (Parsed (JObj [])) garbled_install.

End Raw.
(** ** Strings *)

Lemma append_cons (a : ascii) (s1 s2 : string) :
  String a s1 +:+ s2 = String a (s1 +:+ s2).
Proof. reflexivity. Qed.

Lemma append_empty_l (s : string) : "" +:+ s = s.
Proof. reflexivity. Qed.

Lemma append_assoc (s1 s2 s3 : string) : (s1 +:+ s2) +:+ s3 = s1 +:+ (s2 +:+ s3).
Proof. induction s1 as [|a s1 IH]; [done|]. rewrite !append_cons. by f_equal. Qed.

Lemma append_empty_r (s : string) : s +:+ "" = s.
Proof. induction s as [|a s IH]; [done|]. rewrite append_cons. by f_equal. Qed.

Lemma length_append (s1 s2 : string) :
  String.length (s1 +:+ s2) = String.length s1 + String.length s2.
Proof. induction s1 as [|a s1 IH]; [done|]. rewrite append_cons. simpl. by f_equal. Qed.

Lemma chars_of_append (s1 s2 : string) :
  String.list_ascii_of_string (s1 +:+ s2)
  = String.list_ascii_of_string s1 ++ String.list_ascii_of_string s2.
Proof. induction s1 as [|a s1 IH]; [done|]. rewrite append_cons. simpl. by f_equal. Qed.

(** [s.substring(0, n)] is a prefix of [s]; what follows it has the
    remaining length. *)
Lemma substring0_split (s : string) (n : nat) :
  exists rest, s = substring0 s n +:+ rest /\ String.length rest = String.length s - n.
Proof.
  unfold substring0. revert s. induction n as [|n IH]; intros s.
  - exists s. destruct s; simpl; split; done.
  - destruct s as [|a s]; [by exists ""|].
    destruct (IH s) as (rest & Hs & Hlen). exists rest. simpl. rewrite append_cons.
    split; [by f_equal|done].
Qed.

Lemma substring_of_append (s rest : string) :
  String.substring (String.length s) (String.length rest) (s +:+ rest) = rest.
Proof.
  induction s as [|a s IH]; simpl.
  - change ("" +:+ rest) with rest. induction rest as [|b rest IH]; simpl; [done|by f_equal].
  - exact IH.
Qed.

Lemma prefix_iff (p s : string) :
  String.prefix p s = true <-> exists rest, s = p +:+ rest.
Proof.
  revert s. induction p as [|a p IH]; intros s.
  - split; [by exists s|]. by destruct s.
  - destruct s as [|b s]; simpl.
    + split; [done|]. by intros (rest & ?).
    + destruct (ascii_dec a b) as [->|Hab].
      * rewrite IH. split; intros (rest & Hrest); exists rest.
        -- by rewrite append_cons, Hrest.
        -- rewrite append_cons in Hrest. by simplify_eq.
      * split; [done|]. intros (rest & Hrest). rewrite append_cons in Hrest. by simplify_eq.
Qed.

Lemma starts_with_key_prefix (rest : string) :
  startsWith (KEY_PREFIX +:+ rest) KEY_PREFIX = true.
Proof. apply prefix_iff. by exists rest. Qed.

(** ** Basic facts *)

Lemma loadKeys_run (w : world) : loadKeys w = Ok (current (file w)) (after_load w).
Proof.
  unfold loadKeys, bind, existsSync_keys, try_catch, read_and_parse, after_load.
  destruct (file w) as [|msg|data] eqn:Hfile; simpl; rewrite ?Hfile; reflexivity.
Qed.

Lemma after_load_untouched (w : world) : untouched w (after_load w).
Proof. unfold untouched, after_load. destruct (file w) eqn:Hfile; rewrite <- ?Hfile; done. Qed.

Lemma after_load_file (w : world) : file (after_load w) = file w.
Proof. apply after_load_untouched. Qed.

Lemma after_load_env (w : world) : env (after_load w) = env w.
Proof. unfold after_load. destruct (file w); done. Qed.

Lemma after_load_clock (w : world) : clock (after_load w) = clock w.
Proof. unfold after_load. destruct (file w); done. Qed.

Lemma untouched_refl (w : world) : untouched w w.
Proof. done. Qed.

Lemma untouched_trans (w1 w2 w3 : world) :
  untouched w1 w2 -> untouched w2 w3 -> untouched w1 w3.
Proof. unfold untouched. intros (-> & -> & ->) (-> & -> & ->). done. Qed.

Lemma saveKeys_run (data : Data) (w : world) :
  disk_fault w = None -> saveKeys data w = Ok tt (saved data w).
Proof.
  intros Hdisk.
  unfold saveKeys, try_catch, bind, existsSync_dir, mkdirSync, writeFileSync, saved, ret.
  destruct (config_dir w) eqn:Hdir; simpl; rewrite Hdisk; simpl; rewrite ?Hdisk; reflexivity.
Qed.

Lemma saved_file (data : Data) (w : world) : file (saved data w) = Stored data.
Proof. reflexivity. Qed.

Lemma saved_writes (data : Data) (w : world) : writes (saved data w) = S (writes w).
Proof. unfold saved. destruct (config_dir w); reflexivity. Qed.

(** A failing disk makes [saveKeys] throw the error of the disk, after one
    line on the console. *)
Lemma saveKeys_fault (data : Data) (w : world) (f : fault) :
  disk_fault w = Some f ->
  saveKeys data w = Throw (IOError (fault_message f)) (failed_save f data w).
Proof.
  intros Hdisk.
  unfold saveKeys, try_catch, bind, existsSync_dir, mkdirSync, writeFileSync, ret,
    failed_save.
  destruct (config_dir w) eqn:Hdir; simpl; rewrite Hdisk; reflexivity.
Qed.

Lemma failed_save_writes (f : fault) (data : Data) (w : world) :
  writes (failed_save f data w) = writes w.
Proof.
  unfold failed_save, after_fault.
  destruct (config_dir w), (fault_damage f); reflexivity.
Qed.

Lemma failed_save_log (f : fault) (data : Data) (w : world) :
  last (stderr (failed_save f data w))
  = Some ("Error saving API keys: " +:+ fault_message f).
Proof. unfold failed_save. simpl. apply last_snoc. Qed.

Lemma failed_save_intact (f : fault) (data : Data) (w : world) :
  config_dir w = false \/ fault_damage f = Intact ->
  file (failed_save f data w) = file w.
Proof.
  unfold failed_save, after_fault. intros [Hdir|Hdamage].
  - by rewrite Hdir.
  - rewrite Hdamage. by destruct (config_dir w).
Qed.

Lemma failed_save_torn (f : fault) (data : Data) (w : world) (msg : string) :
  config_dir w = true -> fault_damage f = Torn msg ->
  file (failed_save f data w) = Garbled msg.
Proof. unfold failed_save, after_fault. by intros -> ->. Qed.

Lemma failed_save_complete (f : fault) (data : Data) (w : world) :
  config_dir w = true -> fault_damage f = Complete ->
  file (failed_save f data w) = Stored data.
Proof. unfold failed_save, after_fault. by intros -> ->. Qed.

Lemma after_load_dir (w : world) : config_dir (after_load w) = config_dir w.
Proof. unfold after_load. by destruct (file w). Qed.

Lemma filter_keeps_all {A} (p : A -> bool) (l : list A) :
  (forall x, x ∈ l -> p x = true) -> List.filter p l = l.
Proof.
  induction l as [|x l IH]; intros Hall; simpl; [done|].
  rewrite (Hall x) by left. f_equal. apply IH. intros y Hy. apply Hall. by right.
Qed.

Lemma find_unknown_id (id : string) (ks : list KeyInfo.t) :
  (forall k, k ∈ ks -> KeyInfo.id k <> id) ->
  list_find (fun k => KeyInfo.id k = id) ks = None.
Proof.
  intros Hall. apply list_find_None, Forall_forall. exact Hall.
Qed.

(** [find] splits the array around the first record with the wanted id. *)
Lemma find_known_id (id : string) (ks : list KeyInfo.t) :
  (exists k, k ∈ ks /\ KeyInfo.id k = id) ->
  exists i key pre post,
    list_find (fun k => KeyInfo.id k = id) ks = Some (i, key) /\
    ks = pre ++ key :: post /\ length pre = i /\ KeyInfo.id key = id /\
    (forall k, k ∈ pre -> KeyInfo.id k <> id).
Proof.
  intros (k & Hin & Hid).
  destruct (list_find_elem_of (fun k => KeyInfo.id k = id) ks k Hin Hid) as [[i key] Hfind].
  pose proof Hfind as (Hi & Hkey & Hleast)%list_find_Some.
  exists i, key, (take i ks), (drop (S i) ks). split_and!; [done| | |done|].
  - by rewrite take_drop_middle.
  - apply length_take_le. apply lookup_lt_Some in Hi. lia.
  - intros x (j & Hj)%list_elem_of_lookup Hx.
    apply lookup_take_Some in Hj as [Hj Hlt]. exact (Hleast j x Hj Hlt Hx).
Qed.

Lemma insert_at_split {A} (pre post : list A) (x y : A) :
  <[length pre := y]> (pre ++ x :: post) = pre ++ y :: post.
Proof.
  rewrite insert_app_r_alt by lia. by rewrite Nat.sub_diag.
Qed.

(** ** Operations addressed by id *)

Lemma removeKey_unknown (id : string) (w : world) :
  (forall k, k ∈ records w -> KeyInfo.id k <> id) ->
  removeKey id w = Ok false (after_load w).
Proof.
  intros Hnone. unfold removeKey, bind. rewrite loadKeys_run. cbn beta iota zeta.
  rewrite filter_keeps_all.
  - simpl. by rewrite Nat.ltb_irrefl.
  - intros k Hk. apply negb_true_iff, String.eqb_neq. by apply Hnone.
Qed.

Lemma toggle_unknown (id : string) (w : world) :
  (forall k, k ∈ records w -> KeyInfo.id k <> id) ->
  enableKey id w = Ok false (after_load w) /\
  disableKey id w = Ok false (after_load w).
Proof.
  intros Hnone. unfold enableKey, disableKey, bind. rewrite loadKeys_run.
  cbn beta iota zeta. fold (records w).
  by rewrite (find_unknown_id id (records w) Hnone).
Qed.

(** C8: for an id that no record of the store carries, [removeKey],
    [enableKey] and [disableKey] each return [false] without throwing; the
    backing document is not written and its records stay as they were. *)
Theorem unknown_id_is_reported_and_nothing_changes (id : string) (w : world) :
  (forall k, k ∈ records w -> KeyInfo.id k <> id) ->
  (exists w', removeKey id w = Ok false w' /\
              file w' = file w /\ writes w' = writes w /\ records w' = records w) /\
  (exists w', enableKey id w = Ok false w' /\
              file w' = file w /\ writes w' = writes w /\ records w' = records w) /\
  (exists w', disableKey id w = Ok false w' /\
              file w' = file w /\ writes w' = writes w /\ records w' = records w).
Proof.
  intros Hnone.
  destruct (toggle_unknown id w Hnone) as [Hen Hdis].
  pose proof (removeKey_unknown id w Hnone) as Hrem.
  pose proof (after_load_untouched w) as (Hfile & Hwrites & _).
  assert (records (after_load w) = records w) as Hrecords.
  { unfold records. by rewrite Hfile. }
  split_and!; exists (after_load w); done.
Qed.

Lemma toggle_known (b : bool) (id : string) (w : world) i key :
  disk_fault w = None ->
  list_find (fun k => KeyInfo.id k = id) (records w) = Some (i, key) ->
  (if b then enableKey else disableKey) id w
  = Ok true (saved (assign_enabled (current (file w)) i key b) (after_load w)).
Proof.
  intros Hdisk Hfind.
  assert (disk_fault (after_load w) = None) as Hdisk'.
  { destruct (after_load_untouched w) as (_ & _ & ->). done. }
  destruct b; unfold enableKey, disableKey, bind; rewrite loadKeys_run;
    cbn beta iota zeta; fold (records w); rewrite Hfind;
    rewrite saveKeys_run by done; reflexivity.
Qed.

(** C10: when some record carries the id, [enableKey] and [disableKey]
    return [true] and persist the store with the first such record changed in
    its [enabled] field only: its id, name, hash, prefix and creation time,
    all other records and the order of the records are as before. *)
Theorem enable_disable_change_only_enabled (id : string) (w : world) :
  disk_fault w = None ->
  (exists k, k ∈ records w /\ KeyInfo.id k = id) ->
  exists pre key post,
    records w = pre ++ key :: post /\
    KeyInfo.id key = id /\
    (forall k, k ∈ pre -> KeyInfo.id k <> id) /\
    forall b : bool, exists key' w',
      (if b then enableKey else disableKey) id w = Ok true w' /\
      file w' = Stored (mkData (pre ++ key' :: post)) /\
      KeyInfo.enabled key' = b /\
      KeyInfo.id key' = KeyInfo.id key /\
      KeyInfo.name key' = KeyInfo.name key /\
      KeyInfo.keyHash key' = KeyInfo.keyHash key /\
      KeyInfo.keyPrefix key' = KeyInfo.keyPrefix key /\
      KeyInfo.createdAt key' = KeyInfo.createdAt key.
Proof.
  intros Hdisk Hknown.
  destruct (find_known_id id (records w) Hknown)
    as (i & key & pre & post & Hfind & Hsplit & Hlen & Hid & Hpre).
  exists pre, key, post. split_and!; [done..|].
  intros b. exists (KeyInfo.set_enabled b key). eexists.
  split; [exact (toggle_known b id w i key Hdisk Hfind)|].
  split_and!; try reflexivity.
  rewrite saved_file. unfold assign_enabled. fold (records w).
  by rewrite Hsplit, <- Hlen, insert_at_split.
Qed.

(** ** The objects handed out *)

Lemma validated_fields (key : KeyInfo.t) :
  dom (validated key) = {[ "id"; "name"; "enabled"; "createdAt" ]} /\
  validated key !! "keyHash" = None /\
  get (validated key) "id" = VStr (KeyInfo.id key) /\
  get (validated key) "name" = VStr (KeyInfo.name key) /\
  get (validated key) "enabled" = VBool (KeyInfo.enabled key) /\
  get (validated key) "createdAt" = VStr (KeyInfo.createdAt key).
Proof. split_and!; reflexivity. Qed.

Lemma listed_fields (k : KeyInfo.t) :
  dom (listed k) = {[ "id"; "name"; "keyPrefix"; "enabled"; "createdAt" ]} /\
  listed k !! "keyHash" = None /\
  get (listed k) "id" = VStr (KeyInfo.id k) /\
  get (listed k) "name" = VStr (KeyInfo.name k) /\
  get (listed k) "keyPrefix" = VStr (KeyInfo.keyPrefix k) /\
  get (listed k) "enabled" = VBool (KeyInfo.enabled k) /\
  get (listed k) "createdAt" = VStr (KeyInfo.createdAt k).
Proof. split_and!; reflexivity. Qed.

(** ** Validation *)

Lemma validateKey_not_string (sha : string -> string) (v : value) (w : world) :
  (forall s, v <> VStr s) -> validateKey sha v w = Ok None w.
Proof.
  intros Hv. unfold validateKey.
  destruct v as [| |b|n|s|]; try (by destruct (Hv s)); simpl;
    rewrite ?orb_true_r; reflexivity.
Qed.

Lemma startsWith_prefix_nonempty (s : string) :
  startsWith s KEY_PREFIX = true -> String.eqb s "" = false.
Proof. by destruct s. Qed.

Lemma validateKey_bad_prefix (sha : string -> string) (s : string) (w : world) :
  startsWith s KEY_PREFIX = false -> validateKey sha (VStr s) w = Ok None w.
Proof.
  intros Hs. unfold validateKey. simpl. rewrite Hs. simpl.
  by destruct (String.eqb s "").
Qed.

Lemma validateKey_lookup (sha : string -> string) (s : string) (w : world) :
  startsWith s KEY_PREFIX = true ->
  validateKey sha (VStr s) w
  = Ok (validated <$> (snd <$> list_find (fun k => KeyInfo.keyHash k = hashKey sha s) (records w)))
       (after_load w).
Proof.
  intros Hs. unfold validateKey. simpl.
  rewrite (startsWith_prefix_nonempty s Hs), Hs. simpl.
  unfold bind. rewrite loadKeys_run. fold (records w).
  by destruct (list_find _ (records w)) as [[i key]|].
Qed.

Lemma validateKey_unknown (sha : string -> string) (s : string) (w : world) :
  (forall k, k ∈ records w -> KeyInfo.keyHash k <> hashKey sha s) ->
  exists w', validateKey sha (VStr s) w = Ok None w' /\ untouched w w'.
Proof.
  intros Hnone. destruct (startsWith s KEY_PREFIX) eqn:Hs.
  - exists (after_load w). split; [|apply after_load_untouched].
    rewrite validateKey_lookup by done.
    assert (list_find (fun k => KeyInfo.keyHash k = hashKey sha s) (records w) = None) as ->.
    { apply list_find_None, Forall_forall. exact Hnone. }
    reflexivity.
  - exists w. split; [by apply validateKey_bad_prefix | apply untouched_refl].
Qed.

(** [find] by hash splits the array around the first record with that hash. *)
Lemma find_known_hash (h : string) (ks : list KeyInfo.t) :
  (exists k, k ∈ ks /\ KeyInfo.keyHash k = h) ->
  exists i key pre post,
    list_find (fun k => KeyInfo.keyHash k = h) ks = Some (i, key) /\
    ks = pre ++ key :: post /\ KeyInfo.keyHash key = h /\
    (forall k, k ∈ pre -> KeyInfo.keyHash k <> h).
Proof.
  intros (k & Hin & Hk).
  destruct (list_find_elem_of (fun k => KeyInfo.keyHash k = h) ks k Hin Hk) as [[i key] Hfind].
  pose proof Hfind as (Hi & Hkey & Hleast)%list_find_Some.
  exists i, key, (take i ks), (drop (S i) ks). split_and!; [done| |done|].
  - by rewrite take_drop_middle.
  - intros x (j & Hj)%list_elem_of_lookup Hx.
    apply lookup_take_Some in Hj as [Hj Hlt]. exact (Hleast j x Hj Hlt Hx).
Qed.

(** C2: [validateKey] returns [null] for every input that is not a string
    ([null] included), for every string that does not start with the key
    prefix, and for every input whose hash no stored record carries; in each
    of the three cases the result is the same [null] and the document is left
    alone.  For a string with the prefix whose hash some record carries, it
    returns the object built from the first such record, whose properties are
    exactly id, name, enabled and createdAt (no hash), with the record's
    [enabled] value whatever it is. *)
Theorem validateKey_fails_closed_and_hides_the_hash
    (sha : string -> string) (w : world) :
  (forall v, (forall s, v <> VStr s) -> validateKey sha v w = Ok None w) /\
  (forall s, startsWith s KEY_PREFIX = false -> validateKey sha (VStr s) w = Ok None w) /\
  (forall s, (forall k, k ∈ records w -> KeyInfo.keyHash k <> hashKey sha s) ->
     exists w', validateKey sha (VStr s) w = Ok None w' /\ untouched w w') /\
  (forall s, startsWith s KEY_PREFIX = true ->
     (exists k, k ∈ records w /\ KeyInfo.keyHash k = hashKey sha s) ->
     exists pre key post info w',
       records w = pre ++ key :: post /\
       KeyInfo.keyHash key = hashKey sha s /\
       (forall k, k ∈ pre -> KeyInfo.keyHash k <> hashKey sha s) /\
       validateKey sha (VStr s) w = Ok (Some info) w' /\ untouched w w' /\
       dom info = {[ "id"; "name"; "enabled"; "createdAt" ]} /\
       info !! "keyHash" = None /\
       info !! "id" = Some (VStr (KeyInfo.id key)) /\
       info !! "name" = Some (VStr (KeyInfo.name key)) /\
       info !! "enabled" = Some (VBool (KeyInfo.enabled key)) /\
       info !! "createdAt" = Some (VStr (KeyInfo.createdAt key))).
Proof.
  split_and!.
  - intros v Hv. by apply validateKey_not_string.
  - intros s Hs. by apply validateKey_bad_prefix.
  - intros s Hs. by apply validateKey_unknown.
  - intros s Hs Hknown.
    destruct (find_known_hash _ _ Hknown) as (i & key & pre & post & Hfind & Hsplit & Hkey & Hpre).
    exists pre, key, post, (validated key), (after_load w).
    split_and!; try done; try apply after_load_untouched.
    rewrite validateKey_lookup by done. by rewrite Hfind.
Qed.

(** ** Adding a key *)

Lemma generateApiKey_run (w : world) :
  generateApiKey w = Ok (drawn_key w) (advance KEY_RANDOM_LENGTH w).
Proof. reflexivity. Qed.

Lemma generateKeyId_run (w : world) :
  generateKeyId (advance KEY_RANDOM_LENGTH w)
  = Ok (drawn_id w) (advance 8 (advance KEY_RANDOM_LENGTH w)).
Proof. reflexivity. Qed.

Lemma addKey_run (sha : string -> string) (name : string) (w : world) :
  disk_fault w = None ->
  addKey sha name w
  = Ok (<["apiKey" := VStr (drawn_key w)]> (KeyInfo.to_object (new_record sha name w)))
       (after_addKey sha name w).
Proof.
  intros Hdisk. unfold addKey, bind.
  rewrite generateApiKey_run, generateKeyId_run, loadKeys_run.
  unfold now_iso. rewrite after_load_clock.
  rewrite saveKeys_run; [reflexivity|].
  by destruct (after_load_untouched (advance 8 (advance KEY_RANDOM_LENGTH w))) as (_ & _ & ->).
Qed.

Lemma after_addKey_records (sha : string -> string) (name : string) (w : world) :
  records (after_addKey sha name w) = records w ++ [new_record sha name w].
Proof. reflexivity. Qed.

Lemma after_addKey_disk (sha : string -> string) (name : string) (w : world) :
  disk_fault (after_addKey sha name w) = disk_fault w.
Proof.
  unfold after_addKey, saved.
  destruct (after_load_untouched (advance 8 (advance KEY_RANDOM_LENGTH w))) as (_ & _ & Hd).
  by destruct (config_dir _); simpl; rewrite Hd.
Qed.

Lemma drawn_key_has_prefix (w : world) : startsWith (drawn_key w) KEY_PREFIX = true.
Proof. apply starts_with_key_prefix. Qed.

(** C3, as the code has it: [addKey] checks nothing about the name.  For
    every name, blank or not, and a document that can be written, it draws a
    secret and an id, computes hash and prefix, appends the new record after
    the records read, writes the whole store once, and returns the record
    together with the raw secret. *)
Theorem addKey_accepts_every_name (sha : string -> string) (name : string) (w : world) :
  disk_fault w = None ->
  exists apiKey id record w',
    value_of (generateApiKey w) = Some apiKey /\
    value_of (generateKeyId (world_of (generateApiKey w))) = Some id /\
    record = KeyInfo.make id name (hashKey sha apiKey)
                          (substring0 apiKey 12 +:+ "...") (clock w) true /\
    addKey sha name w = Ok (<["apiKey" := VStr apiKey]> (KeyInfo.to_object record)) w' /\
    file w' = Stored (mkData (records w ++ [record])) /\
    writes w' = S (writes w).
Proof.
  intros Hdisk.
  exists (drawn_key w), (drawn_id w), (new_record sha name w), (after_addKey sha name w).
  split_and!; try reflexivity.
  - by apply addKey_run.
  - unfold after_addKey. rewrite saved_writes.
    by destruct (after_load_untouched (advance 8 (advance KEY_RANDOM_LENGTH w))) as (_ & -> & _).
Qed.

(** Where a record with the wanted hash is appended, [find] succeeds; it
    returns the appended record unless an earlier one has the same hash. *)
Lemma find_appended (h : string) (ks : list KeyInfo.t) (r : KeyInfo.t) :
  KeyInfo.keyHash r = h ->
  exists i key,
    list_find (fun k => KeyInfo.keyHash k = h) (ks ++ [r]) = Some (i, key) /\
    ((forall k, k ∈ ks -> KeyInfo.keyHash k <> h) -> key = r).
Proof.
  intros Hr.
  destruct (list_find_elem_of (fun k => KeyInfo.keyHash k = h) (ks ++ [r]) r)
    as [[i key] Hfind]; [set_solver|done|].
  exists i, key. split; [done|]. intros Hfresh.
  apply list_find_Some in Hfind as (Hi & Hkey & _).
  apply list_elem_of_lookup_2 in Hi. apply elem_of_app in Hi as [Hi|Hi].
  - by destruct (Hfresh key Hi).
  - by apply list_elem_of_singleton in Hi.
Qed.

(** C4: the record that [addKey] returns carries the hash of the raw key it
    returns, and [validateKey] on that raw key then returns a record; when no
    earlier record of the store has that hash (the secret is new), the record
    returned is the one just added, with [enabled] true. *)
Theorem addKey_then_validateKey (sha : string -> string) (name : string) (w : world) :
  disk_fault w = None ->
  exists out w1 apiKey,
    addKey sha name w = Ok out w1 /\
    out !! "apiKey" = Some (VStr apiKey) /\
    out !! "keyHash" = Some (VStr (hashKey sha apiKey)) /\
    exists info w2,
      validateKey sha (VStr apiKey) w1 = Ok (Some info) w2 /\
      ((forall k, k ∈ records w -> KeyInfo.keyHash k <> hashKey sha apiKey) ->
       info !! "enabled" = Some (VBool true) /\ info !! "id" = out !! "id").
Proof.
  intros Hdisk. eexists _, _, (drawn_key w).
  split; [by apply addKey_run|]. split; [reflexivity|]. split; [reflexivity|].
  destruct (find_appended (hashKey sha (drawn_key w)) (records w) (new_record sha name w) eq_refl)
    as (i & key & Hfind & Hfresh).
  exists (validated key), (after_load (after_addKey sha name w)). split.
  - rewrite validateKey_lookup by apply drawn_key_has_prefix.
    by rewrite after_addKey_records, Hfind.
  - intros Hnew. rewrite (Hfresh Hnew). split; reflexivity.
Qed.

(** ** Generating a key *)

Lemma fold_append {A} (f : A -> string) (l : list A) (init : string) :
  fold_left (fun acc i => acc +:+ f i) l init
  = init +:+ fold_right (fun i r => f i +:+ r) "" l.
Proof.
  revert init. induction l as [|x l IH]; intros init; simpl.
  - by rewrite append_empty_r.
  - by rewrite IH, append_assoc.
Qed.

Lemma alphabet_get (m : nat) :
  m < 62 -> exists c, String.get m chars = Some c /\ in_alphabet c = true.
Proof.
  intros Hm.
  do 62 (destruct m as [|m]; [eexists; split; reflexivity|]).
  lia.
Qed.

Lemma pick_in_range (e : nat -> Byte.byte) (c i : nat) :
  i < KEY_RANDOM_LENGTH ->
  exists a, pick (map e (seq c KEY_RANDOM_LENGTH)) i = String a "" /\ in_alphabet a = true.
Proof.
  intros Hi. unfold pick.
  assert (map e (seq c KEY_RANDOM_LENGTH) !! i = Some (e (c + i))) as ->.
  { by rewrite list_lookup_fmap, lookup_seq_lt. }
  destruct (alphabet_get (N.to_nat (Byte.to_N (e (c + i))) mod 62)) as (a & Hget & Ha).
  { by apply Nat.mod_upper_bound. }
  change (String.length chars) with 62. rewrite Hget. eauto.
Qed.

Lemma picks_form (e : nat -> Byte.byte) (c : nat) (l : list nat) :
  Forall (fun i => i < KEY_RANDOM_LENGTH) l ->
  let r := fold_right (fun i r => pick (map e (seq c KEY_RANDOM_LENGTH)) i +:+ r) "" l in
  String.length r = length l /\ forallb in_alphabet (String.list_ascii_of_string r) = true.
Proof.
  intros Hall. cbv zeta. induction Hall as [|i l Hi _ [IHlen IHall]]; [done|].
  cbn [fold_right length].
  destruct (pick_in_range e c i Hi) as (a & -> & Ha).
  rewrite append_cons, append_empty_l.
  cbn [String.length String.list_ascii_of_string forallb].
  by rewrite Ha, IHlen, IHall.
Qed.

Lemma randomPart_form (e : nat -> Byte.byte) (c : nat) :
  String.length (randomPart (map e (seq c KEY_RANDOM_LENGTH))) = KEY_RANDOM_LENGTH /\
  forallb in_alphabet
    (String.list_ascii_of_string (randomPart (map e (seq c KEY_RANDOM_LENGTH)))) = true.
Proof.
  unfold randomPart. rewrite fold_append, append_empty_l.
  destruct (picks_form e c (seq 0 KEY_RANDOM_LENGTH)) as [Hlen Hall].
  { apply Forall_forall. intros i Hi%elem_of_seq. lia. }
  split; [|exact Hall]. by rewrite Hlen, length_seq.
Qed.

Lemma generated_format_intro (r : string) :
  String.length r = KEY_RANDOM_LENGTH ->
  forallb in_alphabet (String.list_ascii_of_string r) = true ->
  generated_format (KEY_PREFIX +:+ r) = true.
Proof.
  intros Hlen Hall. unfold generated_format.
  rewrite length_append, Hlen, Nat.eqb_refl.
  rewrite <- Hlen at 1. rewrite substring_of_append, Hall.
  unfold startsWith, KEY_PREFIX. simpl. by destruct r.
Qed.

Lemma alphabet_size :
  String.length chars = 62 /\
  NoDup (String.list_ascii_of_string chars) /\
  forallb alphanumeric (String.list_ascii_of_string chars) = true.
Proof.
  split_and!; [reflexivity| |reflexivity].
  apply (bool_decide_unpack (NoDup (String.list_ascii_of_string chars))).
  vm_compute. exact I.
Qed.

(** C9, as the code has it: a generated secret is [KEY_PREFIX] followed by
    exactly [KEY_RANDOM_LENGTH] = 48 characters of the alphabet [chars], 62
    distinct letters and digits.  Of this format validation shares the
    prefix only: a string without the prefix is refused, and every string
    with the prefix, whatever follows it, goes on to the lookup by hash. *)
Theorem generated_key_format_and_validation_check (sha : string -> string) (w : world) :
  (exists r w',
     generateApiKey w = Ok (KEY_PREFIX +:+ r) w' /\
     String.length r = KEY_RANDOM_LENGTH /\
     forallb in_alphabet (String.list_ascii_of_string r) = true /\
     generated_format (KEY_PREFIX +:+ r) = true) /\
  (KEY_RANDOM_LENGTH = 48 /\
   String.length chars = 62 /\
   NoDup (String.list_ascii_of_string chars) /\
   forallb alphanumeric (String.list_ascii_of_string chars) = true) /\
  (forall s, startsWith s KEY_PREFIX = false -> validateKey sha (VStr s) w = Ok None w) /\
  (forall rest,
     validateKey sha (VStr (KEY_PREFIX +:+ rest)) w
     = Ok (validated <$>
             (snd <$> list_find (fun k => KeyInfo.keyHash k = hashKey sha (KEY_PREFIX +:+ rest))
                                (records w)))
          (after_load w)).
Proof.
  split; [|split; [|split]].
  - destruct (randomPart_form (entropy w) (cursor w)) as [Hlen Hall].
    eexists _, _. split; [apply generateApiKey_run|].
    split; [exact Hlen|]. split; [exact Hall|]. by apply generated_format_intro.
  - split; [reflexivity|apply alphabet_size].
  - intros s Hs. by apply validateKey_bad_prefix.
  - intros rest. apply validateKey_lookup, starts_with_key_prefix.
Qed.

(** ** Listing *)

Lemma listKeys_run (w : world) :
  listKeys w = Ok (map listed (records w)) (after_load w).
Proof. unfold listKeys, bind. by rewrite loadKeys_run. Qed.

Lemma drawn_key_length (w : world) :
  String.length (drawn_key w) = String.length KEY_PREFIX + KEY_RANDOM_LENGTH.
Proof.
  unfold drawn_key. rewrite length_append.
  by destruct (randomPart_form (entropy w) (cursor w)) as [-> _].
Qed.

(** C7: [listKeys()] after [addKey(name)] is the listing before followed by
    one more entry; the entry has the name given, its [keyPrefix] is a strict
    prefix of the raw secret followed by ["..."], and it has no [keyHash]
    property. *)
Theorem listKeys_after_addKey (sha : string -> string) (name : string) (w : world) :
  disk_fault w = None ->
  exists before w0 out w1 after w2 entry apiKey visible rest,
    listKeys w = Ok before w0 /\
    addKey sha name w0 = Ok out w1 /\
    listKeys w1 = Ok after w2 /\
    after = before ++ [entry] /\
    length after = S (length before) /\
    entry !! "name" = Some (VStr name) /\
    out !! "apiKey" = Some (VStr apiKey) /\
    apiKey = visible +:+ rest /\ rest <> "" /\
    entry !! "keyPrefix" = Some (VStr (visible +:+ "...")) /\
    entry !! "keyHash" = None /\
    dom entry = {[ "id"; "name"; "keyPrefix"; "enabled"; "createdAt" ]}.
Proof.
  intros Hdisk.
  pose proof (after_load_untouched w) as (Hfile & _ & Hdisk0).
  assert (disk_fault (after_load w) = None) as Hdisk' by by rewrite Hdisk0.
  destruct (substring0_split (drawn_key (after_load w)) 12) as (rest & Hsplit & Hrest).
  exists (map listed (records w)), (after_load w).
  exists (<["apiKey" := VStr (drawn_key (after_load w))]>
            (KeyInfo.to_object (new_record sha name (after_load w)))).
  exists (after_addKey sha name (after_load w)).
  exists (map listed (records w) ++ [listed (new_record sha name (after_load w))]).
  exists (after_load (after_addKey sha name (after_load w))).
  exists (listed (new_record sha name (after_load w))).
  exists (drawn_key (after_load w)), (substring0 (drawn_key (after_load w)) 12), rest.
  split; [apply listKeys_run|].
  split; [by apply addKey_run|].
  split.
  { rewrite listKeys_run, after_addKey_records, map_app.
    unfold records at 1. by rewrite Hfile. }
  split; [reflexivity|].
  split; [rewrite length_app; simpl; lia|].
  split; [reflexivity|].
  split; [reflexivity|].
  split; [exact Hsplit|].
  split.
  { rewrite drawn_key_length in Hrest. intros ->.
    cbn [String.length] in Hrest. unfold KEY_PREFIX, KEY_RANDOM_LENGTH in Hrest.
    cbn [String.length] in Hrest. lia. }
  split_and!; reflexivity.
Qed.

(** ** The status summary *)

Lemma getEnabledKeyCount_run (w : world) :
  getEnabledKeyCount w = Ok (enabled_count w) (after_load w).
Proof. unfold getEnabledKeyCount, bind. by rewrite loadKeys_run. Qed.

Lemma hasKeys_run (w : world) : hasKeys w = Ok (has_records w) (after_load w).
Proof. unfold hasKeys, bind. by rewrite loadKeys_run. Qed.

Lemma has_records_after_load (w : world) : has_records (after_load w) = has_records w.
Proof. unfold has_records, records. by rewrite after_load_file. Qed.

Lemma getAuthStatus_run (w : world) :
  getAuthStatus w
  = Ok (AuthStatus.make
          (negb (override w) && has_records w)
          (enabled_count w)
          (override w)
          (if override w then "API Key Auth: DISABLED (SKIP_API_KEY_AUTH=true)"
           else if has_records w then
             "API Key Auth: Enabled (" +:+ show_nat (enabled_count w) +:+ " active key"
               +:+ (if negb (enabled_count w =? 1)%nat then "s" else "") +:+ ")"
           else "API Key Auth: No keys configured!"))
       (after_load (after_load w)).
Proof.
  unfold getAuthStatus, bind. rewrite getEnabledKeyCount_run, hasKeys_run.
  unfold getenv, override. by rewrite has_records_after_load, !after_load_env.
Qed.

(** C6, as the code has it: the status is a function of three observations
    of the world, the override, the number of enabled records, and whether
    the store has any record.  Computing it writes nothing.  The message is
    the disabled notice under the override, otherwise the count of active
    keys when the store has a record, otherwise the no-keys notice; two
    worlds that agree on the three observations get the same status. *)
Theorem getAuthStatus_depends_on_three_observations (w : world) :
  (exists st w',
     getAuthStatus w = Ok st w' /\ untouched w w' /\
     AuthStatus.isDisabled st = override w /\
     AuthStatus.keyCount st = enabled_count w /\
     AuthStatus.enabled st = negb (override w) && has_records w /\
     AuthStatus.message st =
       (if override w then "API Key Auth: DISABLED (SKIP_API_KEY_AUTH=true)"
        else if has_records w then
          "API Key Auth: Enabled (" +:+ show_nat (enabled_count w) +:+ " active key"
            +:+ (if (enabled_count w =? 1)%nat then "" else "s") +:+ ")"
        else "API Key Auth: No keys configured!")) /\
  (forall w2,
     override w = override w2 ->
     enabled_count w = enabled_count w2 ->
     has_records w = has_records w2 ->
     value_of (getAuthStatus w) = value_of (getAuthStatus w2)).
Proof.
  split.
  - eexists _, _. split; [apply getAuthStatus_run|]. split.
    { eapply untouched_trans; apply after_load_untouched. }
    simpl. split_and!; try reflexivity.
    by destruct (enabled_count w =? 1)%nat.
  - intros w2 Ho Hc Hh. rewrite !getAuthStatus_run. simpl. by rewrite Ho, Hc, Hh.
Qed.

(** ** The gatekeeper *)

Lemma isPublicEndpoint_iff (path : string) :
  isPublicEndpoint path = true <->
  path = "/health" \/ exists rest, path = "/health/" +:+ rest.
Proof.
  unfold isPublicEndpoint, PUBLIC_ENDPOINTS, startsWith. simpl.
  rewrite orb_false_r, orb_true_iff, String.eqb_eq.
  change ("/health" +:+ "/") with "/health/". by rewrite prefix_iff.
Qed.

Lemma validateKey_never_throws (sha : string -> string) (v : value) (w : world) :
  exists o w', validateKey sha v w = Ok o w' /\ untouched w w'.
Proof.
  destruct v as [| |b|n|s|];
    try (exists None, w; split; [by apply validateKey_not_string | apply untouched_refl]).
  destruct (startsWith s KEY_PREFIX) eqn:Hs.
  - eexists _, _. split; [by apply validateKey_lookup | apply after_load_untouched].
  - exists None, w. split; [by apply validateKey_bad_prefix | apply untouched_refl].
Qed.

(** What [validateKey] returns depends on the world through the document only. *)
Lemma validateKey_value (sha : string -> string) (v : value) (w1 w2 : world) :
  file w1 = file w2 ->
  value_of (validateKey sha v w1) = value_of (validateKey sha v w2).
Proof.
  intros Hfile. destruct v as [| |b|n|s|];
    try (by rewrite !validateKey_not_string).
  destruct (startsWith s KEY_PREFIX) eqn:Hs.
  - rewrite !validateKey_lookup by done. unfold records. by rewrite Hfile.
  - by rewrite !validateKey_bad_prefix.
Qed.

Lemma header_missing (req : request) :
  truthy (header req "x-api-key") = false <->
  headers req !! "x-api-key" = None \/ headers req !! "x-api-key" = Some "".
Proof.
  unfold header. destruct (headers req !! "x-api-key") as [s|]; simpl.
  - rewrite negb_false_iff, String.eqb_eq. split; [intros ->; by right|].
    intros [?|?]; congruence.
  - split; [by left|done].
Qed.

Lemma has_records_false (w : world) : has_records w = false <-> records w = [].
Proof. unfold has_records. destruct (records w); simpl; naive_solver. Qed.

(** C1, as the code has it: the middleware never throws and writes nothing,
    and it decides in this order.  A path on the allow-list ("/health" itself
    or anything under "/health/") is passed on.  Otherwise, when
    SKIP_API_KEY_AUTH is exactly "true" the request is passed on.  Otherwise,
    a store without records answers 503 [configuration_error].  Otherwise, an
    [x-api-key] header that is absent or empty answers 401 with the
    missing-key message.  Otherwise, a key that [validateKey] refuses answers
    401 with the invalid-key message.  Otherwise, a record that is disabled
    answers 401 with the disabled-key message.  Otherwise the request is
    passed on with the object returned by [validateKey] attached. *)
Theorem apiKeyMiddleware_decides_in_order
    (sha : string -> string) (req : request) (w : world) :
  (isPublicEndpoint (path req) = true <->
   path req = "/health" \/ exists rest, path req = "/health/" +:+ rest) /\
  exists r w',
    apiKeyMiddleware sha req w = Ok r w' /\ untouched w w' /\
    (isPublicEndpoint (path req) = true -> r = Next None) /\
    (isPublicEndpoint (path req) = false ->
     (env w !! "SKIP_API_KEY_AUTH" = Some "true" -> r = Next None) /\
     (env w !! "SKIP_API_KEY_AUTH" <> Some "true" ->
      (records w = [] ->
       r = Json 503 "configuration_error"
                "No API keys configured. Please run: npm run api-keys:add") /\
      (records w <> [] ->
       (headers req !! "x-api-key" = None \/ headers req !! "x-api-key" = Some "" ->
        r = Json 401 "authentication_error"
                 "Missing API key. Please provide x-api-key header.") /\
       (forall apiKey,
          headers req !! "x-api-key" = Some apiKey -> apiKey <> "" ->
          (value_of (validateKey sha (VStr apiKey) w) = Some None ->
           r = Json 401 "authentication_error" "Invalid API key.") /\
          (forall info,
             value_of (validateKey sha (VStr apiKey) w) = Some (Some info) ->
             (info !! "enabled" = Some (VBool false) ->
              r = Json 401 "authentication_error" "API key is disabled.") /\
             (info !! "enabled" = Some (VBool true) ->
              r = Next (Some info))))))).
Proof.
  split; [apply isPublicEndpoint_iff|].
  unfold apiKeyMiddleware.
  destruct (isPublicEndpoint (path req)) eqn:Hpub.
  { exists (Next None), w. split_and!; done. }
  unfold bind at 1. unfold getenv.
  destruct (decide (env w !! "SKIP_API_KEY_AUTH" = Some "true")) as [Hskip|Hskip].
  { rewrite bool_decide_eq_true_2 by done.
    exists (Next None), w. split_and!; done. }
  rewrite bool_decide_eq_false_2 by done.
  unfold bind at 1. rewrite hasKeys_run.
  destruct (has_records w) eqn:Hany; simpl.
  2:{ apply has_records_false in Hany.
      eexists _, _. split; [reflexivity|]. split; [apply after_load_untouched|].
      split_and!; done. }
  assert (records w <> []) as Hrecords.
  { intros Hnil%has_records_false. congruence. }
  destruct (truthy (header req "x-api-key")) eqn:Hheader; simpl.
  2:{ eexists _, _. split; [reflexivity|]. split; [apply after_load_untouched|].
      apply header_missing in Hheader.
      split_and!; try done. intros _. split; [done|]. intros _. split; [done|].
      split; [done|]. intros apiKey Hk Hne. destruct Hheader; congruence. }
  assert (exists apiKey, headers req !! "x-api-key" = Some apiKey /\ apiKey <> "")
    as (apiKey & Hk & Hne).
  { unfold header in Hheader. destruct (headers req !! "x-api-key") as [s|]; [|done].
    exists s. split; [done|]. intros ->. done. }
  assert (header req "x-api-key" = VStr apiKey) as -> by (unfold header; by rewrite Hk).
  destruct (validateKey_never_throws sha (VStr apiKey) (after_load w)) as (o & w' & Hrun & Hw').
  pose proof (validateKey_value sha (VStr apiKey) (after_load w) w (after_load_file w)) as Hval.
  rewrite Hrun in Hval. simpl in Hval.
  unfold bind. rewrite Hrun.
  assert (untouched w w') as Huntouched.
  { eapply untouched_trans; [apply after_load_untouched|done]. }
  destruct o as [info|].
  - destruct (truthy (get info "enabled")) eqn:Hen; simpl;
      (eexists _, _; split; [reflexivity|]; split; [done|]);
      (split; [done|]; intros _; split; [done|]; intros _; split; [done|]; intros _;
       split; [intros [?|?]; congruence|];
       intros k Hk' _; assert (k = apiKey) as -> by congruence;
       rewrite <- Hval; split; [done|];
       intros info' [= <-]; unfold get in Hen;
       split; intros Hinfo; rewrite Hinfo in Hen; done).
  - eexists _, _. split; [reflexivity|]. split; [done|].
    split; [done|]. intros _. split; [done|]. intros _. split; [done|]. intros _.
    split; [intros [?|?]; congruence|].
    intros k Hk' _. assert (k = apiKey) as -> by congruence.
    rewrite <- Hval. split; [done|]. intros info' ?. done.
Qed.

(** ** The sample worlds at work *)

Lemma one_key_records :
  records one_key_install = [new_record sample_digest "production" fresh_install].
Proof. reflexivity. Qed.

Lemma one_key_disk : disk_fault one_key_install = None.
Proof. reflexivity. Qed.

(** An id that is not in the store: nothing is found, nothing is written. *)
Lemma unknown_id_witness :
  (exists w', removeKey "key_0000000000000000" one_key_install = Ok false w' /\
              file w' = file one_key_install /\ writes w' = writes one_key_install /\
              records w' = records one_key_install) /\
  (exists w', enableKey "key_0000000000000000" one_key_install = Ok false w' /\
              file w' = file one_key_install /\ writes w' = writes one_key_install /\
              records w' = records one_key_install) /\
  (exists w', disableKey "key_0000000000000000" one_key_install = Ok false w' /\
              file w' = file one_key_install /\ writes w' = writes one_key_install /\
              records w' = records one_key_install).
Proof.
  apply (unknown_id_is_reported_and_nothing_changes "key_0000000000000000" one_key_install).
  intros k Hk. rewrite one_key_records in Hk.
  apply list_elem_of_singleton in Hk. subst k. discriminate.
Defined.

(** Disabling and enabling the only key of the store. *)
Lemma enable_disable_witness :
  exists pre key post,
    records one_key_install = pre ++ key :: post /\
    exists key' w',
      disableKey (drawn_id fresh_install) one_key_install = Ok true w' /\
      file w' = Stored (mkData (pre ++ key' :: post)) /\
      KeyInfo.enabled key' = false /\
      KeyInfo.keyHash key' = KeyInfo.keyHash key.
Proof.
  destruct (enable_disable_change_only_enabled (drawn_id fresh_install) one_key_install)
    as (pre & key & post & Hsplit & _ & _ & Hop).
  - reflexivity.
  - exists (new_record sample_digest "production" fresh_install).
    split; [|reflexivity]. rewrite one_key_records. by apply list_elem_of_singleton.
  - exists pre, key, post. split; [exact Hsplit|].
    destruct (Hop false) as (key' & w' & Hrun & Hfile & Hen & _ & _ & Hhash & _).
    exists key', w'. split; [exact Hrun|]. split; [exact Hfile|]. split; [exact Hen|exact Hhash].
Defined.

(** A blank name on a first run. *)
Lemma addKey_blank_name_witness :
  exists apiKey id w',
    addKey sample_digest "" fresh_install
    = Ok (<["apiKey" := VStr apiKey]>
            (KeyInfo.to_object
               (KeyInfo.make id "" (hashKey sample_digest apiKey)
                             (substring0 apiKey 12 +:+ "...") (clock fresh_install) true)))
         w' /\
    writes w' = 1.
Proof.
  destruct (addKey_accepts_every_name sample_digest "" fresh_install eq_refl)
    as (apiKey & id & record & w' & _ & _ & -> & Hrun & _ & Hwrites).
  exists apiKey, id, w'. split; done.
Defined.

(** A first key: it validates, enabled, under the id that was returned. *)
Lemma addKey_then_validateKey_witness :
  exists out w1 apiKey info w2,
    addKey sample_digest "production" fresh_install = Ok out w1 /\
    out !! "apiKey" = Some (VStr apiKey) /\
    validateKey sample_digest (VStr apiKey) w1 = Ok (Some info) w2 /\
    info !! "enabled" = Some (VBool true) /\ info !! "id" = out !! "id".
Proof.
  destruct (addKey_then_validateKey sample_digest "production" fresh_install eq_refl)
    as (out & w1 & apiKey & Hadd & Hkey & _ & info & w2 & Hval & Hnew).
  exists out, w1, apiKey, info, w2. split_and!; try done; apply Hnew;
    intros k Hk; by apply elem_of_nil in Hk.
Defined.

(** A second key is listed after the first. *)
Lemma listKeys_after_addKey_witness :
  exists before after entry,
    value_of (listKeys one_key_install) = Some before /\
    after = before ++ [entry] /\
    entry !! "name" = Some (VStr "staging") /\
    entry !! "keyHash" = None.
Proof.
  destruct (listKeys_after_addKey sample_digest "staging" one_key_install one_key_disk)
    as (before & w0 & out & w1 & after & w2 & entry & apiKey & visible & rest
        & Hbefore & _ & _ & Hafter & _ & Hname & _ & _ & _ & _ & Hhash & _).
  exists before, after, entry. rewrite Hbefore. split_and!; done.
Defined.

(** The gatekeeper lets the holder of the generated secret through. *)
Lemma gatekeeper_accepts_enabled_key :
  exists info w',
    apiKeyMiddleware sample_digest keyed_request one_key_install = Ok (Next (Some info)) w' /\
    info !! "id" = Some (VStr (drawn_id fresh_install)).
Proof.
  destruct (apiKeyMiddleware_decides_in_order sample_digest keyed_request one_key_install)
    as (_ & r & w' & Hrun & _ & _ & Hprotected).
  destruct (Hprotected eq_refl) as (_ & Hactive).
  destruct (Hactive ltac:(discriminate)) as (_ & Hstore).
  destruct (Hstore ltac:(discriminate)) as (_ & Hkey).
  destruct (Hkey (drawn_key fresh_install) eq_refl ltac:(discriminate)) as (_ & Hinfo).
  destruct (Hinfo (validated (new_record sample_digest "production" fresh_install)) eq_refl)
    as (_ & Henabled).
  rewrite (Henabled eq_refl) in Hrun.
  eexists _, w'. split; [exact Hrun|reflexivity].
Defined.

(** The positive case of validation, on the store with one key. *)
Lemma validateKey_known_key_witness :
  exists info w',
    validateKey sample_digest (VStr (drawn_key fresh_install)) one_key_install
    = Ok (Some info) w' /\
    dom info = {[ "id"; "name"; "enabled"; "createdAt" ]} /\
    info !! "keyHash" = None.
Proof.
  destruct (validateKey_fails_closed_and_hides_the_hash sample_digest one_key_install)
    as (_ & _ & _ & Hknown).
  destruct (Hknown (drawn_key fresh_install) eq_refl)
    as (pre & key & post & info & w' & _ & _ & _ & Hrun & _ & Hdom & Hhash & _).
  - exists (new_record sample_digest "production" fresh_install).
    split; [|reflexivity]. rewrite one_key_records. by apply list_elem_of_singleton.
  - exists info, w'. split_and!; done.
Defined.

(** ** Where the code departs from its description *)

(** An [x-api-key] header that is present and empty: the request carries the
    header, [validateKey] refuses its value, and the answer is the one for a
    missing key, not the one for an invalid key. *)
Lemma empty_header_is_reported_missing :
  isPublicEndpoint (path empty_header_request) = false /\
  env one_key_install !! "SKIP_API_KEY_AUTH" <> Some "true" /\
  records one_key_install <> [] /\
  headers empty_header_request !! "x-api-key" = Some "" /\
  (forall sha, value_of (validateKey sha (VStr "") one_key_install) = Some None) /\
  (forall sha,
     value_of (apiKeyMiddleware sha empty_header_request one_key_install)
     = Some (Json 401 "authentication_error"
                  "Missing API key. Please provide x-api-key header.")) /\
  (forall sha,
     value_of (apiKeyMiddleware sha empty_header_request one_key_install)
     <> Some (Json 401 "authentication_error" "Invalid API key.")).
Proof.
  split_and!; try discriminate; try reflexivity; intros sha; try reflexivity;
    discriminate.
Qed.

(** [addKey] with an empty name, and with a name of three spaces, on a first
    run: no error is raised, the record is stored and returned with that
    name. *)
Lemma addKey_blank_name_is_stored :
  (forall sha, exists out w' record,
     addKey sha "" fresh_install = Ok out w' /\
     out !! "name" = Some (VStr "") /\
     file w' = Stored (mkData [record]) /\ KeyInfo.name record = "") /\
  (forall sha, exists out w' record,
     addKey sha "   " fresh_install = Ok out w' /\
     out !! "name" = Some (VStr "   ") /\
     file w' = Stored (mkData [record]) /\ KeyInfo.name record = "   ").
Proof.
  split; intros sha; eexists _, _, _; (split; [by apply addKey_run|]);
    split_and!; reflexivity.
Qed.

(** A first run and a store whose only key is disabled: the override is off
    in both, both have no enabled key, and the statuses differ. *)
Lemma status_differs_at_equal_override_and_count :
  override fresh_install = false /\
  override one_disabled_install = false /\
  value_of (getEnabledKeyCount fresh_install) = Some 0 /\
  value_of (getEnabledKeyCount one_disabled_install) = Some 0 /\
  value_of (getAuthStatus fresh_install)
  = Some (AuthStatus.make false 0 false "API Key Auth: No keys configured!") /\
  value_of (getAuthStatus one_disabled_install)
  = Some (AuthStatus.make true 0 false "API Key Auth: Enabled (0 active keys)") /\
  value_of (getAuthStatus fresh_install) <> value_of (getAuthStatus one_disabled_install).
Proof.
  assert (value_of (getAuthStatus fresh_install)
          = Some (AuthStatus.make false 0 false "API Key Auth: No keys configured!")) as Hempty
    by reflexivity.
  assert (value_of (getAuthStatus one_disabled_install)
          = Some (AuthStatus.make true 0 false "API Key Auth: Enabled (0 active keys)")) as Hone
    by reflexivity.
  split_and!; try reflexivity. rewrite Hempty, Hone. discriminate.
Qed.

(** A string with the prefix and five more characters is not of the
    generated format, and [validateKey] returns the record that carries its
    hash. *)
Lemma validateKey_accepts_a_short_key :
  generated_format hand_written_key = false /\
  String.length hand_written_key <> String.length KEY_PREFIX + KEY_RANDOM_LENGTH /\
  (forall sha, exists info w',
     validateKey sha (VStr hand_written_key) (hand_edited_install sha) = Ok (Some info) w' /\
     info !! "id" = Some (VStr "key_manual")).
Proof.
  split_and!; [reflexivity|discriminate|].
  intros sha. eexists _, _. rewrite validateKey_lookup by reflexivity.
  unfold records. simpl. rewrite decide_True by reflexivity. simpl.
  split; reflexivity.
Qed.

(** ** Further properties of the store *)

Lemma find_at_split (id : string) (pre post : list KeyInfo.t) (key : KeyInfo.t) :
  KeyInfo.id key = id ->
  (forall k, k ∈ pre -> KeyInfo.id k <> id) ->
  list_find (fun k => KeyInfo.id k = id) (pre ++ key :: post) = Some (length pre, key).
Proof.
  intros Hkey Hpre. apply list_find_Some. split_and!.
  - by rewrite list_lookup_middle.
  - done.
  - intros j y Hj Hlt Hy. rewrite lookup_app_l in Hj by done.
    apply list_elem_of_lookup_2 in Hj. by destruct (Hpre y Hj).
Qed.

Lemma saved_disk (data : Data) (w : world) : disk_fault (saved data w) = disk_fault w.
Proof. unfold saved. by destruct (config_dir w). Qed.

Lemma after_load_disk (w : world) : disk_fault (after_load w) = disk_fault w.
Proof. apply after_load_untouched. Qed.

(** Disabling twice: both calls find the record and return [true], the
    second call leaves the document as the first call wrote it, and the
    record is disabled. *)
Theorem disableKey_twice (id : string) (w : world) :
  disk_fault w = None ->
  (exists k, k ∈ records w /\ KeyInfo.id k = id) ->
  exists w1 w2 pre key post,
    disableKey id w = Ok true w1 /\
    disableKey id w1 = Ok true w2 /\
    file w2 = file w1 /\
    records w2 = pre ++ key :: post /\
    KeyInfo.id key = id /\ KeyInfo.enabled key = false /\
    (forall k, k ∈ pre -> KeyInfo.id k <> id).
Proof.
  intros Hdisk Hknown.
  destruct (find_known_id id (records w) Hknown)
    as (i & key & pre & post & Hfind & Hsplit & Hlen & Hid & Hpre).
  pose proof (toggle_known false id w i key Hdisk Hfind) as Hfirst.
  cbv beta iota in Hfirst.
  set (w1 := saved (assign_enabled (current (file w)) i key false) (after_load w)) in *.
  assert (records w1 = pre ++ KeyInfo.set_enabled false key :: post) as Hrecords1.
  { unfold w1, records. rewrite saved_file. unfold assign_enabled. fold (records w).
    by rewrite Hsplit, <- Hlen, insert_at_split. }
  assert (disk_fault w1 = None) as Hdisk1.
  { unfold w1. by rewrite saved_disk, after_load_disk. }
  assert (list_find (fun k => KeyInfo.id k = id) (records w1)
          = Some (length pre, KeyInfo.set_enabled false key)) as Hfind1.
  { rewrite Hrecords1. by apply find_at_split. }
  pose proof (toggle_known false id w1 _ _ Hdisk1 Hfind1) as Hsecond.
  cbv beta iota in Hsecond.
  eexists w1, _, pre, (KeyInfo.set_enabled false key), post.
  split; [exact Hfirst|]. split; [exact Hsecond|].
  assert (assign_enabled (current (file w1)) (length pre) (KeyInfo.set_enabled false key) false
          = mkData (records w1)) as Hsame.
  { unfold assign_enabled. fold (records w1). by rewrite Hrecords1, insert_at_split. }
  rewrite Hsame, saved_file. split_and!; done.
Qed.

Lemma addKey_fault (sha : string -> string) (name : string) (f : fault) (w : world) :
  disk_fault w = Some f ->
  exists data,
    addKey sha name w
    = Throw (IOError (fault_message f))
            (failed_save f data (after_load (advance 8 (advance KEY_RANDOM_LENGTH w)))) /\
    keys data = records w ++ [new_record sha name w].
Proof.
  intros Hdisk. unfold addKey, bind.
  rewrite generateApiKey_run, generateKeyId_run, loadKeys_run.
  unfold now_iso. rewrite after_load_clock.
  rewrite (saveKeys_fault _ _ f) by by rewrite after_load_disk.
  eexists. split; reflexivity.
Qed.

(** A write that fails: [addKey] throws the error of the disk, after it
    went to the console, and hands out no key.  The write is not atomic, so
    the document afterwards depends on how far the write came.  When the
    directory could not be made or the file could not be opened, it is the
    document from before.  When the write stopped part-way, it does not
    parse any more: the store reads as empty and every key stored before is
    lost.  When only closing the file failed, the new record is stored,
    although its key was never handed out. *)
Theorem addKey_write_failure
    (sha : string -> string) (name : string) (f : fault) (w : world) :
  disk_fault w = Some f ->
  exists w',
    addKey sha name w = Throw (IOError (fault_message f)) w' /\
    writes w' = writes w /\
    last (stderr w') = Some ("Error saving API keys: " +:+ fault_message f) /\
    (config_dir w = false \/ fault_damage f = Intact -> file w' = file w) /\
    (forall msg, config_dir w = true -> fault_damage f = Torn msg ->
                 file w' = Garbled msg /\ records w' = []) /\
    (config_dir w = true -> fault_damage f = Complete ->
     records w' = records w ++ [new_record sha name w]).
Proof.
  intros Hdisk. destruct (addKey_fault sha name f w Hdisk) as (data & -> & Hdata).
  set (w0 := after_load (advance 8 (advance KEY_RANDOM_LENGTH w))).
  assert (file w0 = file w) as Hfile0 by (unfold w0; by rewrite after_load_file).
  assert (writes w0 = writes w) as Hwrites0.
  { unfold w0. by destruct (after_load_untouched (advance 8 (advance KEY_RANDOM_LENGTH w)))
      as (_ & -> & _). }
  assert (config_dir w0 = config_dir w) as Hdir0 by (unfold w0; by rewrite after_load_dir).
  eexists. split; [reflexivity|].
  rewrite failed_save_writes, failed_save_log.
  split; [done|]. split; [done|]. split; [|split].
  - intros H. rewrite failed_save_intact by by rewrite Hdir0. done.
  - intros msg Hdir Hdamage. unfold records.
    rewrite (failed_save_torn _ _ _ msg) by by rewrite ?Hdir0. done.
  - intros Hdir Hdamage. unfold records at 1.
    rewrite failed_save_complete by by rewrite ?Hdir0. exact Hdata.
Qed.

Lemma filter_shrinks {A} (p : A -> bool) (l : list A) (x : A) :
  x ∈ l -> p x = false -> length (List.filter p l) < length l.
Proof.
  induction 1 as [x l|x y l Hin IH]; intros Hx; simpl.
  - rewrite Hx. pose proof (List.filter_length_le p l). lia.
  - specialize (IH Hx). destruct (p y); simpl; lia.
Qed.

(** Removing a known id: [removeKey] returns [true] and persists the store
    without the records of that id, the others in their order. *)
Theorem removeKey_known (id : string) (w : world) :
  disk_fault w = None ->
  (exists k, k ∈ records w /\ KeyInfo.id k = id) ->
  exists w',
    removeKey id w = Ok true w' /\
    records w' = List.filter (fun k => negb (String.eqb (KeyInfo.id k) id)) (records w) /\
    (forall k, k ∈ records w' <-> k ∈ records w /\ KeyInfo.id k <> id) /\
    writes w' = S (writes w).
Proof.
  intros Hdisk (k & Hin & Hid).
  unfold removeKey, bind. rewrite loadKeys_run. cbn beta iota zeta. fold (records w).
  cbn [keys].
  assert ((length (List.filter (fun k => negb (String.eqb (KeyInfo.id k) id)) (records w))
           <? length (records w))%nat = true) as ->.
  { apply Nat.ltb_lt, (filter_shrinks _ _ k Hin).
    apply negb_false_iff, String.eqb_eq, Hid. }
  rewrite saveKeys_run by by rewrite after_load_disk.
  eexists. split; [reflexivity|]. split; [reflexivity|]. split.
  - intros x. unfold records at 1. rewrite saved_file. cbn [current keys].
    rewrite list_elem_of_In, List.filter_In, <- list_elem_of_In.
    by rewrite negb_true_iff, String.eqb_neq.
  - rewrite saved_writes. by destruct (after_load_untouched w) as (_ & -> & _).
Qed.

Lemma disableKey_twice_witness :
  exists w1 w2,
    disableKey (drawn_id fresh_install) one_key_install = Ok true w1 /\
    disableKey (drawn_id fresh_install) w1 = Ok true w2 /\
    file w2 = file w1.
Proof.
  destruct (disableKey_twice (drawn_id fresh_install) one_key_install)
    as (w1 & w2 & pre & key & post & H1 & H2 & Hfile & _).
  - reflexivity.
  - exists (new_record sample_digest "production" fresh_install).
    split; [|reflexivity]. rewrite one_key_records. by apply list_elem_of_singleton.
  - exists w1, w2. split; [exact H1|]. split; [exact H2|exact Hfile].
Defined.

Lemma removeKey_known_witness :
  exists w',
    removeKey (drawn_id fresh_install) one_key_install = Ok true w' /\
    writes w' = S (writes one_key_install).
Proof.
  destruct (removeKey_known (drawn_id fresh_install) one_key_install)
    as (w' & Hrun & _ & _ & Hwrites).
  - reflexivity.
  - exists (new_record sample_digest "production" fresh_install).
    split; [|reflexivity]. rewrite one_key_records. by apply list_elem_of_singleton.
  - exists w'. split; [exact Hrun|exact Hwrites].
Defined.

Lemma addKey_write_failure_witness :
  exists w',
    addKey sample_digest "staging" full_disk_one_key
    = Throw (IOError "ENOSPC: no space left on device, write") w' /\
    records full_disk_one_key <> [] /\ records w' = [].
Proof.
  destruct (addKey_write_failure sample_digest "staging" _ full_disk_one_key eq_refl)
    as (w' & Hrun & _ & _ & _ & Htorn & _).
  exists w'. split; [exact Hrun|]. split.
  - change (records full_disk_one_key) with (records one_key_install).
    by rewrite one_key_records.
  - exact (proj2 (Htorn _ eq_refl eq_refl)).
Defined.

(** ** The gatekeeper and the store *)

Lemma apiKeyMiddleware_verdict (sha : string -> string) (req : request) (w : world) :
  exists w', apiKeyMiddleware sha req w = Ok (verdict sha req w) w' /\ untouched w w'.
Proof.
  unfold apiKeyMiddleware, verdict.
  destruct (isPublicEndpoint (path req)); [by exists w|].
  unfold bind at 1. unfold getenv. fold (override w).
  destruct (override w); [by exists w|].
  unfold bind at 1. rewrite hasKeys_run.
  destruct (has_records w); simpl; [|eexists; split; [done|apply after_load_untouched]].
  unfold header. destruct (headers req !! "x-api-key") as [apiKey|]; simpl;
    [|eexists; split; [done|apply after_load_untouched]].
  destruct (String.eqb apiKey ""); simpl;
    [eexists; split; [done|apply after_load_untouched]|].
  unfold bind. destruct (startsWith apiKey KEY_PREFIX) eqn:Hprefix; simpl.
  - rewrite validateKey_lookup by done.
    assert (records (after_load w) = records w) as ->.
    { unfold records. by rewrite after_load_file. }
    fold (lookup_hash sha apiKey w).
    assert (untouched w (after_load (after_load w))) as Hw.
    { eapply untouched_trans; apply after_load_untouched. }
    destruct (lookup_hash sha apiKey w) as [key|]; simpl;
      [|eexists; split; [reflexivity|exact Hw]].
    assert (truthy (get (validated key) "enabled") = KeyInfo.enabled key) as ->
      by reflexivity.
    destruct (KeyInfo.enabled key); simpl; eexists; (split; [reflexivity|exact Hw]).
  - rewrite validateKey_bad_prefix by done.
    eexists; split; [done|apply after_load_untouched].
Qed.

Lemma override_true (w : world) :
  override w = true <-> env w !! "SKIP_API_KEY_AUTH" = Some "true".
Proof. unfold override. by rewrite bool_decide_eq_true. Qed.

Lemma override_false (w : world) :
  override w = false <-> env w !! "SKIP_API_KEY_AUTH" <> Some "true".
Proof. unfold override. by rewrite bool_decide_eq_false. Qed.

(** A request is passed on in exactly two ways.  Without a record attached:
    the path is public or the override is set.  With a record attached: the
    path is protected, the override is not set, the [x-api-key] header holds
    a string with the key prefix, the first record carrying its hash is
    enabled, and the object attached is built from that record. *)
Theorem gatekeeper_passes_exactly
    (sha : string -> string) (req : request) (w : world) (x : option object) :
  value_of (apiKeyMiddleware sha req w) = Some (Next x) <->
  (x = None /\
   (isPublicEndpoint (path req) = true \/ env w !! "SKIP_API_KEY_AUTH" = Some "true")) \/
  (isPublicEndpoint (path req) = false /\
   env w !! "SKIP_API_KEY_AUTH" <> Some "true" /\
   exists apiKey key,
     headers req !! "x-api-key" = Some apiKey /\
     startsWith apiKey KEY_PREFIX = true /\
     lookup_hash sha apiKey w = Some key /\
     KeyInfo.enabled key = true /\
     x = Some (validated key)).
Proof.
  destruct (apiKeyMiddleware_verdict sha req w) as (w' & -> & _). simpl.
  rewrite <- (override_false w), <- (override_true w). unfold verdict.
  destruct (isPublicEndpoint (path req)) eqn:Hpub.
  { split; [intros [= <-]; left; eauto|]. intros [[-> _]|(? & _)]; [done|congruence]. }
  destruct (override w) eqn:Hover.
  { split; [intros [= <-]; left; eauto|]. intros [[-> _]|(_ & ? & _)]; [done|congruence]. }
  split.
  - intros Hnext. right. split; [done|]. split; [done|].
    destruct (has_records w); simpl in Hnext; [|done].
    destruct (headers req !! "x-api-key") as [apiKey|]; [|done].
    destruct (String.eqb apiKey ""); [done|].
    destruct (startsWith apiKey KEY_PREFIX) eqn:Hprefix; simpl in Hnext; [|done].
    destruct (lookup_hash sha apiKey w) as [key|] eqn:Hkey; [|done].
    destruct (KeyInfo.enabled key) eqn:Hen; [|done].
    injection Hnext as <-. by exists apiKey, key.
  - intros [[_ [?|?]]|(_ & _ & apiKey & key & -> & Hprefix & Hkey & Hen & ->)]; [done..|].
    assert (has_records w = true) as ->.
    { unfold lookup_hash in Hkey. unfold has_records.
      destruct (records w); [done|reflexivity]. }
    rewrite (startsWith_prefix_nonempty apiKey Hprefix), Hprefix, Hkey, Hen. reflexivity.
Qed.

Lemma find_split {A} (P : A -> Prop) `{!forall x, Decision (P x)}
    (pre post : list A) (x : A) :
  P x -> (forall y, y ∈ pre -> ~ P y) ->
  list_find P (pre ++ x :: post) = Some (length pre, x).
Proof.
  intros Hx Hpre. apply list_find_Some. split_and!.
  - by rewrite list_lookup_middle.
  - done.
  - intros j y Hj Hlt. rewrite lookup_app_l in Hj by done.
    apply list_elem_of_lookup_2 in Hj. by apply Hpre.
Qed.

Lemma lookup_hash_split (sha : string -> string) (apiKey : string) (w : world)
    (pre post : list KeyInfo.t) (key : KeyInfo.t) :
  records w = pre ++ key :: post ->
  KeyInfo.keyHash key = hashKey sha apiKey ->
  (forall k, k ∈ pre -> KeyInfo.keyHash k <> hashKey sha apiKey) ->
  lookup_hash sha apiKey w = Some key.
Proof.
  intros Hsplit Hkey Hpre. unfold lookup_hash. rewrite Hsplit.
  by rewrite (find_split _ pre post key Hkey Hpre).
Qed.

Lemma lookup_hash_Some (sha : string -> string) (apiKey : string) (w : world)
    (key : KeyInfo.t) :
  lookup_hash sha apiKey w = Some key ->
  key ∈ records w /\ KeyInfo.keyHash key = hashKey sha apiKey.
Proof.
  unfold lookup_hash. intros Hkey.
  destruct (list_find _ (records w)) as [[i k]|] eqn:Hfind; [|done].
  simpl in Hkey. injection Hkey as ->.
  apply list_find_Some in Hfind as (Hi & Hk & _).
  split; [by eapply list_elem_of_lookup_2|done].
Qed.

Lemma lookup_hash_None (sha : string -> string) (apiKey : string) (w : world) :
  lookup_hash sha apiKey w = None <->
  forall k, k ∈ records w -> KeyInfo.keyHash k <> hashKey sha apiKey.
Proof.
  unfold lookup_hash. rewrite fmap_None, list_find_None, Forall_forall. done.
Qed.

Lemma saved_env (data : Data) (w : world) : env (saved data w) = env w.
Proof. unfold saved. by destruct (config_dir w). Qed.

Lemma saved_records (data : Data) (w : world) : records (saved data w) = keys data.
Proof. reflexivity. Qed.

Lemma after_load_writes (w : world) : writes (after_load w) = writes w.
Proof. apply after_load_untouched. Qed.

Lemma override_unchanged (w w' : world) : env w' = env w -> override w' = override w.
Proof. unfold override. by intros ->. Qed.

(** The effect of [enableKey] ([b] true) and [disableKey] ([b] false) on a
    store split around the first record with the id. *)
Lemma toggle_effect (b : bool) (id : string) (w : world)
    (pre post : list KeyInfo.t) (key : KeyInfo.t) :
  disk_fault w = None ->
  records w = pre ++ key :: post ->
  KeyInfo.id key = id ->
  (forall k, k ∈ pre -> KeyInfo.id k <> id) ->
  exists w',
    (if b then enableKey else disableKey) id w = Ok true w' /\
    records w' = pre ++ KeyInfo.set_enabled b key :: post /\
    disk_fault w' = None /\ env w' = env w /\ writes w' = S (writes w).
Proof.
  intros Hdisk Hsplit Hid Hpre.
  assert (list_find (fun k => KeyInfo.id k = id) (records w) = Some (length pre, key))
    as Hfind.
  { rewrite Hsplit. by apply find_split. }
  eexists. split; [exact (toggle_known b id w _ key Hdisk Hfind)|].
  rewrite saved_records, saved_disk, saved_env, saved_writes.
  rewrite after_load_disk, after_load_env, after_load_writes.
  split_and!; try done.
  unfold assign_enabled. fold (records w). cbn [keys].
  by rewrite Hsplit, insert_at_split.
Qed.

(** The effect of [removeKey] for an id that some record carries. *)
Lemma removeKey_effect (id : string) (w : world) :
  disk_fault w = None ->
  (exists k, k ∈ records w /\ KeyInfo.id k = id) ->
  exists w',
    removeKey id w = Ok true w' /\
    records w' = List.filter (fun k => negb (String.eqb (KeyInfo.id k) id)) (records w) /\
    disk_fault w' = None /\ env w' = env w /\ writes w' = S (writes w).
Proof.
  intros Hdisk (k & Hin & Hid).
  unfold removeKey, bind. rewrite loadKeys_run. cbn beta iota zeta. fold (records w).
  cbn [keys].
  assert ((length (List.filter (fun k => negb (String.eqb (KeyInfo.id k) id)) (records w))
           <? length (records w))%nat = true) as ->.
  { apply Nat.ltb_lt, (filter_shrinks _ _ k Hin).
    apply negb_false_iff, String.eqb_eq, Hid. }
  rewrite saveKeys_run by by rewrite after_load_disk.
  eexists. split; [reflexivity|].
  rewrite saved_records, saved_disk, saved_env, saved_writes.
  by rewrite after_load_disk, after_load_env, after_load_writes.
Qed.

Lemma filtered_ids (id : string) (ks : list KeyInfo.t) (k : KeyInfo.t) :
  k ∈ List.filter (fun k => negb (String.eqb (KeyInfo.id k) id)) ks <->
  k ∈ ks /\ KeyInfo.id k <> id.
Proof.
  rewrite list_elem_of_In, List.filter_In, <- list_elem_of_In.
  by rewrite negb_true_iff, String.eqb_neq.
Qed.

(** A key that is disabled is refused with the disabled-key answer, and
    passes again once it is enabled.  Here [key] is the first record of the
    store with its id and the first with the hash of [apiKey]. *)
Theorem disabled_key_is_refused_until_enabled
    (sha : string -> string) (apiKey : string) (req : request) (w : world)
    (pre post : list KeyInfo.t) (key : KeyInfo.t) :
  disk_fault w = None ->
  records w = pre ++ key :: post ->
  (forall k, k ∈ pre -> KeyInfo.id k <> KeyInfo.id key) ->
  (forall k, k ∈ pre -> KeyInfo.keyHash k <> hashKey sha apiKey) ->
  KeyInfo.keyHash key = hashKey sha apiKey ->
  startsWith apiKey KEY_PREFIX = true ->
  isPublicEndpoint (path req) = false ->
  env w !! "SKIP_API_KEY_AUTH" <> Some "true" ->
  headers req !! "x-api-key" = Some apiKey ->
  exists w1 w2,
    disableKey (KeyInfo.id key) w = Ok true w1 /\
    value_of (apiKeyMiddleware sha req w1) = Some disabled_key /\
    enableKey (KeyInfo.id key) w1 = Ok true w2 /\
    value_of (apiKeyMiddleware sha req w2)
    = Some (Next (Some (validated (KeyInfo.set_enabled true key)))).
Proof.
  intros Hdisk Hsplit Hids Hhashes Hhash Hprefix Hpub Hover%override_false Hheader.
  destruct (toggle_effect false (KeyInfo.id key) w pre post key Hdisk Hsplit eq_refl Hids)
    as (w1 & Hdisable & Hrecords1 & Hdisk1 & Henv1 & _).
  destruct (toggle_effect true (KeyInfo.id key) w1 pre post (KeyInfo.set_enabled false key)
              Hdisk1 Hrecords1 eq_refl Hids)
    as (w2 & Henable & Hrecords2 & _ & Henv2 & _).
  exists w1, w2. split; [exact Hdisable|]. split; [|split; [exact Henable|]].
  - destruct (apiKeyMiddleware_verdict sha req w1) as (w' & -> & _). simpl. f_equal.
    unfold verdict. rewrite Hpub, (override_unchanged w w1 Henv1), Hover, Hheader.
    unfold has_records. rewrite Hrecords1, length_app. simpl.
    rewrite (startsWith_prefix_nonempty apiKey Hprefix), Hprefix. simpl.
    rewrite (lookup_hash_split sha apiKey w1 pre post _ Hrecords1 Hhash Hhashes).
    assert ((0 <? length pre + S (length post))%nat = true) as -> by (apply Nat.ltb_lt; lia).
    reflexivity.
  - destruct (apiKeyMiddleware_verdict sha req w2) as (w' & -> & _). simpl. f_equal.
    unfold verdict.
    rewrite Hpub, (override_unchanged w1 w2 Henv2), (override_unchanged w w1 Henv1), Hover.
    rewrite Hheader. unfold has_records. rewrite Hrecords2, length_app. simpl.
    rewrite (startsWith_prefix_nonempty apiKey Hprefix), Hprefix. simpl.
    rewrite (lookup_hash_split sha apiKey w2 pre post _ Hrecords2 Hhash Hhashes).
    assert ((0 <? length pre + S (length post))%nat = true) as -> by (apply Nat.ltb_lt; lia).
    reflexivity.
Qed.

(** ** Round trips *)

Lemma set_enabled_same (k : KeyInfo.t) : KeyInfo.set_enabled (KeyInfo.enabled k) k = k.
Proof. by destruct k. Qed.

(** Disabling an enabled key and enabling it again gives back the store as
    it was, in two writes.  (For a key that was disabled before, the store
    ends with the key enabled.) *)
Theorem disable_then_enable_restores_store
    (id : string) (w : world) (pre post : list KeyInfo.t) (key : KeyInfo.t) :
  disk_fault w = None ->
  records w = pre ++ key :: post ->
  KeyInfo.id key = id ->
  (forall k, k ∈ pre -> KeyInfo.id k <> id) ->
  exists w1 w2,
    disableKey id w = Ok true w1 /\
    enableKey id w1 = Ok true w2 /\
    records w2 = pre ++ KeyInfo.set_enabled true key :: post /\
    (KeyInfo.enabled key = true -> file w2 = Stored (mkData (records w))) /\
    writes w2 = writes w + 2.
Proof.
  intros Hdisk Hsplit Hid Hpre.
  destruct (toggle_effect false id w pre post key Hdisk Hsplit Hid Hpre)
    as (w1 & Hdisable & Hrecords1 & Hdisk1 & _ & Hwrites1).
  destruct (toggle_effect true id w1 pre post (KeyInfo.set_enabled false key)
              Hdisk1 Hrecords1 Hid Hpre)
    as (w2 & Henable & Hrecords2 & _ & _ & Hwrites2).
  exists w1, w2. split_and!; try done.
  - intros Hen.
    assert (exists data, file w2 = Stored data) as (data & Hfile).
    { unfold enableKey, bind in Henable. rewrite loadKeys_run in Henable.
      cbn beta iota zeta in Henable.
      destruct (list_find _ _) as [[i k]|]; [|done].
      rewrite saveKeys_run in Henable by by rewrite after_load_disk.
      injection Henable as <-. eauto. }
    unfold records in Hrecords2. rewrite Hfile in Hrecords2 |- *. simpl in Hrecords2.
    destruct data as [ks]. simpl in Hrecords2. subst ks.
    rewrite Hsplit. f_equal. f_equal. f_equal. f_equal.
    transitivity (KeyInfo.set_enabled (KeyInfo.enabled key) key);
      [by rewrite Hen|apply set_enabled_same].
  - lia.
Qed.

Lemma filter_appended (id : string) (ks : list KeyInfo.t) (r : KeyInfo.t) :
  KeyInfo.id r = id ->
  List.filter (fun k => negb (String.eqb (KeyInfo.id k) id)) (ks ++ [r])
  = List.filter (fun k => negb (String.eqb (KeyInfo.id k) id)) ks.
Proof.
  intros Hr. rewrite List.filter_app. cbn [List.filter].
  by rewrite Hr, String.eqb_refl, app_nil_r.
Qed.

(** Removing the id that [addKey] returned.  The call finds it and returns
    [true]; what is left are the earlier records that have another id, so the
    store is as before the [addKey] when the id was new to it. *)
Theorem addKey_then_removeKey (sha : string -> string) (name : string) (w : world) :
  disk_fault w = None ->
  exists out w1 id w2,
    addKey sha name w = Ok out w1 /\
    out !! "id" = Some (VStr id) /\
    removeKey id w1 = Ok true w2 /\
    records w2 = List.filter (fun k => negb (String.eqb (KeyInfo.id k) id)) (records w) /\
    ((forall k, k ∈ records w -> KeyInfo.id k <> id) -> records w2 = records w).
Proof.
  intros Hdisk.
  destruct (removeKey_effect (drawn_id w) (after_addKey sha name w))
    as (w2 & Hremove & Hrecords2 & _).
  { by rewrite after_addKey_disk. }
  { exists (new_record sha name w). split; [|reflexivity].
    rewrite after_addKey_records. set_solver. }
  eexists _, (after_addKey sha name w), (drawn_id w), w2.
  split; [by apply addKey_run|]. split; [reflexivity|]. split; [exact Hremove|].
  rewrite after_addKey_records, filter_appended in Hrecords2 by reflexivity.
  split; [exact Hrecords2|].
  intros Hnew. rewrite Hrecords2. apply filter_keeps_all.
  intros k Hk. apply negb_true_iff, String.eqb_neq. by apply Hnew.
Qed.

(** Removing twice: the second call finds nothing, returns [false] and does
    not write. *)
Theorem removeKey_twice (id : string) (w : world) :
  disk_fault w = None ->
  (exists k, k ∈ records w /\ KeyInfo.id k = id) ->
  exists w1 w2,
    removeKey id w = Ok true w1 /\
    removeKey id w1 = Ok false w2 /\
    file w2 = file w1 /\ writes w2 = writes w1 /\
    (forall k, k ∈ records w1 -> KeyInfo.id k <> id).
Proof.
  intros Hdisk Hknown.
  destruct (removeKey_effect id w Hdisk Hknown) as (w1 & Hfirst & Hrecords1 & _).
  assert (forall k, k ∈ records w1 -> KeyInfo.id k <> id) as Hgone.
  { intros k. rewrite Hrecords1, filtered_ids. by intros [_ ?]. }
  exists w1, (after_load w1). split; [exact Hfirst|].
  split; [by apply removeKey_unknown|].
  pose proof (after_load_untouched w1) as (? & ? & _). done.
Qed.

(** After [removeKey], a key whose hash only records of that id carried is
    refused: [validateKey] returns [null], and the gatekeeper answers 401
    invalid key, or 503 when the store has no record left. *)
Theorem removed_key_is_refused
    (sha : string -> string) (id apiKey : string) (req : request) (w : world) :
  disk_fault w = None ->
  (exists k, k ∈ records w /\ KeyInfo.id k = id) ->
  (forall k, k ∈ records w -> KeyInfo.keyHash k = hashKey sha apiKey -> KeyInfo.id k = id) ->
  startsWith apiKey KEY_PREFIX = true ->
  isPublicEndpoint (path req) = false ->
  env w !! "SKIP_API_KEY_AUTH" <> Some "true" ->
  headers req !! "x-api-key" = Some apiKey ->
  exists w1,
    removeKey id w = Ok true w1 /\
    value_of (validateKey sha (VStr apiKey) w1) = Some None /\
    value_of (apiKeyMiddleware sha req w1)
    = Some (if decide (records w1 = []) then no_keys else invalid_key).
Proof.
  intros Hdisk Hknown Honly Hprefix Hpub Hover%override_false Hheader.
  destruct (removeKey_effect id w Hdisk Hknown) as (w1 & Hremove & Hrecords1 & _ & Henv1 & _).
  assert (lookup_hash sha apiKey w1 = None) as Hgone.
  { apply lookup_hash_None. intros k. rewrite Hrecords1, filtered_ids.
    intros [Hin Hid] Hhash. by apply Hid, Honly. }
  exists w1. split; [exact Hremove|]. split.
  - rewrite validateKey_lookup by done. fold (lookup_hash sha apiKey w1).
    by rewrite Hgone.
  - destruct (apiKeyMiddleware_verdict sha req w1) as (w' & -> & _). simpl. f_equal.
    unfold verdict. rewrite Hpub, (override_unchanged w w1 Henv1), Hover, Hheader, Hgone.
    rewrite (startsWith_prefix_nonempty apiKey Hprefix), Hprefix. simpl.
    unfold has_records. destruct (records w1); reflexivity.
Qed.

(** ** The status summary and the gatekeeper *)

Lemma filter_none {A} (p : A -> bool) (l : list A) :
  length (List.filter p l) = 0 -> forall x, x ∈ l -> p x = false.
Proof.
  induction l as [|y l IH]; simpl; intros Hlen x Hx; [by apply elem_of_nil in Hx|].
  destruct (p y) eqn:Hy; [done|].
  apply elem_of_cons in Hx as [->|Hx]; [done|by apply IH].
Qed.

(** What the status summary says is what the gatekeeper does.  The summary
    reports the override exactly when every request is passed on; it reports
    that no keys are configured exactly when every request to a protected
    path is answered 503; and when it reports the authentication enabled with
    a count of zero active keys, every request to a protected path is
    answered 401. *)
Theorem status_agrees_with_gate (sha : string -> string) (w : world) :
  exists st,
    value_of (getAuthStatus w) = Some st /\
    (AuthStatus.isDisabled st = true <->
     forall req, value_of (apiKeyMiddleware sha req w) = Some (Next None)) /\
    (AuthStatus.isDisabled st = false /\ AuthStatus.enabled st = false <->
     forall req, isPublicEndpoint (path req) = false ->
                 value_of (apiKeyMiddleware sha req w) = Some no_keys) /\
    (AuthStatus.enabled st = true -> AuthStatus.keyCount st = 0 ->
     forall req, isPublicEndpoint (path req) = false ->
                 exists message,
                   value_of (apiKeyMiddleware sha req w)
                   = Some (Json 401 "authentication_error" message)).
Proof.
  rewrite getAuthStatus_run. eexists. split; [reflexivity|]. cbn [AuthStatus.isDisabled
    AuthStatus.enabled AuthStatus.keyCount].
  assert (forall req, value_of (apiKeyMiddleware sha req w) = Some (verdict sha req w))
    as Hverdict.
  { intros req. by destruct (apiKeyMiddleware_verdict sha req w) as (w' & -> & _). }
  set (probe := mkRequest "/" ∅).
  assert (verdict sha probe w
          = if override w then Next None
            else if has_records w then missing_key else no_keys) as Hprobe.
  { unfold verdict. simpl. by destruct (override w), (has_records w). }
  split_and!.
  - split.
    + intros Hover req. rewrite Hverdict. unfold verdict. rewrite Hover.
      by destruct (isPublicEndpoint (path req)).
    + intros Hall. specialize (Hall probe). rewrite Hverdict, Hprobe in Hall.
      by destruct (override w), (has_records w).
  - split.
    + intros [Hover Hnone] req Hpub. rewrite Hverdict. unfold verdict.
      rewrite Hpub, Hover. rewrite Hover in Hnone. simpl in Hnone. by rewrite Hnone.
    + intros Hall. specialize (Hall probe eq_refl). rewrite Hverdict, Hprobe in Hall.
      by destruct (override w), (has_records w).
  - intros Hen Hcount req Hpub. rewrite Hverdict. unfold verdict. rewrite Hpub.
    apply andb_true_iff in Hen as [Hover%negb_true_iff Hany]. rewrite Hover, Hany. simpl.
    destruct (headers req !! "x-api-key") as [apiKey|]; [|by eexists].
    destruct (String.eqb apiKey ""); [by eexists|].
    destruct (negb (startsWith apiKey KEY_PREFIX)); [by eexists|].
    destruct (lookup_hash sha apiKey w) as [key|] eqn:Hkey; [|by eexists].
    apply lookup_hash_Some in Hkey as [Hin _].
    rewrite (filter_none _ _ Hcount key Hin). by eexists.
Qed.

(** ** Reading the store *)

Lemma listed_enabled (k : KeyInfo.t) :
  truthy (get (listed k) "enabled") = KeyInfo.enabled k.
Proof. reflexivity. Qed.

Lemma filter_map_length {A B} (f : A -> B) (p : A -> bool) (q : B -> bool) (l : list A) :
  (forall x, q (f x) = p x) ->
  length (List.filter q (map f l)) = length (List.filter p l).
Proof.
  intros Hpq. induction l as [|x l IH]; simpl; [done|].
  rewrite Hpq. destruct (p x); simpl; by rewrite IH.
Qed.

(** The three reading operations agree with each other, on every document:
    [getEnabledKeyCount] is the number of entries of [listKeys] whose
    [enabled] is true (the entries [k => k.enabled] keeps), [hasKeys] is true exactly when [listKeys] has an
    entry, and none of the three throws or writes. *)
Theorem reading_operations_agree (w : world) :
  exists entries count any w1 w2 w3,
    listKeys w = Ok entries w1 /\
    getEnabledKeyCount w = Ok count w2 /\
    hasKeys w = Ok any w3 /\
    count = length (List.filter (fun o : object => truthy (get o "enabled")) entries) /\
    count <= length entries /\
    (any = true <-> entries <> []) /\
    untouched w w1 /\ untouched w w2 /\ untouched w w3.
Proof.
  eexists _, _, _, _, _, _.
  split; [apply listKeys_run|]. split; [apply getEnabledKeyCount_run|].
  split; [apply hasKeys_run|].
  assert (enabled_count w
          = length (List.filter (fun o : object => truthy (get o "enabled"))
                                (map listed (records w)))) as Hcount.
  { unfold enabled_count. symmetry. apply filter_map_length. apply listed_enabled. }
  split; [exact Hcount|]. split.
  { rewrite Hcount. apply List.filter_length_le. }
  split.
  { unfold has_records. destruct (records w); simpl; [done|].
    split; [done|reflexivity]. }
  split_and!; apply after_load_untouched.
Qed.

Lemma enabled_count_split (w : world) (pre post : list KeyInfo.t) (key : KeyInfo.t) :
  records w = pre ++ key :: post ->
  enabled_count w
  = length (List.filter (fun k => KeyInfo.enabled k) pre)
    + (if KeyInfo.enabled key then 1 else 0)
    + length (List.filter (fun k => KeyInfo.enabled k) post).
Proof.
  intros Hsplit. unfold enabled_count. rewrite Hsplit, List.filter_app, length_app.
  cbn [List.filter]. destruct (KeyInfo.enabled key); simpl; lia.
Qed.

(** The count of active keys follows the operations: [addKey] raises it by
    one; [disableKey] on an enabled key lowers it by one and [enableKey] on a
    disabled key raises it by one; disabling a disabled key or enabling an
    enabled key leaves it as it is. *)
Theorem enabled_count_follows_operations (sha : string -> string) (w : world) (n : nat) :
  disk_fault w = None ->
  value_of (getEnabledKeyCount w) = Some n ->
  (forall name,
     value_of (getEnabledKeyCount (world_of (addKey sha name w))) = Some (S n)) /\
  (forall (b : bool) id pre key post,
     records w = pre ++ key :: post ->
     KeyInfo.id key = id ->
     (forall k, k ∈ pre -> KeyInfo.id k <> id) ->
     exists m,
       value_of (getEnabledKeyCount
                   (world_of ((if b then enableKey else disableKey) id w))) = Some m /\
       m + (if KeyInfo.enabled key then 1 else 0) = n + (if b then 1 else 0)).
Proof.
  intros Hdisk Hn. rewrite getEnabledKeyCount_run in Hn. injection Hn as <-. split.
  - intros name. rewrite addKey_run by done. cbn [world_of].
    rewrite getEnabledKeyCount_run. cbn [value_of]. f_equal.
    unfold enabled_count. rewrite after_addKey_records, List.filter_app, length_app.
    cbn [List.filter new_record KeyInfo.enabled length]. fold (enabled_count w). lia.
  - intros b id pre key post Hsplit Hid Hpre.
    destruct (toggle_effect b id w pre post key Hdisk Hsplit Hid Hpre)
      as (w' & -> & Hrecords' & _).
    cbn [world_of]. rewrite getEnabledKeyCount_run. eexists. split; [reflexivity|].
    rewrite (enabled_count_split w pre post key Hsplit).
    rewrite (enabled_count_split w' pre post _ Hrecords').
    destruct b, (KeyInfo.enabled key); simpl; lia.
Qed.

(** ** Writes that fail *)

Lemma failed_save_lost (f : fault) (data : Data) (w : world) :
  write_lost f w (failed_save f data (after_load w)).
Proof.
  pose proof (after_load_untouched w) as (Hfile & Hwrites & _).
  pose proof (after_load_dir w) as Hdir.
  unfold write_lost. rewrite failed_save_writes, failed_save_log.
  split; [done|]. split; [done|]. split.
  - intros H. rewrite failed_save_intact by by rewrite Hdir. done.
  - intros msg Hdir' Hdamage. unfold records.
    rewrite (failed_save_torn _ _ _ msg) by by rewrite ?Hdir. done.
Qed.

Lemma failed_save_records (f : fault) (data : Data) (w : world) :
  config_dir w = true -> fault_damage f = Complete ->
  records (failed_save f data (after_load w)) = keys data.
Proof.
  intros Hdir Hdamage. unfold records.
  rewrite failed_save_complete by by rewrite ?after_load_dir. reflexivity.
Qed.

(** On a disk where the write fails, [removeKey], [enableKey] and
    [disableKey] for an id in the store throw the error of the write after
    printing it.  The write is not atomic.  When the directory could not be
    made or the file could not be opened, the document is as it was and the
    change is lost.  When the write stopped part-way, the document does not
    parse any more and the whole store is lost with the change.  When only
    closing the file failed, the change is in the document although the call
    threw. *)
Theorem mutation_write_failure (id : string) (f : fault) (w : world) :
  disk_fault w = Some f ->
  (exists k, k ∈ records w /\ KeyInfo.id k = id) ->
  (exists w',
     removeKey id w = Throw (IOError (fault_message f)) w' /\
     write_lost f w w' /\
     (config_dir w = true -> fault_damage f = Complete ->
      records w'
      = List.filter (fun k => negb (String.eqb (KeyInfo.id k) id)) (records w))) /\
  (forall b : bool,
     exists w',
       (if b then enableKey else disableKey) id w = Throw (IOError (fault_message f)) w' /\
       write_lost f w w' /\
       (config_dir w = true -> fault_damage f = Complete ->
        exists i key,
          list_find (fun k => KeyInfo.id k = id) (records w) = Some (i, key) /\
          records w' = <[i := KeyInfo.set_enabled b key]> (records w))).
Proof.
  intros Hdisk Hknown.
  pose proof (after_load_untouched w) as (Hfile0 & Hwrites0 & Hdisk0).
  assert (disk_fault (after_load w) = Some f) as Hdisk' by by rewrite Hdisk0.
  destruct (find_known_id id (records w) Hknown) as (i & key & pre & post & Hfind & _).
  destruct Hknown as (k & Hin & Hid).
  split.
  - unfold removeKey, bind. rewrite loadKeys_run. cbn beta iota zeta. fold (records w).
    cbn [keys].
    assert ((length (List.filter (fun k => negb (String.eqb (KeyInfo.id k) id)) (records w))
             <? length (records w))%nat = true) as ->.
    { apply Nat.ltb_lt, (filter_shrinks _ _ k Hin).
      apply negb_false_iff, String.eqb_eq, Hid. }
    rewrite (saveKeys_fault _ _ f Hdisk').
    eexists. split; [reflexivity|]. split; [apply failed_save_lost|].
    intros Hdir Hdamage. by rewrite failed_save_records.
  - intros b.
    assert ((if b then enableKey else disableKey) id w
            = Throw (IOError (fault_message f))
                    (failed_save f (assign_enabled (mkData (records w)) i key b)
                                 (after_load w))) as ->.
    { destruct b; unfold enableKey, disableKey, bind; rewrite loadKeys_run;
        cbn beta iota zeta; fold (records w); rewrite Hfind;
        rewrite (saveKeys_fault _ _ f Hdisk'); reflexivity. }
    eexists. split; [reflexivity|]. split; [apply failed_save_lost|].
    intros Hdir Hdamage. exists i, key. split; [done|].
    by rewrite failed_save_records.
Qed.

(** ** Ids *)

Lemma concat_cons (x : string) (xs : list string) :
  String.concat "" (x :: xs) = x +:+ String.concat "" xs.
Proof. destruct xs; simpl; [by rewrite append_empty_r|reflexivity]. Qed.

Lemma hex_cons (b : Byte.byte) (bs : list Byte.byte) :
  hex (b :: bs) = hex_of_byte b +:+ hex bs.
Proof. unfold hex. cbn [map]. apply concat_cons. Qed.

Lemma hex_of_byte_form (b : Byte.byte) :
  exists hi lo,
    hex_of_byte b = String hi (String lo "") /\ is_hex hi = true /\ is_hex lo = true /\
    default Byte.x00 (Byte.of_N (hex_value hi * 16 + hex_value lo)) = b.
Proof. destruct b; eexists _, _; split_and!; reflexivity. Qed.

Lemma unhex_hex (bs : list Byte.byte) : unhex (hex bs) = bs.
Proof.
  induction bs as [|b bs IH]; [reflexivity|].
  rewrite hex_cons. destruct (hex_of_byte_form b) as (hi & lo & -> & _ & _ & Hb).
  rewrite !append_cons, append_empty_l. cbn [unhex]. by rewrite Hb, IH.
Qed.

Lemma hex_form (bs : list Byte.byte) :
  String.length (hex bs) = 2 * length bs /\
  forallb is_hex (String.list_ascii_of_string (hex bs)) = true.
Proof.
  induction bs as [|b bs [IHlen IHall]]; [done|].
  rewrite hex_cons. destruct (hex_of_byte_form b) as (hi & lo & -> & Hhi & Hlo & _).
  rewrite !append_cons, append_empty_l.
  cbn [String.length String.list_ascii_of_string forallb length].
  rewrite Hhi, Hlo, IHlen, IHall. split; [lia|done].
Qed.

(** An id is the word key, an underscore and sixteen lower-case hexadecimal
    digits, and it spells the eight bytes drawn: two draws give the same id
    only when they drew the same bytes. *)
Theorem generateKeyId_format (w : world) :
  exists h w',
    generateKeyId w = Ok ("key_" +:+ h) w' /\
    String.length h = 16 /\
    forallb is_hex (String.list_ascii_of_string h) = true /\
    unhex h = map (entropy w) (seq (cursor w) 8) /\
    cursor w' = cursor w + 8 /\ file w' = file w /\
    forall w2 h2 w2',
      generateKeyId w2 = Ok ("key_" +:+ h2) w2' -> h2 = h ->
      map (entropy w2) (seq (cursor w2) 8) = map (entropy w) (seq (cursor w) 8).
Proof.
  destruct (hex_form (map (entropy w) (seq (cursor w) 8))) as [Hlen Hall].
  exists (hex (map (entropy w) (seq (cursor w) 8))), (advance 8 w).
  split; [reflexivity|]. rewrite length_map, length_seq in Hlen.
  split; [exact Hlen|]. split; [exact Hall|]. split; [apply unhex_hex|].
  split; [reflexivity|]. split; [reflexivity|].
  intros w2 h2 w2' Hrun Heq.
  assert (generateKeyId w2
          = Ok ("key_" +:+ hex (map (entropy w2) (seq (cursor w2) 8))) (advance 8 w2))
    as Hrun2 by reflexivity.
  rewrite Hrun2 in Hrun. clear Hrun2.
  remember (map (entropy w2) (seq (cursor w2) 8)) as bs2 eqn:Hbs2.
  remember (map (entropy w) (seq (cursor w) 8)) as bs eqn:Hbs.
  injection Hrun as Hh _. apply String.app_inj in Hh.
  by rewrite <- (unhex_hex bs2), Hh, Heq, unhex_hex.
Qed.

(** ** The characters of a key *)

Lemma all_bytes_complete (b : Byte.byte) : b ∈ all_bytes.
Proof.
  apply list_elem_of_fmap. exists (Byte.to_nat b). split.
  - by rewrite Byte.of_to_nat.
  - apply elem_of_seq. pose proof (Byte.to_nat_bounded b). lia.
Qed.

Lemma all_bytes_NoDup : NoDup all_bytes.
Proof.
  apply NoDup_fmap_2_strong; [|apply NoDup_seq].
  intros n m Hn%elem_of_seq Hm%elem_of_seq Heq.
  destruct (Byte.of_nat n) as [bn|] eqn:Hbn; [|apply Byte.of_nat_None_iff in Hbn; lia].
  destruct (Byte.of_nat m) as [bm|] eqn:Hbm; [|apply Byte.of_nat_None_iff in Hbm; lia].
  simpl in Heq. subst bm.
  apply Byte.to_of_nat in Hbn, Hbm. congruence.
Qed.

(** Each character of the random part is read off one byte, [byte % 62],
    and 256 is not a multiple of 62: of the 256 bytes, five give each of the
    first eight characters of the alphabet ([a] to [h]) and four give each
    of the other fifty-four. *)
Theorem key_characters_are_not_uniform :
  (forall bytes i b, bytes !! i = Some b -> pick bytes i = pick [b] 0) /\
  length all_bytes = 256 /\ NoDup all_bytes /\ (forall b, b ∈ all_bytes) /\
  (forall i c,
     String.get i chars = Some c ->
     length (List.filter (fun b => String.eqb (pick [b] 0) (String c "")) all_bytes)
     = if (i <? 8)%nat then 5 else 4).
Proof.
  split_and!.
  - intros bytes i b Hb. unfold pick. by rewrite Hb.
  - reflexivity.
  - apply all_bytes_NoDup.
  - apply all_bytes_complete.
  - intros i c Hget.
    do 62 (destruct i as [|i];
           [injection Hget as <-; vm_compute; reflexivity|]).
    by destruct i.
Qed.

(** ** What every record of a store looks like *)

Lemma new_record_issued (sha : string -> string) (name : string) (w : world) :
  issued sha (new_record sha name w).
Proof.
  destruct (randomPart_form (entropy w) (cursor w)) as [Hlen Hall].
  destruct (hex_form (map (entropy w) (seq (cursor w + KEY_RANDOM_LENGTH) 8))) as [Hhex Hdigits].
  exists (drawn_key w), (hex (map (entropy w) (seq (cursor w + KEY_RANDOM_LENGTH) 8))).
  split; [by apply generated_format_intro|].
  rewrite length_map, length_seq in Hhex. done.
Qed.

Lemma issued_set_enabled (sha : string -> string) (b : bool) (k : KeyInfo.t) :
  issued sha k -> issued sha (KeyInfo.set_enabled b k).
Proof. intros (apiKey & h & ?). by exists apiKey, h. Qed.

Lemma records_after_fault (f : fault) (data : Data) (w : world) :
  records (failed_save f data w) = records w \/
  records (failed_save f data w) = [] \/
  records (failed_save f data w) = keys data.
Proof.
  unfold records, failed_save, after_fault.
  destruct (config_dir w); [|by left].
  destruct (fault_damage f); [by left|right; by left|right; by right].
Qed.

Lemma records_after_save (data : Data) (w : world) :
  records (world_of (bind (saveKeys data) (fun _ => ret true) w)) = records w \/
  records (world_of (bind (saveKeys data) (fun _ => ret true) w)) = [] \/
  records (world_of (bind (saveKeys data) (fun _ => ret true) w)) = keys data.
Proof.
  unfold bind. destruct (disk_fault w) as [f|] eqn:Hdisk.
  - rewrite (saveKeys_fault data w f Hdisk). cbn [world_of]. apply records_after_fault.
  - right; right. by rewrite saveKeys_run.
Qed.

Lemma records_after_load (w : world) : records (after_load w) = records w.
Proof. unfold records. by rewrite after_load_file. Qed.

Lemma records_after_addKey (sha : string -> string) (name : string) (w : world) :
  records (world_of (addKey sha name w)) = records w \/
  records (world_of (addKey sha name w)) = [] \/
  records (world_of (addKey sha name w)) = records w ++ [new_record sha name w].
Proof.
  destruct (disk_fault w) as [f|] eqn:Hdisk.
  - destruct (addKey_fault sha name f w Hdisk) as (data & -> & Hdata).
    cbn [world_of].
    destruct (records_after_fault f data (after_load (advance 8 (advance KEY_RANDOM_LENGTH w))))
      as [->|[->| ->]].
    + left. by rewrite records_after_load.
    + right; by left.
    + right; right. exact Hdata.
  - right; right. by rewrite addKey_run.
Qed.

Lemma records_after_removeKey (id : string) (w : world) :
  records (world_of (removeKey id w)) = records w \/
  records (world_of (removeKey id w)) = [] \/
  records (world_of (removeKey id w))
  = List.filter (fun k => negb (String.eqb (KeyInfo.id k) id)) (records w).
Proof.
  assert (removeKey id w
          = if (length (List.filter (fun k => negb (String.eqb (KeyInfo.id k) id)) (records w))
                <? length (records w))%nat
            then bind (saveKeys (mkData (List.filter
                                           (fun k => negb (String.eqb (KeyInfo.id k) id))
                                           (records w))))
                      (fun _ => ret true) (after_load w)
            else Ok false (after_load w)) as ->.
  { unfold removeKey. unfold bind at 1. rewrite loadKeys_run. cbn beta iota zeta.
    fold (records w). cbn [keys]. by destruct (_ <? _)%nat. }
  destruct (_ <? _)%nat; [|left; apply records_after_load].
  destruct (records_after_save
              (mkData (List.filter (fun k => negb (String.eqb (KeyInfo.id k) id)) (records w)))
              (after_load w)) as [Hsame|[Hnone|Hnew]].
  - left. by rewrite Hsame, records_after_load.
  - right; by left.
  - right; right. exact Hnew.
Qed.

Lemma records_after_toggle (b : bool) (id : string) (w : world) :
  records (world_of ((if b then enableKey else disableKey) id w)) = records w \/
  records (world_of ((if b then enableKey else disableKey) id w)) = [] \/
  exists i key,
    records w !! i = Some key /\
    records (world_of ((if b then enableKey else disableKey) id w))
    = <[i := KeyInfo.set_enabled b key]> (records w).
Proof.
  assert ((if b then enableKey else disableKey) id w
          = match list_find (fun k => KeyInfo.id k = id) (records w) with
            | Some (i, key) =>
                bind (saveKeys (assign_enabled (current (file w)) i key b))
                     (fun _ => ret true) (after_load w)
            | None => Ok false (after_load w)
            end) as ->.
  { destruct b; unfold enableKey, disableKey; unfold bind at 1; rewrite loadKeys_run;
      cbn beta iota zeta; fold (records w);
      by destruct (list_find _ (records w)) as [[i key]|]. }
  destruct (list_find _ (records w)) as [[i key]|] eqn:Hfind;
    [|left; apply records_after_load].
  apply list_find_Some in Hfind as (Hi & _).
  destruct (records_after_save (assign_enabled (current (file w)) i key b) (after_load w))
    as [Hsame|[Hnone|Hnew]].
  - left. by rewrite Hsame, records_after_load.
  - right; by left.
  - right; right. exists i, key. split; [exact Hi|]. rewrite Hnew. reflexivity.
Qed.

Lemma issued_after_command (sha : string -> string) (c : command) (w : world) :
  Forall (issued sha) (records w) -> Forall (issued sha) (records (run_command sha c w)).
Proof.
  intros Hall. destruct c as [name|id|id|id]; simpl.
  - destruct (records_after_addKey sha name w) as [->|[->| ->]]; [done|done|].
    apply Forall_app. split; [done|]. apply Forall_singleton, new_record_issued.
  - destruct (records_after_removeKey id w) as [->|[->| ->]]; [done|done|].
    apply Forall_forall. intros k [Hk _]%filtered_ids.
    rewrite Forall_forall in Hall. by apply Hall.
  - destruct (records_after_toggle true id w) as [->|[->|(i & key & Hi & ->)]]; [done|done|].
    apply Forall_insert; [done|]. apply issued_set_enabled.
    rewrite Forall_forall in Hall. apply Hall. by eapply list_elem_of_lookup_2.
  - destruct (records_after_toggle false id w) as [->|[->|(i & key & Hi & ->)]]; [done|done|].
    apply Forall_insert; [done|]. apply issued_set_enabled.
    rewrite Forall_forall in Hall. apply Hall. by eapply list_elem_of_lookup_2.
Qed.

Lemma forallb_chars_append (p : ascii -> bool) (s1 s2 : string) :
  forallb p (String.list_ascii_of_string (s1 +:+ s2)) = true ->
  forallb p (String.list_ascii_of_string s1) = true.
Proof.
  rewrite chars_of_append, forallb_app. by intros [? _]%andb_true_iff.
Qed.

Lemma issued_visible_prefix (sha : string -> string) (k : KeyInfo.t) :
  issued sha k ->
  exists five,
    KeyInfo.keyPrefix k = KEY_PREFIX +:+ five +:+ "..." /\
    String.length five = 5 /\
    forallb in_alphabet (String.list_ascii_of_string five) = true.
Proof.
  intros (apiKey & h & Hformat & _ & -> & _).
  unfold generated_format in Hformat.
  apply andb_true_iff in Hformat as [[Hprefix Hlen]%andb_true_iff Hall].
  apply prefix_iff in Hprefix as (r & ->). apply Nat.eqb_eq in Hlen.
  rewrite length_append in Hlen.
  assert (String.length r = KEY_RANDOM_LENGTH) as Hr by lia.
  rewrite <- Hr in Hall at 1. rewrite substring_of_append in Hall.
  destruct (substring0_split r 5) as (rest & Hsplit & Hrest).
  exists (substring0 r 5). split_and!.
  - unfold KEY_PREFIX. rewrite <- append_assoc. f_equal.
  - assert (String.length r = String.length (substring0 r 5) + String.length rest) as Hsum.
    { rewrite Hsplit at 1. apply length_append. }
    unfold KEY_RANDOM_LENGTH in Hr. lia.
  - rewrite Hsplit in Hall. by apply forallb_chars_append in Hall.
Qed.

(** Whatever sequence of [addKey], [removeKey], [enableKey] and [disableKey]
    calls is made, with whatever arguments and whether or not the writes
    succeed, a store of issued records stays one: every record carries the
    hash of a key of the generated format and an id of sixteen hexadecimal
    digits, and its visible prefix is the key prefix, five characters of the
    random part and three dots. *)
Theorem store_holds_issued_records
    (sha : string -> string) (cs : list command) (w : world) :
  Forall (issued sha) (records w) ->
  Forall (issued sha) (records (run_commands sha cs w)) /\
  Forall (fun k => exists five,
                     KeyInfo.keyPrefix k = KEY_PREFIX +:+ five +:+ "..." /\
                     String.length five = 5 /\
                     forallb in_alphabet (String.list_ascii_of_string five) = true)
         (records (run_commands sha cs w)).
Proof.
  intros Hall.
  assert (Forall (issued sha) (records (run_commands sha cs w))) as Hafter.
  { revert w Hall. induction cs as [|c cs IH]; intros w Hall; [done|].
    apply (IH (run_command sha c w)). by apply issued_after_command. }
  split; [exact Hafter|].
  eapply Forall_impl; [exact Hafter|]. intros k. apply issued_visible_prefix.
Qed.

(** ** Programs that only print *)

Lemma prints_log (text : string) (t : terminal) :
  prints (console_log text) t tt [Line text].
Proof. reflexivity. Qed.

Lemma prints_question (prompt answer : string) (t : terminal) :
  prints (question prompt answer) t answer [Prompt prompt].
Proof. reflexivity. Qed.

Lemma prints_ret {A} (a : A) (t : terminal) : prints (tret a) t a [].
Proof. unfold prints, tret. by rewrite app_nil_r; destruct t. Qed.

Lemma prints_bind {A B} (m : T A) (k : A -> T B) (t : terminal)
    (a : A) (b : B) (out1 out2 : list output) :
  prints m t a out1 ->
  prints (k a) (mkTerminal (sys t) (stdout t ++ out1)) b out2 ->
  prints (tbind m k) t b (out1 ++ out2).
Proof.
  unfold prints, tbind. intros -> ->. simpl. by rewrite app_assoc.
Qed.

Lemma prints_for_each {A} (xs : list A) (body : A -> T unit) (line : A -> string)
    (t : terminal) :
  (forall x t, x ∈ xs -> prints (body x) t tt [Line (line x)]) ->
  prints (for_each xs body) t tt (map (fun x => Line (line x)) xs).
Proof.
  revert t. induction xs as [|x xs IH]; intros t Hbody; [apply prints_ret|].
  cbn [for_each map].
  change (Line (line x) :: map (fun x => Line (line x)) xs)
    with ([Line (line x)] ++ map (fun x => Line (line x)) xs).
  eapply prints_bind; [apply Hbody; by left|].
  apply IH. intros y t' Hy. apply Hbody. by right.
Qed.

Lemma lift_run {A} (m : M A) (t : terminal) (a : A) (w : world) :
  m (sys t) = Ok a w -> lift m t = Done a (mkTerminal w (stdout t)).
Proof. unfold lift. by intros ->. Qed.

Lemma lift_throw {A} (m : M A) (t : terminal) (e : exn) (w : world) :
  m (sys t) = Throw e w -> lift (A:=A) m t = Raised (Thrown e) (mkTerminal w (stdout t)).
Proof. unfold lift. by intros ->. Qed.

(** ** The command line: adding a key *)

Lemma tbind_Done {A B} (m : T A) (k : A -> T B) (t : terminal) (a : A) (t' : terminal) :
  m t = Done a t' -> tbind m k t = k a t'.
Proof. unfold tbind. by intros ->. Qed.

Lemma tbind_Raised {A B} (m : T A) (k : A -> T B) (t : terminal) (f : failure)
    (t' : terminal) :
  m t = Raised f t' -> tbind m k t = Raised f t'.
Proof. unfold tbind. by intros ->. Qed.

Lemma blank_guard (trim : string -> string) (name : string) :
  negb (truthy (VStr name)) || (String.length (trim name) =? 0)%nat = true <->
  name = "" \/ trim name = "".
Proof.
  rewrite orb_true_iff. simpl. rewrite negb_involutive, String.eqb_eq, Nat.eqb_eq.
  assert (String.length (trim name) = 0 <-> trim name = "") as ->; [|done].
  by destruct (trim name).
Qed.

(** The [add] command turns a blank name away before it reaches [addKey]:
    for an empty answer, or one that trims to the empty string, it prints the
    refusal and the world is exactly as before.  For any other answer, on a
    writable disk, it appends one record whose name is the trimmed answer,
    which is not empty, and prints the raw key in the box. *)
Theorem cli_add_checks_the_name
    (sha trim : string -> string) (answer : string) (t : terminal) :
  (answer = "" \/ trim answer = "" ->
   exists t',
     Cli.add sha trim answer t = Done tt t' /\
     sys t' = sys t /\
     last (stdout t') = Some (Line (nl +:+ "✗ Name cannot be empty." +:+ nl))) /\
  (answer <> "" -> trim answer <> "" -> disk_fault (sys t) = None ->
   exists t' record apiKey,
     Cli.add sha trim answer t = Done tt t' /\
     records (sys t') = records (sys t) ++ [record] /\
     KeyInfo.name record = trim answer /\
     KeyInfo.name record <> "" /\
     KeyInfo.keyHash record = hashKey sha apiKey /\
     Line ("  ║  🔑 " +:+ apiKey +:+ "  ║") ∈ stdout t').
Proof.
  split.
  - intros Hblank%(blank_guard trim). unfold Cli.add.
    rewrite (tbind_Done (console_log _) _ t tt _ eq_refl).
    rewrite (tbind_Done (question _ answer) _ _ answer _ eq_refl).
    rewrite Hblank. eexists. split; [reflexivity|]. split; [reflexivity|].
    cbn [stdout]. by rewrite last_snoc.
  - intros Hanswer Htrim Hdisk.
    assert (negb (truthy (VStr answer)) || (String.length (trim answer) =? 0)%nat = false)
      as Hguard.
    { apply not_true_iff_false. rewrite blank_guard. by intros [?|?]. }
    unfold Cli.add.
    rewrite (tbind_Done (console_log _) _ t tt _ eq_refl).
    rewrite (tbind_Done (question _ answer) _ _ answer _ eq_refl).
    rewrite Hguard.
    erewrite (tbind_Done (lift _)); [|by apply lift_run, addKey_run].
    cbv beta. cbn [sys stdout].
    assert (show_value (get (<["apiKey" := VStr (drawn_key (sys t))]>
                               (KeyInfo.to_object (new_record sha (trim answer) (sys t))))
                            "apiKey") = drawn_key (sys t)) as -> by reflexivity.
    eexists _, (new_record sha (trim answer) (sys t)), (drawn_key (sys t)).
    split.
    { repeat (eapply prints_bind; [apply prints_log|]). apply prints_log. }
    cbn [sys stdout].
    split; [reflexivity|]. split; [reflexivity|]. split; [exact Htrim|].
    split; [reflexivity|].
    rewrite !elem_of_app, !list_elem_of_singleton. naive_solver.
Qed.

(** ** The command line: remove, disable, enable *)

Lemma lift_listKeys (t : terminal) :
  lift listKeys t
  = Done (map listed (records (sys t))) (mkTerminal (after_load (sys t)) (stdout t)).
Proof. apply lift_run, listKeys_run. Qed.

Lemma prints_untouched {A} (m : T A) (t : terminal) (a : A) (out : list output) :
  prints m t a out -> exists t', m t = Done a t' /\ sys t' = sys t /\ stdout t' = stdout t ++ out.
Proof. intros Hm. by eexists. Qed.

Lemma displayKeys_listed (fit20 : string -> string) (toLocaleDateString : value -> string)
    (ks : list KeyInfo.t) (t : terminal) :
  exists out, prints (Cli.displayKeys fit20 toLocaleDateString (map listed ks)) t tt out.
Proof.
  unfold Cli.displayKeys. destruct (length (map listed ks) =? 0)%nat.
  - eexists. eapply prints_bind; apply prints_log.
  - eexists. do 3 (eapply prints_bind; [apply prints_log|]).
    eapply prints_bind; [|apply prints_log].
    apply (prints_for_each _ _
             (fun key : object =>
                "  " +:+ show_value (get key "id") +:+ "  "
                +:+ fit20 (show_value (get key "name")) +:+ " "
                +:+ (if truthy (get key "enabled") then "✅ Active" else "⛔ Disabled")
                +:+ "  " +:+ toLocaleDateString (get key "createdAt"))).
    intros x t' (k & -> & _)%list_elem_of_fmap. reflexivity.
Qed.

Lemma offered_keys_print (keys : list object) (t : terminal) :
  prints (for_each keys (fun key =>
            console_log ("  " +:+ show_value (get key "id") +:+ "  "
                         +:+ show_value (get key "name")))) t tt
         (map (fun key : object =>
                 Line ("  " +:+ show_value (get key "id") +:+ "  "
                       +:+ show_value (get key "name"))) keys).
Proof.
  apply (prints_for_each _ _
           (fun key : object =>
              "  " +:+ show_value (get key "id") +:+ "  " +:+ show_value (get key "name"))).
  intros x t' _. apply prints_log.
Qed.

Lemma enabled_offered (w : world) :
  length (List.filter (fun k : object => truthy (get k "enabled")) (map listed (records w)))
  = enabled_count w.
Proof. unfold enabled_count. apply filter_map_length. apply listed_enabled. Qed.

Lemma disabled_offered (w : world) :
  length (List.filter (fun k : object => negb (truthy (get k "enabled")))
                      (map listed (records w)))
  = length (records w) - enabled_count w.
Proof.
  unfold enabled_count. induction (records w) as [|k ks IH]; [done|].
  cbn [map List.filter]. rewrite listed_enabled.
  pose proof (List.filter_length_le (fun k => KeyInfo.enabled k) ks).
  destruct (KeyInfo.enabled k); simpl; rewrite IH; lia.
Qed.

(** When there is nothing to act on, [remove], [disable] and [enable] say so
    and stop: no question is asked, whatever would have been typed is not
    read, and the document is not written.  For [remove] that is a store
    without records, for [disable] a store without an enabled key, for
    [enable] a store without a disabled key. *)
Theorem cli_nothing_to_act_on
    (toLowerCase fit20 : string -> string) (toLocaleDateString : value -> string)
    (answer : string) (t : terminal) :
  (records (sys t) = [] ->
   exists t',
     Cli.remove toLowerCase fit20 toLocaleDateString answer t = Done tt t' /\
     untouched (sys t) (sys t') /\
     stdout t' = stdout t ++ [Line (nl +:+ "No API keys to remove." +:+ nl)]) /\
  (enabled_count (sys t) = 0 ->
   exists t',
     Cli.disable toLowerCase answer t = Done tt t' /\
     untouched (sys t) (sys t') /\
     stdout t' = stdout t ++ [Line (nl +:+ "No active API keys to disable." +:+ nl)]) /\
  (enabled_count (sys t) = length (records (sys t)) ->
   exists t',
     Cli.enable toLowerCase answer t = Done tt t' /\
     untouched (sys t) (sys t') /\
     stdout t' = stdout t ++ [Line (nl +:+ "No disabled API keys to enable." +:+ nl)]).
Proof.
  split_and!.
  - intros Hnone. unfold Cli.remove.
    rewrite (tbind_Done _ _ _ _ _ (lift_listKeys t)). rewrite Hnone. cbn [map length Nat.eqb].
    eexists. split; [reflexivity|]. split; [apply after_load_untouched|reflexivity].
  - intros Hnone. unfold Cli.disable.
    rewrite (tbind_Done _ _ _ _ _ (lift_listKeys t)). cbv beta zeta.
    rewrite enabled_offered, Hnone. cbn [Nat.eqb].
    eexists. split; [reflexivity|]. split; [apply after_load_untouched|reflexivity].
  - intros Hall. unfold Cli.enable.
    rewrite (tbind_Done _ _ _ _ _ (lift_listKeys t)). cbv beta zeta.
    rewrite disabled_offered, Hall, Nat.sub_diag. cbn [Nat.eqb].
    eexists. split; [reflexivity|]. split; [apply after_load_untouched|reflexivity].
Qed.

Lemma listed_not_empty (w : world) :
  records w <> [] -> (length (map listed (records w)) =? 0)%nat = false.
Proof. destruct (records w); [done|reflexivity]. Qed.

Lemma remove_asks (toLowerCase fit20 : string -> string)
    (toLocaleDateString : value -> string) (answer : string) (t : terminal) :
  records (sys t) <> [] ->
  exists out,
    Cli.remove toLowerCase fit20 toLocaleDateString answer t
    = (if String.eqb (toLowerCase answer) "cancel" then
         console_log (nl +:+ "Cancelled." +:+ nl)
       else
         tbind (lift (removeKey answer))
               (fun success : bool =>
                  if success then
                    console_log (nl +:+ "✓ API Key removed successfully." +:+ nl)
                  else console_log (nl +:+ "✗ Key not found." +:+ nl)))
        (mkTerminal (after_load (sys t)) (stdout t ++ out)).
Proof.
  intros Hsome. unfold Cli.remove.
  rewrite (tbind_Done _ _ _ _ _ (lift_listKeys t)). rewrite (listed_not_empty _ Hsome).
  destruct (displayKeys_listed fit20 toLocaleDateString (records (sys t))
              (mkTerminal (after_load (sys t)) (stdout t))) as (out & Hout).
  rewrite (tbind_Done _ _ _ _ _ Hout).
  rewrite (tbind_Done (question _ answer) _ _ answer _ eq_refl). cbn [sys stdout].
  rewrite <- app_assoc. by eexists.
Qed.

Lemma disable_asks (toLowerCase : string -> string) (answer : string) (t : terminal) :
  enabled_count (sys t) <> 0 ->
  exists out,
    Cli.disable toLowerCase answer t
    = (if String.eqb (toLowerCase answer) "cancel" then
         console_log (nl +:+ "Cancelled." +:+ nl)
       else
         tbind (lift (disableKey answer))
               (fun success : bool =>
                  if success then console_log (nl +:+ "✓ API Key disabled." +:+ nl)
                  else console_log (nl +:+ "✗ Key not found." +:+ nl)))
        (mkTerminal (after_load (sys t)) (stdout t ++ out)).
Proof.
  intros Hsome. unfold Cli.disable.
  rewrite (tbind_Done _ _ _ _ _ (lift_listKeys t)). cbv beta zeta.
  rewrite enabled_offered. apply Nat.eqb_neq in Hsome. rewrite Hsome.
  rewrite (tbind_Done (console_log _) _ _ tt _ eq_refl).
  rewrite (tbind_Done _ _ _ _ _ (offered_keys_print _ _)).
  rewrite (tbind_Done (console_log _) _ _ tt _ eq_refl).
  rewrite (tbind_Done (question _ answer) _ _ answer _ eq_refl). cbn [sys stdout].
  rewrite <- !app_assoc. by eexists.
Qed.

Lemma enable_asks (toLowerCase : string -> string) (answer : string) (t : terminal) :
  enabled_count (sys t) <> length (records (sys t)) ->
  exists out,
    Cli.enable toLowerCase answer t
    = (if String.eqb (toLowerCase answer) "cancel" then
         console_log (nl +:+ "Cancelled." +:+ nl)
       else
         tbind (lift (enableKey answer))
               (fun success : bool =>
                  if success then console_log (nl +:+ "✓ API Key enabled." +:+ nl)
                  else console_log (nl +:+ "✗ Key not found." +:+ nl)))
        (mkTerminal (after_load (sys t)) (stdout t ++ out)).
Proof.
  intros Hsome. unfold Cli.enable.
  rewrite (tbind_Done _ _ _ _ _ (lift_listKeys t)). cbv beta zeta.
  rewrite disabled_offered.
  assert ((length (records (sys t)) - enabled_count (sys t) =? 0)%nat = false) as ->.
  { apply Nat.eqb_neq.
    pose proof (List.filter_length_le (fun k => KeyInfo.enabled k) (records (sys t))).
    unfold enabled_count in *. lia. }
  rewrite (tbind_Done (console_log _) _ _ tt _ eq_refl).
  rewrite (tbind_Done _ _ _ _ _ (offered_keys_print _ _)).
  rewrite (tbind_Done (console_log _) _ _ tt _ eq_refl).
  rewrite (tbind_Done (question _ answer) _ _ answer _ eq_refl). cbn [sys stdout].
  rewrite <- !app_assoc. by eexists.
Qed.

(** An answer that lower-cases to the word cancel stops [remove], [disable]
    and [enable] without a call into the store: the command returns and the
    document is not written, whatever the store holds. *)
Theorem cli_cancel_changes_nothing
    (toLowerCase fit20 : string -> string) (toLocaleDateString : value -> string)
    (answer : string) (t : terminal) :
  toLowerCase answer = "cancel" ->
  (exists t', Cli.remove toLowerCase fit20 toLocaleDateString answer t = Done tt t' /\
              untouched (sys t) (sys t')) /\
  (exists t', Cli.disable toLowerCase answer t = Done tt t' /\
              untouched (sys t) (sys t')) /\
  (exists t', Cli.enable toLowerCase answer t = Done tt t' /\
              untouched (sys t) (sys t')).
Proof.
  intros Hcancel. split_and!.
  - destruct (decide (records (sys t) = [])) as [Hnone|Hsome].
    + unfold Cli.remove.
      rewrite (tbind_Done _ _ _ _ _ (lift_listKeys t)). rewrite Hnone. cbn [map length Nat.eqb].
      eexists. split; [reflexivity|apply after_load_untouched].
    + destruct (remove_asks toLowerCase fit20 toLocaleDateString answer t Hsome) as (out & ->).
      rewrite Hcancel. eexists. split; [reflexivity|apply after_load_untouched].
  - destruct (decide (enabled_count (sys t) = 0)) as [Hnone|Hsome].
    + unfold Cli.disable.
      rewrite (tbind_Done _ _ _ _ _ (lift_listKeys t)). cbv beta zeta.
      rewrite enabled_offered, Hnone. cbn [Nat.eqb].
      eexists. split; [reflexivity|apply after_load_untouched].
    + destruct (disable_asks toLowerCase answer t Hsome) as (out & ->).
      rewrite Hcancel. eexists. split; [reflexivity|apply after_load_untouched].
  - destruct (decide (enabled_count (sys t) = length (records (sys t)))) as [Hnone|Hsome].
    + unfold Cli.enable.
      rewrite (tbind_Done _ _ _ _ _ (lift_listKeys t)). cbv beta zeta.
      rewrite disabled_offered, Hnone, Nat.sub_diag. cbn [Nat.eqb].
      eexists. split; [reflexivity|apply after_load_untouched].
    + destruct (enable_asks toLowerCase answer t Hsome) as (out & ->).
      rewrite Hcancel. eexists. split; [reflexivity|apply after_load_untouched].
Qed.

Lemma lift_run_at {A} (m : M A) (w : world) (out : list output) (a : A) (w' : world) :
  m w = Ok a w' -> lift m (mkTerminal w out) = Done a (mkTerminal w' out).
Proof. intros Hm. by apply lift_run. Qed.

Lemma not_cancel (toLowerCase : string -> string) (answer : string) :
  toLowerCase answer <> "cancel" -> String.eqb (toLowerCase answer) "cancel" = false.
Proof. by intros ?%String.eqb_neq. Qed.

Lemma known_or_unknown (id : string) (ks : list KeyInfo.t) :
  (exists k, k ∈ ks /\ KeyInfo.id k = id) \/ (forall k, k ∈ ks -> KeyInfo.id k <> id).
Proof.
  destruct (list_find (fun k => KeyInfo.id k = id) ks) as [[i k]|] eqn:Hfind.
  - left. apply list_find_Some in Hfind as (Hi & Hk & _).
    exists k. split; [by eapply list_elem_of_lookup_2|done].
  - right. apply list_find_None in Hfind. by rewrite Forall_forall in Hfind.
Qed.

(** Once the question is asked and the answer is not cancel, what the
    command prints last tells what happened to the store, on a writable disk:
    the success line exactly when some record carries the id typed, and then
    the document was written once; the not-found line otherwise, and then
    the document was not written.  For [disable] and [enable] the id may be
    that of any record, also of one that was not offered. *)
Theorem cli_reports_what_happened
    (toLowerCase fit20 : string -> string) (toLocaleDateString : value -> string)
    (answer : string) (t : terminal) :
  disk_fault (sys t) = None ->
  toLowerCase answer <> "cancel" ->
  let known := exists k, k ∈ records (sys t) /\ KeyInfo.id k = answer in
  let reported (t' : terminal) (success : string) :=
    (known -> last (stdout t') = Some (Line (nl +:+ success +:+ nl)) /\
              writes (sys t') = S (writes (sys t))) /\
    (~ known -> last (stdout t') = Some (Line (nl +:+ "✗ Key not found." +:+ nl)) /\
                untouched (sys t) (sys t')) in
  (records (sys t) <> [] ->
   exists t', Cli.remove toLowerCase fit20 toLocaleDateString answer t = Done tt t' /\
              reported t' "✓ API Key removed successfully.") /\
  (enabled_count (sys t) <> 0 ->
   exists t', Cli.disable toLowerCase answer t = Done tt t' /\
              reported t' "✓ API Key disabled.") /\
  (enabled_count (sys t) <> length (records (sys t)) ->
   exists t', Cli.enable toLowerCase answer t = Done tt t' /\
              reported t' "✓ API Key enabled.").
Proof.
  intros Hdisk Hanswer%not_cancel. cbv zeta.
  assert (disk_fault (after_load (sys t)) = None) as Hdisk' by by rewrite after_load_disk.
  assert (records (after_load (sys t)) = records (sys t)) as Hrecords
    by apply records_after_load.
  pose proof (after_load_untouched (sys t)) as Hload.
  split_and!.
  - intros Hsome.
    destruct (remove_asks toLowerCase fit20 toLocaleDateString answer t Hsome) as (out & ->).
    rewrite Hanswer.
    destruct (known_or_unknown answer (records (sys t))) as [Hknown|Hunknown].
    + destruct (removeKey_effect answer (after_load (sys t)) Hdisk') as (w' & Hrun & _ & _ & _ & Hw).
      { by rewrite Hrecords. }
      rewrite (tbind_Done _ _ _ _ _ (lift_run_at _ _ _ _ _ Hrun)).
      eexists. split; [reflexivity|]. cbn [sys stdout]. split; [|done].
      intros _. rewrite last_snoc, Hw, after_load_writes. done.
    + assert (removeKey answer (after_load (sys t)) = Ok false (after_load (after_load (sys t))))
        as Hrun.
      { apply removeKey_unknown. by rewrite Hrecords. }
      rewrite (tbind_Done _ _ _ _ _ (lift_run_at _ _ _ _ _ Hrun)).
      eexists. split; [reflexivity|]. cbn [sys stdout]. split.
      { intros (k & Hk & Hid). by destruct (Hunknown k Hk). }
      intros _. rewrite last_snoc. split; [done|].
      eapply untouched_trans; [exact Hload|apply after_load_untouched].
  - intros Hsome. destruct (disable_asks toLowerCase answer t Hsome) as (out & ->).
    rewrite Hanswer.
    destruct (known_or_unknown answer (records (sys t))) as [Hknown|Hunknown].
    + destruct (find_known_id answer _ Hknown)
        as (i & key & pre & post & _ & Hsplit & _ & Hid & Hpre).
      rewrite <- Hrecords in Hsplit.
      destruct (toggle_effect false answer (after_load (sys t)) pre post key
                  Hdisk' Hsplit Hid Hpre) as (w' & Hrun & _ & _ & _ & Hw).
      cbv beta iota in Hrun.
      rewrite (tbind_Done _ _ _ _ _ (lift_run_at _ _ _ _ _ Hrun)).
      eexists. split; [reflexivity|]. cbn [sys stdout]. split; [|done].
      intros _. rewrite last_snoc, Hw, after_load_writes. done.
    + destruct (toggle_unknown answer (after_load (sys t))) as [_ Hrun].
      { by rewrite Hrecords. }
      rewrite (tbind_Done _ _ _ _ _ (lift_run_at _ _ _ _ _ Hrun)).
      eexists. split; [reflexivity|]. cbn [sys stdout]. split.
      { intros (k & Hk & Hid). by destruct (Hunknown k Hk). }
      intros _. rewrite last_snoc. split; [done|].
      eapply untouched_trans; [exact Hload|apply after_load_untouched].
  - intros Hsome. destruct (enable_asks toLowerCase answer t Hsome) as (out & ->).
    rewrite Hanswer.
    destruct (known_or_unknown answer (records (sys t))) as [Hknown|Hunknown].
    + destruct (find_known_id answer _ Hknown)
        as (i & key & pre & post & _ & Hsplit & _ & Hid & Hpre).
      rewrite <- Hrecords in Hsplit.
      destruct (toggle_effect true answer (after_load (sys t)) pre post key
                  Hdisk' Hsplit Hid Hpre) as (w' & Hrun & _ & _ & _ & Hw).
      cbv beta iota in Hrun.
      rewrite (tbind_Done _ _ _ _ _ (lift_run_at _ _ _ _ _ Hrun)).
      eexists. split; [reflexivity|]. cbn [sys stdout]. split; [|done].
      intros _. rewrite last_snoc, Hw, after_load_writes. done.
    + destruct (toggle_unknown answer (after_load (sys t))) as [Hrun _].
      { by rewrite Hrecords. }
      rewrite (tbind_Done _ _ _ _ _ (lift_run_at _ _ _ _ _ Hrun)).
      eexists. split; [reflexivity|]. cbn [sys stdout]. split.
      { intros (k & Hk & Hid). by destruct (Hunknown k Hk). }
      intros _. rewrite last_snoc. split; [done|].
      eapply untouched_trans; [exact Hload|apply after_load_untouched].
Qed.

(** ** The command line: how a run ends *)

Lemma never_exits_bind {A B} (m : T A) (k : A -> T B) :
  never_exits m -> (forall a, never_exits (k a)) -> never_exits (tbind m k).
Proof.
  intros Hm Hk t c t'. unfold tbind.
  destruct (m t) as [a t1|f t1|c1 t1] eqn:Hrun; [apply Hk|done|].
  by destruct (Hm t c1 t1).
Qed.

Lemma never_exits_lift {A} (m : M A) : never_exits (lift m).
Proof. intros t c t'. unfold lift. by destruct (m (sys t)). Qed.

Lemma never_exits_log (text : string) : never_exits (console_log text).
Proof. by intros t c t'. Qed.

Lemma never_exits_question (prompt answer : string) : never_exits (question prompt answer).
Proof. by intros t c t'. Qed.

Lemma never_exits_ret {A} (a : A) : never_exits (tret a).
Proof. by intros t c t'. Qed.

Lemma never_exits_receiver (v : value) (method : string) :
  never_exits (string_receiver v method).
Proof. intros t c t'. by destruct v. Qed.

Lemma never_exits_for_each {A} (xs : list A) (body : A -> T unit) :
  (forall x, never_exits (body x)) -> never_exits (for_each xs body).
Proof.
  intros Hbody. induction xs as [|x xs IH]; [apply never_exits_ret|].
  cbn [for_each]. apply never_exits_bind; [apply Hbody|by intros _].
Qed.

Ltac never_exits_step :=
  lazymatch goal with
  | |- never_exits (tbind _ _) => apply never_exits_bind; [|intros ?]
  | |- never_exits (console_log _) => apply never_exits_log
  | |- never_exits (lift _) => apply never_exits_lift
  | |- never_exits (question _ _) => apply never_exits_question
  | |- never_exits (tret _) => apply never_exits_ret
  | |- never_exits (string_receiver _ _) => apply never_exits_receiver
  | |- never_exits (for_each _ _) => apply never_exits_for_each; intros ?
  | |- never_exits (if ?b then _ else _) => destruct b
  | |- never_exits (let _ := _ in _) => cbv zeta
  end.

Lemma displayKeys_never_exits (fit20 : string -> string)
    (toLocaleDateString : value -> string) (keys : list object) :
  never_exits (Cli.displayKeys fit20 toLocaleDateString keys).
Proof. unfold Cli.displayKeys. repeat never_exits_step. Qed.

Lemma showHelp_never_exits : never_exits Cli.showHelp.
Proof. unfold Cli.showHelp. repeat never_exits_step. Qed.

Lemma dispatch_never_exits (sha trim toLowerCase fit20 : string -> string)
    (toLocaleDateString : value -> string) (command answer : string) :
  never_exits (Cli.dispatch sha trim toLowerCase fit20 toLocaleDateString command answer).
Proof.
  unfold Cli.dispatch.
  repeat match goal with
         | |- never_exits (if ?b then _ else _) => destruct b
         end.
  - unfold Cli.list. repeat never_exits_step. apply displayKeys_never_exits.
  - unfold Cli.add. repeat never_exits_step.
  - unfold Cli.remove. repeat never_exits_step. apply displayKeys_never_exits.
  - unfold Cli.disable. repeat never_exits_step.
  - unfold Cli.enable. repeat never_exits_step.
  - apply showHelp_never_exits.
  - apply never_exits_bind; [apply never_exits_log|intros _; apply showHelp_never_exits].
Qed.

Lemma try_finally_exit {A} (body : T A) (code : nat) (t : terminal) :
  never_exits body ->
  try_finally body (process_exit code : T unit) t = Exited code (terminal_of (body t)).
Proof.
  intros Hbody. unfold try_finally, process_exit.
  destruct (body t) as [a t'|f t'|c t'] eqn:Hrun; [done..|].
  by destruct (Hbody t c t').
Qed.

Lemma addKey_throws (sha : string -> string) (name : string) (f : fault) (w : world) :
  disk_fault w = Some f ->
  exists w', addKey sha name w = Throw (IOError (fault_message f)) w' /\ write_lost f w w'.
Proof.
  intros Hdisk. destruct (addKey_fault sha name f w Hdisk) as (data & -> & _).
  eexists. split; [reflexivity|].
  exact (failed_save_lost f data (advance 8 (advance KEY_RANDOM_LENGTH w))).
Qed.

(** A run of the program always ends with exit status 0, also when the
    command threw: the [finally] block of [main] exits the process before the
    error can reach the [catch] at the end of the file, so that handler and
    its exit status 1 are never reached.  In particular an [add] whose write
    fails prints no key and still exits with 0; the document it leaves is
    the one from before when the file could not be opened, and one that does
    not parse any more when the write stopped part-way. *)
Theorem cli_always_exits_with_status_zero
    (sha trim toLowerCase fit20 : string -> string) (toLocaleDateString : value -> string)
    (argv : list string) (answer : string) (t : terminal) :
  let started :=
    mkTerminal (sys t)
               (stdout t ++ [Line "╔════════════════════════════════════════╗";
                             Line "║     Antigravity API Key Manager        ║";
                             Line "╚════════════════════════════════════════╝"]) in
  let command :=
    Cli.dispatch sha trim toLowerCase fit20 toLocaleDateString (Cli.command_of argv) answer in
  Cli.program sha trim toLowerCase fit20 toLocaleDateString argv answer t
  = Exited 0 (terminal_of (command started)) /\
  exit_status (Cli.program sha trim toLowerCase fit20 toLocaleDateString argv answer t) = 0 /\
  (forall f,
     Cli.command_of argv = "add" -> answer <> "" -> trim answer <> "" ->
     disk_fault (sys t) = Some f ->
     exists t',
       command started = Raised (Thrown (IOError (fault_message f))) t' /\
       write_lost f (sys t) (sys t') /\
       stdout t'
       = stdout started
         ++ [Line (nl +:+ "=== Add New API Key ===" +:+ nl);
             Prompt ("Enter a name for this key (e.g., " +:+ dq +:+ "production" +:+ dq +:+ "): ")]).
Proof.
  cbv zeta.
  assert (Cli.program sha trim toLowerCase fit20 toLocaleDateString argv answer t
          = Exited 0 (terminal_of
                        (Cli.dispatch sha trim toLowerCase fit20 toLocaleDateString
                           (Cli.command_of argv) answer
                           (mkTerminal (sys t)
                              (stdout t
                               ++ [Line "╔════════════════════════════════════════╗";
                                   Line "║     Antigravity API Key Manager        ║";
                                   Line "╚════════════════════════════════════════╝"])))))
    as Hrun.
  { unfold Cli.program, catch, Cli.main. cbv zeta.
    rewrite (tbind_Done (console_log _) _ t tt _ eq_refl).
    rewrite (tbind_Done (console_log _) _ _ tt _ eq_refl).
    rewrite (tbind_Done (console_log _) _ _ tt _ eq_refl).
    rewrite try_finally_exit by apply dispatch_never_exits.
    cbn [sys stdout]. by rewrite <- !app_assoc. }
  split; [exact Hrun|]. split; [by rewrite Hrun|].
  intros f -> Hanswer Htrim Hdisk.
  assert (negb (truthy (VStr answer)) || (String.length (trim answer) =? 0)%nat = false)
    as Hguard.
  { apply not_true_iff_false. rewrite blank_guard. by intros [?|?]. }
  destruct (addKey_throws sha (trim answer) f (sys t) Hdisk) as (w' & Hthrow & Hlost).
  unfold Cli.dispatch. cbn [String.eqb Ascii.eqb Bool.eqb]. unfold Cli.add.
  rewrite (tbind_Done (console_log _) _ _ tt _ eq_refl).
  rewrite (tbind_Done (question _ answer) _ _ answer _ eq_refl).
  rewrite Hguard.
  erewrite (tbind_Raised (lift _)); [|by apply lift_throw; cbn [sys]; exact Hthrow].
  eexists. split; [reflexivity|]. cbn [sys stdout]. rewrite <- app_assoc. done.
Qed.


(** ** The startup notice *)


(** ** The sample worlds at work, continued *)

Lemma one_key_split :
  records one_key_install = [] ++ new_record sample_digest "production" fresh_install :: [].
Proof. exact one_key_records. Qed.

Lemma nothing_before (P : KeyInfo.t -> Prop) : forall k : KeyInfo.t, k ∈ [] -> P k.
Proof. intros k Hk. by apply elem_of_nil in Hk. Qed.

Lemma one_key_known :
  exists k, k ∈ records one_key_install /\ KeyInfo.id k = drawn_id fresh_install.
Proof.
  exists (new_record sample_digest "production" fresh_install).
  split; [|reflexivity]. rewrite one_key_records. by apply list_elem_of_singleton.
Qed.

Lemma one_key_override : env one_key_install !! "SKIP_API_KEY_AUTH" <> Some "true".
Proof. discriminate. Qed.

Lemma disabled_key_is_refused_until_enabled_witness :
  exists w1 w2,
    disableKey (drawn_id fresh_install) one_key_install = Ok true w1 /\
    value_of (apiKeyMiddleware sample_digest keyed_request w1) = Some disabled_key /\
    enableKey (drawn_id fresh_install) w1 = Ok true w2 /\
    is_Some (value_of (apiKeyMiddleware sample_digest keyed_request w2)).
Proof.
  destruct (disabled_key_is_refused_until_enabled sample_digest (drawn_key fresh_install)
              keyed_request one_key_install [] []
              (new_record sample_digest "production" fresh_install)
              one_key_disk one_key_split (nothing_before _) (nothing_before _) eq_refl
              (drawn_key_has_prefix fresh_install) eq_refl one_key_override eq_refl)
    as (w1 & w2 & H1 & H2 & H3 & H4).
  exists w1, w2. split; [exact H1|]. split; [exact H2|]. split; [exact H3|].
  rewrite H4. by eexists.
Defined.

Lemma disable_then_enable_restores_store_witness :
  exists w1 w2,
    disableKey (drawn_id fresh_install) one_key_install = Ok true w1 /\
    enableKey (drawn_id fresh_install) w1 = Ok true w2 /\
    file w2 = Stored (mkData (records one_key_install)).
Proof.
  destruct (disable_then_enable_restores_store (drawn_id fresh_install) one_key_install [] []
              (new_record sample_digest "production" fresh_install)
              one_key_disk one_key_split eq_refl (nothing_before _))
    as (w1 & w2 & H1 & H2 & _ & Hfile & _).
  exists w1, w2. split; [exact H1|]. split; [exact H2|exact (Hfile eq_refl)].
Defined.

Lemma addKey_then_removeKey_witness :
  exists out w1 id w2,
    addKey sample_digest "staging" fresh_install = Ok out w1 /\
    removeKey id w1 = Ok true w2 /\
    records w2 = records fresh_install.
Proof.
  destruct (addKey_then_removeKey sample_digest "staging" fresh_install eq_refl)
    as (out & w1 & id & w2 & Hadd & _ & Hremove & _ & Hsame).
  exists out, w1, id, w2. split; [exact Hadd|]. split; [exact Hremove|].
  apply Hsame. apply nothing_before.
Defined.

Lemma removeKey_twice_witness :
  exists w1 w2,
    removeKey (drawn_id fresh_install) one_key_install = Ok true w1 /\
    removeKey (drawn_id fresh_install) w1 = Ok false w2 /\
    writes w2 = writes w1.
Proof.
  destruct (removeKey_twice (drawn_id fresh_install) one_key_install one_key_disk one_key_known)
    as (w1 & w2 & H1 & H2 & _ & Hwrites & _).
  exists w1, w2. split; [exact H1|]. split; [exact H2|exact Hwrites].
Defined.

Lemma removed_key_is_refused_witness :
  exists w1,
    removeKey (drawn_id fresh_install) one_key_install = Ok true w1 /\
    value_of (validateKey sample_digest (VStr (drawn_key fresh_install)) w1) = Some None.
Proof.
  destruct (removed_key_is_refused sample_digest (drawn_id fresh_install)
              (drawn_key fresh_install) keyed_request one_key_install
              one_key_disk one_key_known)
    as (w1 & H1 & H2 & _).
  - intros k Hk _. rewrite one_key_records in Hk.
    apply list_elem_of_singleton in Hk. by subst k.
  - apply drawn_key_has_prefix.
  - reflexivity.
  - exact one_key_override.
  - reflexivity.
  - exists w1. split; [exact H1|exact H2].
Defined.

Lemma one_key_count : value_of (getEnabledKeyCount one_key_install) = Some 1.
Proof. reflexivity. Qed.

Lemma enabled_count_follows_operations_witness :
  value_of (getEnabledKeyCount
              (world_of (addKey sample_digest "staging" one_key_install))) = Some 2 /\
  exists m,
    value_of (getEnabledKeyCount
                (world_of (disableKey (drawn_id fresh_install) one_key_install))) = Some m /\
    m + 1 = 1 + 0.
Proof.
  destruct (enabled_count_follows_operations sample_digest one_key_install 1
              one_key_disk one_key_count) as [Hadd Htoggle].
  split; [exact (Hadd "staging")|].
  exact (Htoggle false (drawn_id fresh_install) [] _ [] one_key_split eq_refl
           (nothing_before _)).
Defined.

Lemma full_disk_known :
  exists k, k ∈ records full_disk_one_key /\ KeyInfo.id k = drawn_id fresh_install.
Proof. exact one_key_known. Qed.

Lemma mutation_write_failure_witness :
  exists w',
    disableKey (drawn_id fresh_install) full_disk_one_key
    = Throw (IOError "ENOSPC: no space left on device, write") w' /\
    records full_disk_one_key <> [] /\ records w' = [].
Proof.
  destruct (mutation_write_failure (drawn_id fresh_install) _ full_disk_one_key
              eq_refl full_disk_known) as (_ & Htoggle).
  destruct (Htoggle false) as (w' & Hrun & (_ & _ & _ & Htorn) & _).
  exists w'. split; [exact Hrun|]. split.
  - change (records full_disk_one_key) with (records one_key_install).
    by rewrite one_key_records.
  - exact (proj2 (Htorn _ eq_refl eq_refl)).
Defined.

Lemma store_holds_issued_records_witness :
  Forall (issued sample_digest)
         (records (run_commands sample_digest
                     [Add "production"; Disable (drawn_id fresh_install); Add "staging";
                      Remove "key_0000000000000000"]
                     fresh_install)).
Proof.
  apply (store_holds_issued_records sample_digest
           [Add "production"; Disable (drawn_id fresh_install); Add "staging";
            Remove "key_0000000000000000"] fresh_install).
  apply Forall_nil_2.
Defined.

Lemma cli_cancel_changes_nothing_witness :
  exists t', Cli.remove unchanged unchanged stored_date "cancel" one_key_terminal = Done tt t' /\
             untouched one_key_install (sys t').
Proof.
  destruct (cli_cancel_changes_nothing unchanged unchanged stored_date "cancel"
              one_key_terminal eq_refl) as (Hremove & _).
  exact Hremove.
Defined.

Lemma cli_reports_what_happened_witness :
  exists t',
    Cli.disable unchanged (drawn_id fresh_install) one_key_terminal = Done tt t' /\
    last (stdout t') = Some (Line (nl +:+ "✓ API Key disabled." +:+ nl)) /\
    writes (sys t') = S (writes one_key_install).
Proof.
  destruct (cli_reports_what_happened unchanged unchanged stored_date
              (drawn_id fresh_install) one_key_terminal one_key_disk)
    as (_ & Hdisable & _).
  - discriminate.
  - destruct Hdisable as (t' & Hrun & Hknown & _); [discriminate|].
    exists t'. split; [exact Hrun|]. apply Hknown. exact one_key_known.
Defined.

(** ** The document as the code reads it *)

Lemma raw_lift_run {A} (m : M A) (s : Raw.state) (a : A) (w : world) :
  m (Raw.around s) = Ok a w ->
  Raw.lift m s = Raw.Returned a (Raw.mkState (Raw.at_path s) w).
Proof. unfold Raw.lift. by intros ->. Qed.

Lemma raw_lift_throw {A} (m : M A) (s : Raw.state) (e : exn) (w : world) :
  m (Raw.around s) = Throw e w ->
  Raw.lift m s = Raw.Threw (Thrown e) (Raw.mkState (Raw.at_path s) w).
Proof. unfold Raw.lift. by intros ->. Qed.

Lemma rbind_Returned {A B} (m : Raw.R A) (k : A -> Raw.R B) (s s' : Raw.state) (a : A) :
  m s = Raw.Returned a s' -> Raw.rbind m k s = k a s'.
Proof. unfold Raw.rbind. by intros ->. Qed.

Lemma rbind_Threw {A B} (m : Raw.R A) (k : A -> Raw.R B) (s s' : Raw.state) (f : failure) :
  m s = Raw.Threw f s' -> Raw.rbind m k s = Raw.Threw f s'.
Proof. unfold Raw.rbind. by intros ->. Qed.

(** What [loadKeys] hands out, and the line it prints when the file cannot
    be read or parsed. *)
Lemma raw_loadKeys_run (s : Raw.state) :
  Raw.loadKeys s
  = Raw.Returned
      (match Raw.at_path s with Raw.Parsed j => j | _ => Raw.empty_store end)
      (Raw.mkState (Raw.at_path s)
         (match Raw.at_path s with
          | Raw.Unparseable msg =>
              add_stderr ("Error loading API keys: " +:+ msg) (Raw.around s)
          | _ => Raw.around s
          end)).
Proof.
  unfold Raw.loadKeys, Raw.rbind, Raw.existsSync_keys, Raw.rtry_catch, Raw.read_and_parse.
  destruct s as [c w]. by destruct c.
Qed.

Lemma raw_saveKeys_run (data : Raw.json) (s : Raw.state) :
  disk_fault (Raw.around s) = None ->
  Raw.saveKeys data s
  = Raw.Returned tt
      (Raw.mkState (Raw.Parsed data)
         (set_file (file (Raw.around s))
            (if config_dir (Raw.around s) then Raw.around s
             else set_config_dir (Raw.around s)))).
Proof.
  intros Hdisk. destruct s as [c w]. simpl in Hdisk.
  unfold Raw.saveKeys, Raw.rtry_catch, Raw.rbind, Raw.lift, existsSync_dir, mkdirSync,
    Raw.writeFileSync, Raw.rret.
  simpl. destruct (config_dir w) eqn:Hdir; simpl; rewrite ?Hdisk; simpl; rewrite ?Hdisk;
    reflexivity.
Qed.

Lemma raw_saveKeys_fault (data : Raw.json) (s : Raw.state) (f : fault) :
  disk_fault (Raw.around s) = Some f ->
  Raw.saveKeys data s
  = Raw.Threw (Thrown (IOError (fault_message f)))
      (Raw.mkState
         (if config_dir (Raw.around s) then Raw.left_behind f data (Raw.at_path s)
          else Raw.at_path s)
         (add_stderr ("Error saving API keys: " +:+ fault_message f) (Raw.around s))).
Proof.
  intros Hdisk. destruct s as [c w]. simpl in Hdisk.
  unfold Raw.saveKeys, Raw.rtry_catch, Raw.rbind, Raw.lift, existsSync_dir, mkdirSync,
    Raw.writeFileSync, Raw.rret, Raw.rthrow, console_error.
  simpl. destruct (config_dir w) eqn:Hdir; simpl; rewrite ?Hdisk; simpl; rewrite ?Hdisk;
    reflexivity.
Qed.

(** [addKey] up to the call of [push]: the draws, the load and the clock. *)
Lemma raw_addKey_run (sha : string -> string) (name : string) (s : Raw.state) :
  let w := Raw.around s in
  let s1 := Raw.mkState (Raw.at_path s)
              (match Raw.at_path s with
               | Raw.Unparseable msg =>
                   add_stderr ("Error loading API keys: " +:+ msg)
                              (advance 8 (advance KEY_RANDOM_LENGTH w))
               | _ => advance 8 (advance KEY_RANDOM_LENGTH w)
               end) in
  Raw.addKey sha name s
  = Raw.rbind
      (Raw.push (match Raw.at_path s with Raw.Parsed j => j | _ => Raw.empty_store end)
                (Raw.encode (new_record sha name w)))
      (fun data =>
         Raw.rbind (Raw.saveKeys data)
           (fun _ => Raw.rret (<["apiKey" := VStr (drawn_key w)]>
                                 (KeyInfo.to_object (new_record sha name w)))))
      s1.
Proof.
  cbv zeta. unfold Raw.addKey.
  rewrite (rbind_Returned (Raw.lift generateApiKey) _ s _ (drawn_key (Raw.around s))
             (raw_lift_run _ _ _ _ (generateApiKey_run _))).
  erewrite (rbind_Returned (Raw.lift generateKeyId));
    [|apply raw_lift_run; cbn [Raw.around]; apply generateKeyId_run].
  erewrite (rbind_Returned Raw.loadKeys); [|apply raw_loadKeys_run].
  cbn [Raw.at_path Raw.around].
  erewrite (rbind_Returned (Raw.lift now_iso)); [|apply raw_lift_run; reflexivity].
  cbn [Raw.at_path Raw.around].
  destruct (Raw.at_path s); reflexivity.
Qed.

Lemma raw_push_empty (record : Raw.json) (s : Raw.state) :
  Raw.push Raw.empty_store record s
  = Raw.Returned (Raw.JObj [("keys", Raw.JArr [record])]) s.
Proof. reflexivity. Qed.

(** [addKey] on a writable disk, when there is no file or none that can be
    read and parsed. *)
Lemma raw_addKey_fresh (sha : string -> string) (name : string) (s : Raw.state) :
  disk_fault (Raw.around s) = None ->
  (forall j, Raw.at_path s <> Raw.Parsed j) ->
  exists s2,
    Raw.addKey sha name s
    = Raw.Returned (<["apiKey" := VStr (drawn_key (Raw.around s))]>
                      (KeyInfo.to_object (new_record sha name (Raw.around s))))
                   s2 /\
    Raw.at_path s2
    = Raw.Parsed (Raw.JObj [("keys", Raw.JArr [Raw.encode (new_record sha name (Raw.around s))])]) /\
    writes (Raw.around s2) = S (writes (Raw.around s)).
Proof.
  intros Hdisk Hpath. rewrite raw_addKey_run. cbv zeta.
  set (s1 := Raw.mkState _ _).
  assert ((match Raw.at_path s with Raw.Parsed j => j | _ => Raw.empty_store end)
          = Raw.empty_store) as ->.
  { destruct (Raw.at_path s) as [| |j]; [done|done|]. by destruct (Hpath j). }
  rewrite (rbind_Returned _ _ _ _ _ (raw_push_empty _ s1)).
  assert (disk_fault (Raw.around s1) = None /\ writes (Raw.around s1) = writes (Raw.around s))
    as [Hdisk1 Hwrites1].
  { unfold s1. by destruct (Raw.at_path s). }
  rewrite (rbind_Returned _ _ _ _ _ (raw_saveKeys_run _ s1 Hdisk1)).
  eexists. split; [reflexivity|]. split; [reflexivity|].
  cbn [Raw.around]. rewrite <- Hwrites1. by destruct (config_dir (Raw.around s1)).
Qed.

(** C5, as amended: when reading or parsing the document throws,
    [listKeys()] returns the empty array and does not throw, [loadKeys]
    hands out the empty store for that call (one line goes to the console,
    the file stays as it is), and an [addKey] that follows succeeds on a
    writable disk: the file then holds the store with the new record
    alone. *)
Theorem unparseable_document_reads_as_empty
    (sha : string -> string) (name msg : string) (s : Raw.state) :
  Raw.at_path s = Raw.Unparseable msg ->
  exists s1,
    Raw.listKeys s = Raw.Returned [] s1 /\
    Raw.loadKeys s = Raw.Returned Raw.empty_store s1 /\
    Raw.at_path s1 = Raw.Unparseable msg /\
    writes (Raw.around s1) = writes (Raw.around s) /\
    stderr (Raw.around s1) = stderr (Raw.around s) ++ ["Error loading API keys: " +:+ msg] /\
    (disk_fault (Raw.around s) = None ->
     exists out s2 record,
       Raw.addKey sha name s1 = Raw.Returned out s2 /\
       out !! "name" = Some (VStr name) /\
       out !! "apiKey" = Some (VStr (drawn_key (Raw.around s))) /\
       KeyInfo.name record = name /\
       KeyInfo.keyHash record = hashKey sha (drawn_key (Raw.around s)) /\
       Raw.at_path s2 = Raw.Parsed (Raw.JObj [("keys", Raw.JArr [Raw.encode record])]) /\
       writes (Raw.around s2) = S (writes (Raw.around s))).
Proof.
  intros Hpath.
  pose proof (raw_loadKeys_run s) as Hload. rewrite Hpath in Hload.
  eexists. split; [|split; [exact Hload|]].
  { unfold Raw.listKeys. by rewrite (rbind_Returned _ _ _ _ _ Hload). }
  cbn [Raw.at_path Raw.around]. split; [done|]. split; [done|]. split; [done|].
  intros Hdisk.
  set (s1 := Raw.mkState _ _).
  destruct (raw_addKey_fresh sha name s1) as (s2 & Hrun & Hfile & Hwrites).
  { exact Hdisk. }
  { intros j. discriminate. }
  eexists _, s2, (new_record sha name (Raw.around s1)).
  split; [exact Hrun|]. split; [reflexivity|]. split; [reflexivity|].
  split; [reflexivity|]. split; [reflexivity|]. split; [exact Hfile|exact Hwrites].
Qed.

(** The document of [unparseable_install]. *)
Lemma unparseable_document_witness :
  exists s1 out s2 record,
    Raw.listKeys Raw.unparseable_install = Raw.Returned [] s1 /\
    Raw.addKey sample_digest "production" s1 = Raw.Returned out s2 /\
    Raw.at_path s2 = Raw.Parsed (Raw.JObj [("keys", Raw.JArr [Raw.encode record])]) /\
    KeyInfo.name record = "production".
Proof.
  destruct (unparseable_document_reads_as_empty sample_digest "production"
              "Unexpected token o in JSON at position 1" Raw.unparseable_install eq_refl)
    as (s1 & Hlist & _ & _ & _ & _ & Hadd).
  destruct (Hadd eq_refl) as (out & s2 & record & Hrun & _ & _ & Hname & _ & Hfile & _).
  exists s1, out, s2, record. split_and!; done.
Defined.

(** A document that parses is handed out as it is.  With the text [{}] in
    the file, [data.keys] is [undefined]: [listKeys()] throws a TypeError
    instead of returning the empty array, and [addKey] throws at [push],
    before anything is written, so the document is still there afterwards. *)
Lemma empty_object_document_throws :
  Raw.listKeys Raw.emptied_install
  = Raw.Threw (TypeError "Cannot read properties of undefined (reading 'map')")
              Raw.emptied_install /\
  exists s',
    Raw.addKey sample_digest "production" Raw.emptied_install
    = Raw.Threw (TypeError "Cannot read properties of undefined (reading 'push')") s' /\
    Raw.at_path s' = Raw.Parsed (Raw.JObj []) /\
    writes (Raw.around s') = writes (Raw.around Raw.emptied_install).
Proof.
  split; [reflexivity|].
  rewrite raw_addKey_run. cbv zeta. eexists. split; [reflexivity|]. split; reflexivity.
Qed.

(** What [data.keys.map] and [data.keys.push] run on is an array, or the
    call throws a TypeError and leaves the state as it is. *)
Lemma keys_array_throws (j : Raw.json) (method : string) (s : Raw.state) :
  (forall items, Raw.keys_of j <> Some (Raw.Value (Raw.JArr items))) ->
  exists message, Raw.keys_array j method s = Raw.Threw (TypeError message) s.
Proof.
  intros Hkeys. unfold Raw.keys_array.
  destruct (Raw.keys_of j) as [[| |[]]|]; try by eexists.
  by destruct (Hkeys items).
Qed.

(** Nothing checks the shape of a document that parses.  When the parsed
    value has no array under [keys] (an empty object, [null], an array, an
    object with a number under [keys]), [listKeys] throws a TypeError, and so
    does [addKey], at [push]: it returns no key and writes nothing, so the
    document stays as it is and the next call throws again. *)
Theorem document_without_keys_array_throws
    (sha : string -> string) (name : string) (j : Raw.json) (s : Raw.state) :
  Raw.at_path s = Raw.Parsed j ->
  (forall items, Raw.keys_of j <> Some (Raw.Value (Raw.JArr items))) ->
  (exists message, Raw.listKeys s = Raw.Threw (TypeError message) s) /\
  (exists message s',
     Raw.addKey sha name s = Raw.Threw (TypeError message) s' /\
     Raw.at_path s' = Raw.Parsed j /\
     writes (Raw.around s') = writes (Raw.around s) /\
     stderr (Raw.around s') = stderr (Raw.around s)).
Proof.
  intros Hpath Hkeys. split.
  - destruct (keys_array_throws j "map" s Hkeys) as (message & Hthrow).
    exists message. unfold Raw.listKeys.
    rewrite (rbind_Returned _ _ _ _ _ (raw_loadKeys_run s)). rewrite Hpath.
    destruct s as [c x]. cbn [Raw.at_path Raw.around] in *. subst c.
    by rewrite (rbind_Threw _ _ _ _ _ Hthrow).
  - rewrite raw_addKey_run. cbv zeta. rewrite Hpath.
    set (s1 := Raw.mkState _ _).
    destruct (keys_array_throws j "push" s1 Hkeys) as (message & Hthrow).
    exists message, s1.
    assert (Raw.push j (Raw.encode (new_record sha name (Raw.around s))) s1
            = Raw.Threw (TypeError message) s1) as Hpush.
    { unfold Raw.push. by rewrite (rbind_Threw _ _ _ _ _ Hthrow). }
    rewrite (rbind_Threw _ _ _ _ _ Hpush).
    split; [reflexivity|]. split; [reflexivity|]. split; reflexivity.
Qed.

Lemma document_without_keys_array_witness :
  exists message,
    Raw.listKeys (Raw.mkState (Raw.Parsed Raw.JNull) garbled_install)
    = Raw.Threw (TypeError message) (Raw.mkState (Raw.Parsed Raw.JNull) garbled_install).
Proof.
  destruct (document_without_keys_array_throws sample_digest "production" Raw.JNull
              (Raw.mkState (Raw.Parsed Raw.JNull) garbled_install) eq_refl)
    as [Hlist _].
  - intros items. discriminate.
  - exact Hlist.
Defined.

(** ** The store inside the document *)

Lemma holds_inv (s : Raw.state) (w : world) :
  Raw.holds s w ->
  exists d x, s = Raw.mkState (Raw.written d) x /\ w = leave d x.
Proof.
  intros [Hpath Hw]. exists (file w), (Raw.around s).
  split; [|done]. destruct s as [c x]. simpl in *. by rewrite Hpath.
Qed.

Lemma map_each_values {A B C} (f : B -> Raw.R C) (h : A -> B) (g : A -> C)
    (xs : list A) (s : Raw.state) :
  (forall x s, f (h x) s = Raw.Returned (g x) s) ->
  Raw.map_each f (map h xs) s = Raw.Returned (map g xs) s.
Proof.
  intros Hf. induction xs as [|x xs IH]; [reflexivity|].
  cbn [map Raw.map_each]. rewrite (rbind_Returned _ _ _ _ _ (Hf x s)).
  by rewrite (rbind_Returned _ _ _ _ _ IH).
Qed.

(** On a file that holds a state of the store, [listKeys] on the parsed
    value does what [listKeys] does on the store. *)
Lemma listKeys_agree (s : Raw.state) (w : world) :
  Raw.holds s w -> Raw.agree (Raw.listKeys s) (listKeys w).
Proof.
  intros (d & x & -> & ->)%holds_inv.
  rewrite listKeys_run. unfold Raw.listKeys.
  rewrite (rbind_Returned _ _ _ _ _ (raw_loadKeys_run _)).
  destruct d as [|msg|data]; cbn [Raw.at_path Raw.around Raw.written].
  - split; [reflexivity|]. split; reflexivity.
  - split; [reflexivity|]. split; reflexivity.
  - unfold Raw.rbind at 1. cbn [Raw.keys_array Raw.keys_of Raw.member Raw.own String.eqb
                                 Ascii.eqb Bool.eqb Raw.rret].
    rewrite (map_each_values _ Raw.encode listed); [|reflexivity].
    split; [reflexivity|]. split; reflexivity.
Qed.

Lemma raw_push_stored (ks : list KeyInfo.t) (k : KeyInfo.t) (s : Raw.state) :
  Raw.push (Raw.JObj [("keys", Raw.JArr (map Raw.encode ks))]) (Raw.encode k) s
  = Raw.Returned (Raw.JObj [("keys", Raw.JArr (map Raw.encode (ks ++ [k])))]) s.
Proof. rewrite map_app. reflexivity. Qed.

(** What [addKey] pushes to, on a file that holds a state of the store. *)
Lemma raw_push_written (d : document) (k : KeyInfo.t) (s : Raw.state) :
  Raw.push (match Raw.written d with Raw.Parsed j => j | _ => Raw.empty_store end)
           (Raw.encode k) s
  = Raw.Returned
      (Raw.JObj [("keys", Raw.JArr (map Raw.encode (keys (current d) ++ [k])))]) s.
Proof. destruct d as [|msg|data]; [reflexivity|reflexivity|apply raw_push_stored]. Qed.

(** On a file that holds a state of the store, [addKey] on the parsed value
    does what [addKey] does on the store, on a healthy disk and on a failing
    one. *)
Lemma addKey_agree (sha : string -> string) (name : string) (s : Raw.state) (w : world) :
  Raw.holds s w -> Raw.agree (Raw.addKey sha name s) (addKey sha name w).
Proof.
  intros (d & x & -> & ->)%holds_inv.
  rewrite raw_addKey_run. cbv zeta. cbn [Raw.at_path Raw.around].
  set (s1 := Raw.mkState _ _).
  change (new_record sha name x) with (new_record sha name (leave d x)).
  change (drawn_key x) with (drawn_key (leave d x)).
  rewrite (rbind_Returned _ _ _ _ _ (raw_push_written d _ s1)).
  destruct (disk_fault x) as [f|] eqn:Hdisk.
  - destruct (addKey_fault sha name f (leave d x) Hdisk) as ([ks] & -> & Hdata).
    cbn [keys] in Hdata. subst ks.
    assert (disk_fault (Raw.around s1) = Some f) as Hdisk1.
    { unfold s1. by destruct d. }
    rewrite (rbind_Threw _ _ _ _ _ (raw_saveKeys_fault _ s1 f Hdisk1)).
    unfold Raw.agree. split; [reflexivity|].
    unfold s1, failed_save, after_fault, Raw.left_behind, Raw.holds, records.
    destruct d as [|msg|data], (config_dir x) eqn:Hdir, (fault_damage f);
      cbn [Raw.at_path Raw.around Raw.written file leave after_load add_stderr advance
           config_dir current];
      rewrite ?Hdir; split; reflexivity.
  - rewrite (addKey_run sha name (leave d x) Hdisk).
    assert (disk_fault (Raw.around s1) = None) as Hdisk1.
    { unfold s1. by destruct d. }
    rewrite (rbind_Returned _ _ _ _ _ (raw_saveKeys_run _ s1 Hdisk1)).
    unfold Raw.rret, Raw.agree. split; [reflexivity|].
    unfold s1, after_addKey, saved, Raw.holds, records.
    destruct d as [|msg|data], (config_dir x) eqn:Hdir;
      cbn [Raw.at_path Raw.around Raw.written file leave after_load add_stderr advance
           config_dir current set_file set_config_dir];
      rewrite ?Hdir; split; reflexivity.
Qed.
